(** * zoom-teams-app: queue, webhook dispatch and Graph upsert

    A shallow embedding of the TypeScript sources
    - [services/queueService.ts]   (class [InMemoryQueue], class [QueueService]),
    - [routes.ts]                  (the [/webhook/zoom] handler of [createRoutes]),
    - [services/graphService.ts]   (the SharePoint / Planner upsert methods),
    - [services/queueProcessor.ts] (the missed-call and voicemail job handlers),
    together with the properties the specification states about them.

    Conventions of the embedding.
    - JavaScript numbers that the code only uses as counters, attempt numbers
      and millisecond delays are integers of [Z].
    - An [async] method is a resumable computation: it runs synchronously up
      to its next [await], and is resumed by the environment with the value
      the awaited promise settles to.
    - A thrown exception is an explicit result ([inl] / a [Thrown] value);
      [try]/[catch] is written out. *)

From Stdlib Require Import ZArith Lia Ascii String.
From stdpp Require Import base option list strings gmap pretty.

Local Open Scope Z_scope.

(** ** JavaScript errors *)

(** An [Error] object; only its [message] is ever read by the code. *)
Record JsError := mkError { message : string }.

(** A thrown value: an [Error] instance, or any other value (kept as its
    [String(...)] rendering, which is all [execute] uses of it). *)
Inductive Thrown :=
  | ThrownError (e : JsError)
  | ThrownValue (rendered : string).

(** [error instanceof Error ? error : new Error(String(error))] *)
Definition toError (t : Thrown) : JsError :=
  match t with
  | ThrownError e => e
  | ThrownValue s => mkError s
  end.

(** * services/queueService.ts *)

Module InMemoryQueue.

(** [Queue.JobOptions['backoff']]: [undefined], a number, or
    [{ type: string; delay?: number }]. *)
Inductive Backoff :=
  | BackoffUndefined
  | BackoffNumber (n : Z)
  | BackoffOptions (type : string) (delay : option Z).

(** The two fields of [Queue.JobOptions] that [InMemoryQueue] reads. *)
Record JobOptions := mkOptions {
  attempts : option Z;
  backoff : Backoff;
}.

(** [private getBackoffDelay(backoff, attempt)].  [!backoff] holds for
    [undefined] and for the number [0]; [2 ** (attempt - 1)] is the integer
    power for the attempt numbers [>= 1] that [execute] passes. *)
Definition getBackoffDelay (b : Backoff) (attempt : Z) : Z :=
  match b with
  | BackoffUndefined => 0
  | BackoffNumber n => if n =? 0 then 0 else n
  | BackoffOptions type delay =>
      let baseDelay := match delay with Some d => d | None => 0 end in
      if String.eqb type "exponential"
      then baseDelay * 2 ^ (attempt - 1)
      else baseDelay
  end.

Section Queue.

(** [T] is the job payload type; [H] stands for handler functions, which the
    queue only stores and calls. *)
Context {T H : Type}.

(** [QueueJobLike<T>] *)
Record Job := mkJob { id : Z; data : T }.

(** The arguments a listener is called with: [(job)] for 'completed',
    [(job, error)] for 'failed', [(error)] for 'error'. *)
Inductive Args :=
  | ArgsCompleted (job : Job)
  | ArgsFailed (job : Job) (err : JsError)
  | ArgsError (err : JsError).

(** A [QueueListener]: a function that, called with its arguments, either
    returns ([None]) or throws ([Some t]).  [lname] identifies it in traces. *)
Record Listener := mkListener {
  lname : string;
  lrun : Args → option Thrown;
}.

Inductive QueueEvent := OnCompleted | OnFailed | OnError.

(** [private listeners: Record<'completed'|'failed'|'error', QueueListener[]>] *)
Record Listeners := mkListeners {
  on_completed : list Listener;
  on_failed : list Listener;
  on_error : list Listener;
}.

(** [private counts] *)
Record Counts := mkCounts {
  waiting : Z;
  active : Z;
  completed : Z;
  failed : Z;
  delayed : Z;
  paused : Z;
}.

(** The fields of an [InMemoryQueue] instance. *)
Record Queue := mkQueue {
  nextId : Z;
  handler : option H;
  pending : list (Job * JobOptions);
  listeners : Listeners;
  counts : Counts;
}.

(** [new InMemoryQueue()] *)
Definition empty : Queue :=
  {| nextId := 1;
     handler := None;
     pending := [];
     listeners := mkListeners [] [] [];
     counts := mkCounts 0 0 0 0 0 0 |}.

Definition with_counts (q : Queue) (c : Counts) : Queue :=
  {| nextId := nextId q; handler := handler q; pending := pending q;
     listeners := listeners q; counts := c |}.

Definition set_waiting (c : Counts) (v : Z) : Counts :=
  mkCounts v (active c) (completed c) (failed c) (delayed c) (paused c).
Definition set_active (c : Counts) (v : Z) : Counts :=
  mkCounts (waiting c) v (completed c) (failed c) (delayed c) (paused c).
Definition set_completed (c : Counts) (v : Z) : Counts :=
  mkCounts (waiting c) (active c) v (failed c) (delayed c) (paused c).
Definition set_failed (c : Counts) (v : Z) : Counts :=
  mkCounts (waiting c) (active c) (completed c) v (delayed c) (paused c).
Definition set_delayed (c : Counts) (v : Z) : Counts :=
  mkCounts (waiting c) (active c) (completed c) (failed c) v (paused c).

(** What an observer sees of a run of the queue. *)
Inductive Event :=
  | EvInvoke (h : H) (job : Job)                       (* [this.handler(job)] *)
  | EvNotify (ev : QueueEvent) (l : string) (a : Args) (* a listener is called *)
  | EvSleep (ms : Z).                                  (* [this.sleep(ms)] *)

(** Where an [execute] call stands: suspended at one of its two [await]s, or
    finished (its promise resolved, or rejected by an exception that left
    the method). *)
Inductive Exec :=
  | AwaitHandler (attempt : Z)
  | AwaitSleep (attempt : Z) (lastError : option JsError)
  | Returned
  | Threw (t : Thrown).

(** What the environment resumes a suspended [execute] with. *)
Inductive Outcome := Resolves | Rejects (t : Thrown).
Inductive Input := HandlerSettled (o : Outcome) | TimerFired.

Definition Step : Type := Queue * list Event * Exec.

(** [this.listeners[ev].forEach((listener) => listener(...args))]: the
    listeners are called in registration order; an exception thrown by one
    of them leaves [forEach], so the later ones are not called. *)
Fixpoint notify (ev : QueueEvent) (ls : list Listener) (a : Args)
  : list Event * option Thrown :=
  match ls with
  | [] => ([], None)
  | l :: ls' =>
      match lrun l a with
      | Some t => ([EvNotify ev (lname l) a], Some t)
      | None =>
          let '(tr, r) := notify ev ls' a in
          (EvNotify ev (lname l) a :: tr, r)
      end
  end.

(** [Math.max(1, options.attempts ?? 1)] *)
Definition effective_attempts (o : JobOptions) : Z :=
  Z.max 1 (match attempts o with Some n => n | None => 1 end).

(** The code after the [for] loop of [execute] (lines 106-110). *)
Definition finish (q : Queue) (job : Job) (lastError : option JsError) : Step :=
  let c := counts q in
  let c := set_active c (Z.max 0 (active c - 1)) in
  let c := set_failed c (failed c + 1) in
  let q := with_counts q c in
  let error := match lastError with
               | Some e => e
               | None => mkError "Queue job failed"
               end in
  let '(tr1, r1) := notify OnFailed (on_failed (listeners q)) (ArgsFailed job error) in
  match r1 with
  | Some t => (q, tr1, Threw t)
  | None =>
      let '(tr2, r2) := notify OnError (on_error (listeners q)) (ArgsError error) in
      (q, tr1 ++ tr2, match r2 with Some t => Threw t | None => Returned end)
  end.

(** The [catch] block of the loop (lines 93-103), up to its [await] or to
    the end of the iteration; [next] is the loop continued at [attempt + 1]. *)
Definition on_catch (next : Queue → Z → option JsError → Step)
    (q : Queue) (o : JobOptions) (attempt : Z) (t : Thrown) : Step :=
  let lastError := Some (toError t) in
  if attempt <? effective_attempts o then
    let delay := getBackoffDelay (backoff o) attempt in
    if 0 <? delay then
      let c := counts q in
      (with_counts q (set_delayed c (delayed c + 1)),
       [EvSleep delay], AwaitSleep attempt lastError)
    else next q (attempt + 1) lastError
  else next q (attempt + 1) lastError.

(** The [for] loop from its test [attempt <= attempts], run up to the next
    [await].  With a handler registered the loop suspends in its first
    iteration; without one every iteration throws at once, and [fuel]
    bounds those iterations (see [loop_fuel]).  The handlers are those whose
    call returns, a promise or a value, as the call of an [async] function
    does (the three that server.ts registers are of this kind): what they
    throw reaches [execute] when the [await] is resumed.  A handler that
    throws before it returns is outside this model. *)
Fixpoint loop (fuel : nat) (job : Job) (o : JobOptions)
    (q : Queue) (attempt : Z) (lastError : option JsError) : Step :=
  if attempt <=? effective_attempts o then
    match handler q with
    | Some h => (q, [EvInvoke h job], AwaitHandler attempt)
    | None =>
        match fuel with
        | O => finish q job lastError
        | S fuel' =>
            on_catch (loop fuel' job o) q o attempt
              (ThrownError (mkError "Queue processor is not configured"))
        end
    end
  else finish q job lastError.

(** Iterations left when the loop is entered at [attempt]. *)
Definition fuel_for (o : JobOptions) (attempt : Z) : nat :=
  Z.to_nat (effective_attempts o + 1 - attempt).

Definition loop_at (job : Job) (o : JobOptions)
    (q : Queue) (attempt : Z) (lastError : option JsError) : Step :=
  loop (fuel_for o attempt) job o q attempt lastError.

(** [private async execute(job, options)], from its entry to its first
    [await] (or to its end). *)
Definition execute (q : Queue) (job : Job) (o : JobOptions) : Step :=
  let c := counts q in
  let c := set_waiting c (Z.max 0 (waiting c - 1)) in
  let c := set_active c (active c + 1) in
  loop_at job o (with_counts q c) 1 None.

Definition prepend (tr : list Event) (s : Step) : Step :=
  let '(q, tr', st) := s in (q, tr ++ tr', st).

(** [execute] resumed at the [await] it is suspended at, run to its next
    [await] (or to its end).  [q] is the queue as it is at the time of the
    resumption. *)
Definition resume (q : Queue) (job : Job) (o : JobOptions)
    (st : Exec) (i : Input) : Step :=
  match st, i with
  | AwaitHandler attempt, HandlerSettled Resolves =>
      let c := counts q in
      let c := set_active c (Z.max 0 (active c - 1)) in
      let c := set_completed c (completed c + 1) in
      let q := with_counts q c in
      let '(tr, r) := notify OnCompleted (on_completed (listeners q)) (ArgsCompleted job) in
      match r with
      | None => (q, tr, Returned)
      | Some t => prepend tr (on_catch (loop_at job o) q o attempt t)
      end
  | AwaitHandler attempt, HandlerSettled (Rejects t) =>
      on_catch (loop_at job o) q o attempt t
  | AwaitSleep attempt lastError, TimerFired =>
      let c := counts q in
      let q := with_counts q (set_delayed c (Z.max 0 (delayed c - 1))) in
      loop_at job o q (attempt + 1) lastError
  | _, _ => (q, [], st)
  end.

(** A started execution, as [add] and [process] leave it behind
    ([void this.execute(...)]). *)
Definition Started : Type := Job * JobOptions * Exec.

(** [async add(data, options = {})] *)
Definition add (q : Queue) (d : T) (o : JobOptions)
  : Queue * list Event * option Started :=
  let job := mkJob (nextId q) d in
  let q := {| nextId := nextId q + 1; handler := handler q; pending := pending q;
              listeners := listeners q; counts := counts q |} in
  match handler q with
  | None =>
      let p := pending q ++ [(job, o)] in
      let q := {| nextId := nextId q; handler := handler q; pending := p;
                  listeners := listeners q;
                  counts := set_waiting (counts q) (Z.of_nat (length p)) |} in
      (q, [], None)
  | Some _ =>
      let c := counts q in
      let q := with_counts q (set_waiting c (waiting c + 1)) in
      let '(q, tr, st) := execute q job o in
      (q, tr, Some (job, o, st))
  end.

(** The [for (const item of queued)] loop of [process]. *)
Fixpoint execute_all (q : Queue) (queued : list (Job * JobOptions))
  : Queue * list Event * list Started :=
  match queued with
  | [] => (q, [], [])
  | (job, o) :: rest =>
      let '(q, tr, st) := execute q job o in
      let '(q, tr', sts) := execute_all q rest in
      (q, tr ++ tr', (job, o, st) :: sts)
  end.

(** [process(handler)] *)
Definition process (q : Queue) (h : H) : Queue * list Event * list Started :=
  let q := {| nextId := nextId q; handler := Some h; pending := pending q;
              listeners := listeners q; counts := counts q |} in
  if Z.of_nat (length (pending q)) =? 0 then (q, [], [])
  else
    let queued := pending q in
    let q := {| nextId := nextId q; handler := handler q; pending := [];
                listeners := listeners q;
                counts := set_waiting (counts q) (Z.of_nat (length queued)) |} in
    execute_all q queued.

(** [on(event, listener)] *)
Definition on (q : Queue) (ev : QueueEvent) (l : Listener) : Queue :=
  let ls := listeners q in
  let ls := match ev with
            | OnCompleted => mkListeners (on_completed ls ++ [l]) (on_failed ls) (on_error ls)
            | OnFailed => mkListeners (on_completed ls) (on_failed ls ++ [l]) (on_error ls)
            | OnError => mkListeners (on_completed ls) (on_failed ls) (on_error ls ++ [l])
            end in
  {| nextId := nextId q; handler := handler q; pending := pending q;
     listeners := ls; counts := counts q |}.

(** [async getJobCounts()] *)
Definition getJobCounts (q : Queue) : Counts := counts q.

(** ** One job run on its own

    The run of one [execute] call when nothing else touches the queue in
    between: timers fire as soon as they are set, and the handler's promises
    settle to the given outcomes, one per invocation. *)

(** Fire the timer of a sleeping execution (again, while it sleeps). *)
Fixpoint wake (n : nat) (job : Job) (o : JobOptions) (s : Step) : Step :=
  match n, s with
  | S n', (q, tr, AwaitSleep attempt lastError) =>
      wake n' job o
        (prepend tr (resume q job o (AwaitSleep attempt lastError) TimerFired))
  | _, _ => s
  end.

Definition settle (job : Job) (o : JobOptions) (s : Step) (out : Outcome) : Step :=
  let '(q, tr, st) := s in
  wake (fuel_for o 1) job o (prepend tr (resume q job o st (HandlerSettled out))).

Definition run (q : Queue) (job : Job) (o : JobOptions) (outs : list Outcome) : Step :=
  fold_left (settle job o) outs (wake (fuel_for o 1) job o (execute q job o)).

Definition is_invoke (e : Event) : bool :=
  match e with EvInvoke _ _ => true | _ => false end.
Definition is_notify (e : Event) : bool :=
  match e with EvNotify _ _ _ => true | _ => false end.

(** How often the handler was called in a trace. *)
Definition invocations (tr : list Event) : nat := length (List.filter is_invoke tr).
(** The listener calls of a trace, in order. *)
Definition notifications (tr : list Event) : list Event := List.filter is_notify tr.
(** The delays slept in a trace, in order. *)
Definition sleeps (tr : list Event) : list Z :=
  omap (λ e, match e with EvSleep ms => Some ms | _ => None end) tr.

(** The calls [forEach] makes to listeners that all return. *)
Definition calls (ev : QueueEvent) (ls : list Listener) (a : Args) : list Event :=
  map (λ l, EvNotify ev (lname l) a) ls.

(** No listener of the queue throws. *)
Definition quiet (ls : list Listener) : Prop :=
  ∀ l a, l ∈ ls → lrun l a = None.

(** ** Bookkeeping and traces, for the statements below *)

(** All six counters are non-negative: it holds of [empty] and every
    operation of the queue keeps it. *)
Definition counts_ok (c : Counts) : Prop :=
  0 <= waiting c ∧ 0 <= active c ∧ 0 <= completed c
  ∧ 0 <= failed c ∧ 0 <= delayed c ∧ 0 <= paused c.

(** The counters after a job completed, and after it failed. *)
Definition count_completed (c : Counts) : Counts :=
  set_completed (set_active c (Z.max 0 (active c - 1))) (completed c + 1).
Definition count_failed (c : Counts) : Counts :=
  set_failed (set_active c (Z.max 0 (active c - 1))) (failed c + 1).
(** The counters once [execute] took a job up. *)
Definition count_started (c : Counts) : Counts :=
  set_active (set_waiting c (Z.max 0 (waiting c - 1))) (active c + 1).

(** The trace of a retry after the failed attempt [a]: the backoff sleep, if
    any, and the next call of the handler. *)
Definition retry_events (h : H) (job : Job) (o : JobOptions) (a : Z) : list Event :=
  (if 0 <? getBackoffDelay (backoff o) a
   then [EvSleep (getBackoffDelay (backoff o) a)] else [])
  ++ [EvInvoke h job].

Fixpoint retries (h : H) (job : Job) (o : JobOptions) (a : Z) (n : nat) : list Event :=
  match n with
  | O => []
  | S n' => retry_events h job o a ++ retries h job o (a + 1) n'
  end.

(** [add] called for each item in turn. *)
Definition add_all (q : Queue) (items : list (T * JobOptions)) : Queue :=
  fold_left (λ q it, (add q it.1 it.2).1.1) items q.

(** The jobs [add] makes of the items when the next id is [n]. *)
Fixpoint numbered (n : Z) (items : list (T * JobOptions))
  : list (Job * JobOptions) :=
  match items with
  | [] => []
  | (d, o) :: rest => (mkJob n d, o) :: numbered (n + 1) rest
  end.

End Queue.

Arguments Job : clear implicits.
Arguments Queue : clear implicits.
Arguments Event : clear implicits.
Arguments Args : clear implicits.
Arguments Listener : clear implicits.
Arguments Listeners : clear implicits.

End InMemoryQueue.

(** * JSON values and the JavaScript operations the code applies to them *)

Module Js.

#[local] Set Warnings "-register-all".

(** A parsed JSON document, with [undefined] for what a lookup misses.
    Numbers are integers. *)
Inductive JValue :=
  | JUndefined
  | JNull
  | JBool (b : bool)
  | JNum (n : Z)
  | JStr (s : string)
  | JArr (items : list JValue)
  | JObj (props : list (string * JValue)).

Definition TypeError (msg : string) : Thrown := ThrownError (mkError msg).

(** The own property [k] of an object literal. *)
Fixpoint own (k : string) (props : list (string * JValue)) : option JValue :=
  match props with
  | [] => None
  | (k', v) :: rest => if String.eqb k k' then Some v else own k rest
  end.

(** [v.k] for the data property names the code reads: a [TypeError] on
    [undefined] and [null], the own property of an object, [undefined] on
    every other value. *)
Definition prop (v : JValue) (k : string) : Thrown + JValue :=
  match v with
  | JUndefined => inl (TypeError "Cannot read properties of undefined")
  | JNull => inl (TypeError "Cannot read properties of null")
  | JObj props => inr (default JUndefined (own k props))
  | _ => inr JUndefined
  end.

(** [v?.k] *)
Definition prop_opt (v : JValue) (k : string) : JValue :=
  match prop v k with
  | inl _ => JUndefined
  | inr x => x
  end.

(** [v[0]] *)
Definition first (v : JValue) : Thrown + JValue :=
  match v with
  | JUndefined => inl (TypeError "Cannot read properties of undefined")
  | JNull => inl (TypeError "Cannot read properties of null")
  | JArr items => inr (default JUndefined (head items))
  | JStr (String c _) => inr (JStr (String c EmptyString))
  | JObj props => inr (default JUndefined (own "0" props))
  | _ => inr JUndefined
  end.

(** ToBoolean *)
Definition truthy (v : JValue) : bool :=
  match v with
  | JUndefined | JNull => false
  | JBool b => b
  | JNum n => negb (n =? 0)
  | JStr s => negb (String.eqb s "")
  | JArr _ | JObj _ => true
  end.

(** [String(v)], as a template literal renders a value that it can convert
    (see [unprintable] below), with the integers printed in full. *)
Fixpoint toString (v : JValue) : string :=
  match v with
  | JUndefined => "undefined"
  | JNull => "null"
  | JBool true => "true"
  | JBool false => "false"
  | JNum n => pretty n
  | JStr s => s
  | JArr items =>
      String.concat ","
        (map (λ x, match x with
                   | JUndefined | JNull => ""
                   | _ => toString x
                   end) items)
  | JObj _ => "[object Object]"
  end.

(** [v.length > 0] *)
Definition length_positive (v : JValue) : bool :=
  match v with
  | JStr s => negb (String.eqb s "")
  | JArr items => match items with [] => false | _ :: _ => true end
  | JObj props => match own "length" props with
                  | Some (JNum n) => 0 <? n
                  | _ => false
                  end
  | _ => false
  end.

(** [a || b] *)
Definition or (a b : JValue) : JValue := if truthy a then a else b.

(** [v === 'lit'] *)
Definition is_str (v : JValue) (lit : string) : bool :=
  match v with
  | JStr s => String.eqb s lit
  | _ => false
  end.

(** [String.prototype.toLowerCase], on the ASCII letters. *)
Definition lower_ascii (c : ascii) : ascii :=
  let n := Ascii.nat_of_ascii c in
  if ((65 <=? n) && (n <=? 90))%nat then Ascii.ascii_of_nat (n + 32) else c.

Fixpoint toLowerCase (s : string) : string :=
  match s with
  | EmptyString => EmptyString
  | String c rest => String (lower_ascii c) (toLowerCase rest)
  end.

(** [s.startsWith(p)] *)
Fixpoint startsWith (s p : string) : bool :=
  match p, s with
  | EmptyString, _ => true
  | String a p', String b s' => Ascii.eqb a b && startsWith s' p'
  | String _ _, EmptyString => false
  end.

(** [s.includes(p)] *)
Fixpoint includes (s p : string) : bool :=
  startsWith s p ||
  match s with
  | EmptyString => false
  | String _ rest => includes rest p
  end.

(** A value that a template literal cannot convert: an object with an own
    [toString] property (no value of a parsed document is callable, so
    neither it nor the inherited [valueOf] gives a primitive), or an array
    with such an element, which [join] converts in turn. *)
Fixpoint unprintable (v : JValue) : bool :=
  match v with
  | JArr items => existsb unprintable items
  | JObj props => match own "toString" props with
                  | Some _ => true
                  | None => false
                  end
  | _ => false
  end.

(** The conversion of [`${v}`], for its exception only. *)
Definition printed (v : JValue) : Thrown + JValue :=
  if unprintable v
  then inl (TypeError "Cannot convert object to primitive value")
  else inr v.

(** The text [`${v}`] has when the conversion returns; [number] is
    [Number.prototype.toString]. *)
Fixpoint template_text (number : Z → string) (v : JValue) : string :=
  match v with
  | JUndefined => "undefined"
  | JNull => "null"
  | JBool true => "true"
  | JBool false => "false"
  | JNum n => number n
  | JStr s => s
  | JArr items =>
      String.concat ","
        (map (λ x, match x with
                   | JUndefined | JNull => ""
                   | _ => template_text number x
                   end) items)
  | JObj _ => "[object Object]"
  end.

(** [`${v}`] *)
Definition render (number : Z → string) (v : JValue) : Thrown + string :=
  match printed v with
  | inl t => inl t
  | inr v => inr (template_text number v)
  end.

End Js.

(** * types.ts *)

Inductive JobType := missed_call | voicemail | sales_call.

(** [QueueJob]: the category tag and the webhook event it was made of. *)
Record QueueJob := mkQueueJob { type : JobType; event : Js.JValue }.

(** * services/queueService.ts: [QueueService] *)

Module QueueService.
Import Js InMemoryQueue.

(** The options every [add...] method passes to [add]. *)
Definition jobOptions : JobOptions :=
  mkOptions (Some 3) (BackoffOptions "exponential" (Some 2000)).

(** [private shouldUseRedis(redisUrl?)] *)
Definition shouldUseRedis (redisUrl : option string) : bool :=
  match redisUrl with
  | None => false
  | Some url =>
      if String.eqb url "" then false
      else
        let lowerUrl := toLowerCase url in
        if includes lowerUrl "localhost" || includes lowerUrl "127.0.0.1"
        then false
        else true
  end.

Section Service.
Context {H : Type}.

(** The three queues, when the in-memory fallback is used. *)
Record t := mk {
  missedCallQueue : Queue QueueJob H;
  voicemailQueue : Queue QueueJob H;
  salesCallQueue : Queue QueueJob H;
}.

(** [new QueueService()] without a usable Redis URL. *)
Definition fallback : t := mk empty empty empty.

(** [async addMissedCall(job)], [addVoicemail], [addSalesCall]: the updated
    service, and what the [add] started. *)
Definition addMissedCall (s : t) (job : QueueJob)
  : t * list (Event QueueJob H) :=
  let '(q, tr, _) := add (missedCallQueue s) job jobOptions in
  (mk q (voicemailQueue s) (salesCallQueue s), tr).
Definition addVoicemail (s : t) (job : QueueJob)
  : t * list (Event QueueJob H) :=
  let '(q, tr, _) := add (voicemailQueue s) job jobOptions in
  (mk (missedCallQueue s) q (salesCallQueue s), tr).
Definition addSalesCall (s : t) (job : QueueJob)
  : t * list (Event QueueJob H) :=
  let '(q, tr, _) := add (salesCallQueue s) job jobOptions in
  (mk (missedCallQueue s) (voicemailQueue s) q, tr).

End Service.

Arguments t : clear implicits.

End QueueService.

(** * routes.ts: [POST /webhook/zoom] *)

Module Routes.
Import Js.

(** A call of one of the three [add...] methods of [QueueService]. *)
Inductive Enqueue :=
  | addMissedCall (job : QueueJob)
  | addVoicemail (job : QueueJob)
  | addSalesCall (job : QueueJob).

(** The handler body is a computation that enqueues jobs and may throw:
    the jobs enqueued so far, and the exception or the result. *)
Definition Eff (A : Type) : Type := list Enqueue * (Thrown + A).

Global Instance eff_ret : MRet Eff := λ A a, ([], inr a).
Global Instance eff_bind : MBind Eff := λ A B f m,
  match m with
  | (es, inl t) => (es, inl t)
  | (es, inr a) => let '(es', r) := f a in (es ++ es', r)
  end.
(** A property read, which may throw. *)
Definition read (r : Thrown + JValue) : Eff JValue := ([], r).
Definition throw {A} (t : Thrown) : Eff A := ([], inl t).
(** [await queueService.add...(job)].  The in-memory queue accepts every
    job; an [add] that the durable backend rejects is not modelled. *)
Definition enqueue (e : Enqueue) : Eff unit := ([e], inr tt).

(** A value placed in the template literal of a [console.log] line. *)
Definition logged (v : JValue) : Eff unit :=
  _ ← read (printed v); mret tt.

(** [event.payload.object] *)
Definition payload_object (event : JValue) : Eff JValue :=
  payload ← read (prop event "payload");
  read (prop payload "object").

(** [case 'phone.callee_ended': case 'phone.caller_ended':] (lines 63-76) *)
Definition case_ended (event : JValue) : Eff unit :=
  callObj ← payload_object event;
  handup_result ← read (prop callObj "handup_result");
  result ← read (prop callObj "result");
  let hangupResult := or (or handup_result result) (JStr "") in
  missed ←
    (if is_str hangupResult "Call Canceled" || is_str hangupResult "Voicemail"
        || is_str hangupResult "No Answer"
     then mret true
     else match hangupResult with
          | JStr s => mret (includes (toLowerCase s) "missed")
          | _ => throw (TypeError "hangupResult.toLowerCase is not a function")
          end);
  if (missed : bool) then
    enqueue (addMissedCall (mkQueueJob missed_call event)) ;;
    call_id ← read (prop callObj "call_id");
    logged call_id ;;
    logged hangupResult
  else
    logged hangupResult ;;
    call_id ← read (prop callObj "call_id");
    logged call_id.

(** [case 'phone.callee_missed':] (lines 78-84) *)
Definition case_missed (event : JValue) : Eff unit :=
  callObj ← payload_object event;
  enqueue (addMissedCall (mkQueueJob missed_call event)) ;;
  call_id ← read (prop callObj "call_id");
  logged call_id ;;
  handup_result ← read (prop callObj "handup_result");
  logged handup_result.

(** [case 'phone.voicemail_received':] (lines 86-90) *)
Definition case_voicemail_received (event : JValue) : Eff unit :=
  enqueue (addVoicemail (mkQueueJob voicemail event)) ;;
  obj ← payload_object event;
  id ← read (prop obj "id");
  logged id.

(** [const log = callLog.call_logs[0]] and the two [console.log] lines that
    print [log.call_id], [log.result], [log.duration], [log.has_recording]. *)
Definition first_call_log (event : JValue) : Eff JValue :=
  callLog ← payload_object event;
  call_logs ← read (prop callLog "call_logs");
  log ← read (first call_logs);
  call_id ← read (prop log "call_id");
  logged call_id ;;
  result ← read (prop log "result");
  logged result ;;
  duration ← read (prop log "duration");
  logged duration ;;
  has_recording ← read (prop log "has_recording");
  logged has_recording ;;
  mret log.

(** [case 'phone.callee_call_log_completed':], the first one (lines 92-105):
    it only logs. *)
Definition case_call_log_completed (event : JValue) : Eff unit :=
  log ← first_call_log event;
  result ← read (prop log "result");
  (if is_str result "Recorded"
   then _ ← read (prop log "has_recording"); mret tt
   else mret tt).

(** The cases that only log [obj.call_id] (lines 107-123). *)
Definition case_log_call_id (event : JValue) : Eff unit :=
  callObj ← payload_object event;
  call_id ← read (prop callObj "call_id");
  logged call_id.

(** [case 'phone.recording_completed':] and
    [case 'phone.recording_transcript_completed':] (lines 125-137) *)
Definition case_recording (event : JValue) : Eff unit :=
  recordingObj ← payload_object event;
  recordings ← read (prop recordingObj "recordings");
  rec0 ← read (first recordings);
  logged (prop_opt rec0 "call_id") ;;
  enqueue (addSalesCall (mkQueueJob sales_call event)).

(** [case 'phone.ai_call_summary_changed':] (lines 139-144) *)
Definition case_ai_summary (event : JValue) : Eff unit :=
  summaryObj ← payload_object event;
  call_id ← read (prop summaryObj "call_id");
  logged call_id ;;
  enqueue (addSalesCall (mkQueueJob sales_call event)).

(** [case 'phone.callee_call_log_completed':], the second one
    (lines 146-157). *)
Definition case_call_log_completed_2 (event : JValue) : Eff unit :=
  log ← first_call_log event;
  result ← read (prop log "result");
  if negb (is_str result "Missed") && negb (is_str result "Voicemail")
  then enqueue (addSalesCall (mkQueueJob sales_call event))
  else mret tt.

(** [case 'phone.voicemail_transcript_completed':] (lines 159-166) *)
Definition case_voicemail_transcript (event : JValue) : Eff unit :=
  transcriptObj ← payload_object event;
  call_id ← read (prop transcriptObj "call_id");
  logged call_id ;;
  transcription ← read (prop transcriptObj "transcription");
  logged (or (prop_opt transcription "content") (JStr "N/A")) ;;
  enqueue (addVoicemail (mkQueueJob voicemail event)).

(** [case 'phone.callee_missed_call':] (lines 168-174) *)
Definition case_missed_call (event : JValue) : Eff unit :=
  enqueue (addMissedCall (mkQueueJob missed_call event)) ;;
  callObj ← payload_object event;
  call_id ← read (prop callObj "call_id");
  logged call_id.

(** The clauses of [switch (event.event)], in source order: the labels of a
    clause and its block.  Every block ends in [break]. *)
Definition clauses : list (list string * (JValue → Eff unit)) :=
  [ (["phone.callee_ended"; "phone.caller_ended"], case_ended);
    (["phone.callee_missed"], case_missed);
    (["phone.voicemail_received"], case_voicemail_received);
    (["phone.callee_call_log_completed"], case_call_log_completed);
    (["phone.callee_ringing"], case_log_call_id);
    (["phone.callee_answered"], case_log_call_id);
    (["phone.recording_started"], case_log_call_id);
    (["phone.recording_completed"], case_recording);
    (["phone.recording_transcript_completed"], case_recording);
    (["phone.ai_call_summary_changed"], case_ai_summary);
    (["phone.callee_call_log_completed"], case_call_log_completed_2);
    (["phone.voicemail_transcript_completed"], case_voicemail_transcript);
    (["phone.callee_missed_call"], case_missed_call) ].

(** A [switch] statement: the discriminant is compared with [===] to the
    labels in source order, and the block of the first clause with a label
    that matches is run; [dflt] when none does. *)
Fixpoint switch (tag : JValue) (cs : list (list string * (JValue → Eff unit)))
    (dflt : JValue → Eff unit) (event : JValue) : Eff unit :=
  match cs with
  | [] => dflt event
  | (labels, block) :: rest =>
      if existsb (is_str tag) labels then block event
      else switch tag rest dflt event
  end.

(** The request as the handler reads it: the two signature headers and the
    parsed body. *)
Record Request := mkRequest {
  x_zm_request_timestamp : option string;
  x_zm_signature : option string;
  body : JValue;
}.

(** The response status and the jobs handed to the queue service. *)
Record Response := mkResponse {
  status : Z;
  enqueued : list Enqueue;
}.

Section Webhook.

(** [JSON.stringify], [validateZoomWebhook] of [utils/webhookValidator.ts]
    (an HMAC comparison) and [config.zoomWebhookSecretToken]. *)
Variable JSON_stringify : JValue → string.
Variable validateZoomWebhook : string → string → string → string → bool.
Variable zoomWebhookSecretToken : string.

(** [!header]: the header is missing or empty. *)
Definition missing (h : option string) : bool :=
  match h with
  | None => true
  | Some s => String.eqb s ""
  end.

(** [default:] prints [event.event]. *)
Definition case_default (event : JValue) : Eff unit :=
  tag ← read (prop event "event");
  logged tag.

(** The [try] block of the handler from [// Parse event] on: line 58 prints
    [event.event], line 59 the document, which [JSON.stringify] always
    converts; then the [switch]. *)
Definition dispatch (event : JValue) : Eff unit :=
  tag ← read (prop event "event");
  logged tag ;;
  tag ← read (prop event "event");
  switch tag clauses case_default event.

(** [router.post('/webhook/zoom', ...)] *)
Definition webhook_zoom (req : Request) : Response :=
  if missing (x_zm_request_timestamp req) || missing (x_zm_signature req)
  then mkResponse 400 []
  else
    let rawBody := JSON_stringify (body req) in
    if negb (validateZoomWebhook rawBody
               (default "" (x_zm_request_timestamp req))
               (default "" (x_zm_signature req))
               zoomWebhookSecretToken)
    then mkResponse 401 []
    else
      match dispatch (body req) with
      | (es, inr _) => mkResponse 200 es
      | (es, inl _) => mkResponse 500 es
      end.

End Webhook.

End Routes.

(** * services/graphService.ts *)

Module Graph.
Import Js.

(** ** types.ts: the records handed to the upsert methods *)

Module SalesLeadItem.
Record t := mk {
  channel : string;
  summary : string;
  priority : string;
  owner : option (list Z);
  status : string;
  callTimestamp : string;
  voicemailLink : option string;
  transcript : option string;
  callId : string;
  plannerTaskId : option string;
}.
End SalesLeadItem.

Module SalesCallItem.
Record t := mk {
  contact : string;
  summary : string;
  priority : string;
  owner : option (list Z);
  status : string;
  callTimestamp : string;
  recordingLink : option string;
  transcript : option string;
  aiSummary : option string;
  callId : string;
  duration : Z;
}.
End SalesCallItem.

(** A string is truthy when it is not empty; an optional string when it is
    present and not empty. *)
Definition nonempty (s : string) : bool := negb (String.eqb s "").
Definition present (o : option string) : bool :=
  match o with
  | Some s => nonempty s
  | None => false
  end.
(** [o || ''] *)
Definition or_empty (o : option string) : string :=
  match o with
  | Some s => if nonempty s then s else ""
  | None => ""
  end.

(** ** The record store behind the Graph client

    The SharePoint lists, the Planner tasks and the Teams webhook are
    external services.  They are modelled as the store the code presumes:
    list items with a server-assigned id and a dictionary of fields, found
    by the value of their [CallId] field; tasks whose details carry an etag
    that a conditional patch must match. *)

Inductive ListName := SalesLeads | SalesCalls.

Record ListItem := mkItem {
  item_id : string;
  fields : gmap string JValue;
}.

Record Task := mkTask {
  task_id : string;
  task_planId : string;
  task_title : string;
  task_dueDateTime : option string;
  task_description : string;
  task_etag : N;
}.

(** What the rest of the world does just before a request is served:
    nothing, make the request fail, or have another client rewrite the
    description of a task (which gives its details a new etag). *)
Inductive Interference :=
  | Calm
  | Down (e : JsError)
  | Edit (taskId : string) (description : string).

(** The requests the code sends. *)
Inductive Request :=
  | FindItems (l : ListName) (callId : string)
  | PostItem (l : ListName) (fs : gmap string JValue)
  | PatchFields (l : ListName) (itemId : string) (updates : gmap string JValue)
  | PostTask (planId title : string) (dueDateTime : option string)
  | GetDetails (taskId : string)
  | PatchDetails (taskId : string) (etag : N) (description : string)
  | PostTeams (url text : string).

(** The journal of a run: the requests sent, with whether they succeeded,
    and the pauses ([setTimeout]) in between. *)
Inductive Entry :=
  | Sent (r : Request) (ok : bool)
  | Slept (ms : Z).

Record World := mkWorld {
  salesLeads : list ListItem;
  salesCalls : list ListItem;
  tasks : list Task;
  counter : N;
  script : list Interference;
  journal : list Entry;
}.

Definition items (l : ListName) (w : World) : list ListItem :=
  match l with
  | SalesLeads => salesLeads w
  | SalesCalls => salesCalls w
  end.

Definition set_items (l : ListName) (its : list ListItem) (w : World) : World :=
  match l with
  | SalesLeads => mkWorld its (salesCalls w) (tasks w) (counter w) (script w) (journal w)
  | SalesCalls => mkWorld (salesLeads w) its (tasks w) (counter w) (script w) (journal w)
  end.
Definition set_tasks (ts : list Task) (w : World) : World :=
  mkWorld (salesLeads w) (salesCalls w) ts (counter w) (script w) (journal w).
Definition set_counter (n : N) (w : World) : World :=
  mkWorld (salesLeads w) (salesCalls w) (tasks w) n (script w) (journal w).
Definition set_script (s : list Interference) (w : World) : World :=
  mkWorld (salesLeads w) (salesCalls w) (tasks w) (counter w) s (journal w).
Definition record (e : Entry) (w : World) : World :=
  mkWorld (salesLeads w) (salesCalls w) (tasks w) (counter w) (script w)
    (journal w ++ [e]).

(** Another client rewrites the description of a task. *)
Definition edit_task (taskId description : string) (t : Task) : Task :=
  if String.eqb (task_id t) taskId
  then mkTask (task_id t) (task_planId t) (task_title t) (task_dueDateTime t)
         description (task_etag t + 1)
  else t.

Definition interfere (i : Interference) (w : World) : World :=
  match i with
  | Edit taskId description => set_tasks (map (edit_task taskId description) (tasks w)) w
  | _ => w
  end.

(** ** Computations against the store: state and exceptions *)

Definition M (A : Type) : Type := World → World * (Thrown + A).

Global Instance M_ret : MRet M := λ A a w, (w, inr a).
Global Instance M_bind : MBind M := λ A B f m w,
  match m w with
  | (w', inl t) => (w', inl t)
  | (w', inr a) => f a w'
  end.

Definition throw {A} (t : Thrown) : M A := λ w, (w, inl t).
(** [try { m } catch (error) { h error }] *)
Definition try_catch {A} (m : M A) (h : Thrown → M A) : M A := λ w,
  match m w with
  | (w', inl t) => h t w'
  | (w', inr a) => (w', inr a)
  end.
(** A synchronous computation that may throw. *)
Definition lift {A} (r : Thrown + A) : M A := λ w, (w, r).
(** [await new Promise(resolve => setTimeout(resolve, ms))] *)
Definition sleep (ms : Z) : M unit := λ w, (record (Slept ms) w, inr tt).

Definition succeeded {A} (r : JsError + A) : bool :=
  match r with inl _ => false | inr _ => true end.

(** An awaited request: the next interference of the script happens, the
    store serves the request, and the journal records it. *)
Definition request {A} (r : Request) (serve : World → World * (JsError + A)) : M A :=
  λ w,
    let '(i, rest) := match script w with
                      | [] => (Calm, [])
                      | i :: rest => (i, rest)
                      end in
    let w := set_script rest w in
    match i with
    | Down e => (record (Sent r false) w, inl (ThrownError e))
    | _ =>
        let '(w, res) := serve (interfere i w) in
        (record (Sent r (succeeded res)) w,
         match res with inl e => inl (ThrownError e) | inr a => inr a end)
    end.

(** *** The store's side of each request *)

Definition has_call_id (callId : string) (it : ListItem) : bool :=
  match fields it !! "CallId" with
  | Some (JStr s) => String.eqb s callId
  | _ => false
  end.

(** [GET .../items?$filter=fields/CallId eq '<callId>'] *)
Definition find_items (l : ListName) (callId : string) : M (list ListItem) :=
  request (FindItems l callId)
    (λ w, (w, inr (List.filter (has_call_id callId) (items l w)))).

(** [POST .../items]: the new item gets the next id. *)
Definition post_item (l : ListName) (fs : gmap string JValue) : M string :=
  request (PostItem l fs)
    (λ w, let id := pretty (counter w) in
          (set_counter (counter w + 1)
             (set_items l (items l w ++ [mkItem id fs]) w),
           inr id)).

Definition patch_item (itemId : string) (updates : gmap string JValue)
    (it : ListItem) : ListItem :=
  if String.eqb (item_id it) itemId
  then mkItem (item_id it) (updates ∪ fields it)
  else it.

(** [PATCH .../items/<id>/fields]: the given fields are overwritten, the
    others kept. *)
Definition patch_fields (l : ListName) (itemId : string)
    (updates : gmap string JValue) : M unit :=
  request (PatchFields l itemId updates)
    (λ w, if existsb (λ it, String.eqb (item_id it) itemId) (items l w)
          then (set_items l (map (patch_item itemId updates) (items l w)) w, inr tt)
          else (w, inl (mkError "itemNotFound"))).

(** [POST /planner/tasks] *)
Definition post_task (planId title : string) (dueDateTime : option string) : M string :=
  request (PostTask planId title dueDateTime)
    (λ w, let id := "task-" +:+ pretty (counter w) in
          (set_counter (counter w + 1)
             (set_tasks (tasks w ++ [mkTask id planId title dueDateTime "" 0]) w),
           inr id)).

Definition find_task (taskId : string) (w : World) : option Task :=
  List.find (λ t, String.eqb (task_id t) taskId) (tasks w).

(** [GET /planner/tasks/<id>/details]: the description and the etag. *)
Definition get_details (taskId : string) : M (string * N) :=
  request (GetDetails taskId)
    (λ w, match find_task taskId w with
          | Some t => (w, inr (task_description t, task_etag t))
          | None => (w, inl (mkError "NotFound"))
          end).

Definition patch_task (taskId description : string) (t : Task) : Task :=
  edit_task taskId description t.

(** [PATCH /planner/tasks/<id>/details] with [If-Match: <etag>]: refused
    when the details have another etag by now. *)
Definition patch_details (taskId : string) (etag : N) (description : string) : M unit :=
  request (PatchDetails taskId etag description)
    (λ w, match find_task taskId w with
          | Some t =>
              if (task_etag t =? etag)%N
              then (set_tasks (map (patch_task taskId description) (tasks w)) w, inr tt)
              else (w, inl (mkError "PreconditionFailed"))
          | None => (w, inl (mkError "NotFound"))
          end).

(** [axios.post(config.teamsWebhookUrl, payload)] *)
Definition post_teams (url text : string) : M unit :=
  request (PostTeams url text) (λ w, (w, inr tt)).

(** ** The methods of [GraphService] *)

Section GraphService.

(** [config.plannerPlanId] and [config.teamsWebhookUrl] *)
Variable plannerPlanId : string.
Variable teamsWebhookUrl : option string.

(** The [PlannerTaskId] text column of a found item. *)
Definition found_planner_task_id (it : ListItem) : option string :=
  match fields it !! "PlannerTaskId" with
  | Some (JStr s) => Some s
  | _ => None
  end.

(** [Owner: item.owner], added when [item.owner && item.owner.length > 0]. *)
Definition with_owner (owner : option (list Z)) (fs : gmap string JValue)
  : gmap string JValue :=
  match owner with
  | Some (o :: os) => <["Owner" := JArr (map JNum (o :: os))]> fs
  | _ => fs
  end.

(** [listItem.fields] of [createSalesLeadItem] (lines 140-155) *)
Definition sales_lead_fields (item : SalesLeadItem.t) : gmap string JValue :=
  with_owner (SalesLeadItem.owner item)
    (<["Title" := JStr (SalesLeadItem.summary item)]>
     (<["Channel" := JStr (SalesLeadItem.channel item)]>
     (<["Priority" := JStr (SalesLeadItem.priority item)]>
     (<["Status" := JStr (SalesLeadItem.status item)]>
     (<["CallTimestamp" := JStr (SalesLeadItem.callTimestamp item)]>
     (<["CallId" := JStr (SalesLeadItem.callId item)]>
     (<["VoicemailTranscript" :=
          JStr (or_empty (SalesLeadItem.transcript item))]> ∅))))))).

(** [async createSalesLeadItem(item)] (lines 104-173); the result is
    [{ id, plannerTaskId }]. *)
Definition createSalesLeadItem (item : SalesLeadItem.t) : M (string * option string) :=
  try_catch
    (found ←
       (if nonempty (SalesLeadItem.callId item) then
          existingItems ← find_items SalesLeads (SalesLeadItem.callId item);
          match existingItems with
          | it :: _ =>
              let foundId := item_id it in
              let foundPlannerTaskId := found_planner_task_id it in
              (if present (SalesLeadItem.transcript item)
               then patch_fields SalesLeads foundId
                      {[ "VoicemailTranscript" :=
                           JStr (or_empty (SalesLeadItem.transcript item)) ]}
               else mret tt);;
              mret (Some (foundId, foundPlannerTaskId))
          | [] => mret None
          end
        else mret None);
     match found with
     | Some r => mret r
     | None =>
         id ← post_item SalesLeads (sales_lead_fields item);
         mret (id, None)
     end)
    (λ error, throw error).

(** The [updates] object of [createSalesCallItem] (lines 191-195). *)
Definition sales_call_updates (item : SalesCallItem.t) : gmap string JValue :=
  let updates : gmap string JValue := ∅ in
  let updates := if present (SalesCallItem.recordingLink item)
                 then <["RecordingUrl" := JStr (or_empty (SalesCallItem.recordingLink item))]> updates
                 else updates in
  let updates := if present (SalesCallItem.transcript item)
                 then <["TranscriptUrl" := JStr (or_empty (SalesCallItem.transcript item))]> updates
                 else updates in
  let updates := if present (SalesCallItem.aiSummary item)
                 then <["AiSummary" := JStr (or_empty (SalesCallItem.aiSummary item))]> updates
                 else updates in
  let updates := if nonempty (SalesCallItem.status item)
                 then <["Status" := JStr (SalesCallItem.status item)]> updates
                 else updates in
  updates.

(** [listItem.fields] of [createSalesCallItem] (lines 208-226) *)
Definition sales_call_fields (item : SalesCallItem.t) : gmap string JValue :=
  with_owner (SalesCallItem.owner item)
    (<["Title" := JStr (SalesCallItem.summary item)]>
     (<["Contact" := JStr (SalesCallItem.contact item)]>
     (<["Priority" := JStr (SalesCallItem.priority item)]>
     (<["Status" := JStr (SalesCallItem.status item)]>
     (<["CallTimestamp" := JStr (SalesCallItem.callTimestamp item)]>
     (<["CallId" := JStr (SalesCallItem.callId item)]>
     (<["Duration" := JNum (SalesCallItem.duration item)]>
     (<["RecordingUrl" := JStr (or_empty (SalesCallItem.recordingLink item))]>
     (<["TranscriptUrl" := JStr (or_empty (SalesCallItem.transcript item))]>
     (<["AiSummary" := JStr (or_empty (SalesCallItem.aiSummary item))]> ∅)))))))))).

(** [async createSalesCallItem(item)] (lines 175-238); the result is the
    item id. *)
Definition createSalesCallItem (item : SalesCallItem.t) : M string :=
  try_catch
    (found ←
       (if nonempty (SalesCallItem.callId item) then
          existingItems ← find_items SalesCalls (SalesCallItem.callId item);
          match existingItems with
          | it :: _ =>
              let foundId := item_id it in
              let updates := sales_call_updates item in
              (if (0 <? Z.of_nat (size updates))
               then patch_fields SalesCalls foundId updates
               else mret tt);;
              mret (Some foundId)
          | [] => mret None
          end
        else mret None);
     match found with
     | Some r => mret r
     | None => post_item SalesCalls (sales_call_fields item)
     end)
    (λ error, throw error).

(** The separator put between an existing description and the new details. *)
Definition separator : string :=
  String "010" (String "010" "-------------------" +:+ String "010" (String "010" "")).

(** [newDescription] (lines 275-280): the details, appended to the
    description the task has when an existing task is updated. *)
Definition new_description (existingTaskId : option string)
    (description details : string) : string :=
  if present existingTaskId && nonempty description
  then description +:+ separator +:+ details
  else details.

(** One pass of the [try] block in the retry loop (lines 270-289). *)
Definition patch_description (taskId details : string)
    (existingTaskId : option string) : M unit :=
  taskDetails ← get_details taskId;
  patch_details taskId taskDetails.2
    (new_description existingTaskId taskDetails.1 details).

(** [let retries = 3; while (retries > 0) { try ... catch ... }]
    (lines 267-297), entered with the given number of [retries]. *)
Fixpoint update_details (retries : nat) (taskId details : string)
    (existingTaskId : option string) : M unit :=
  match retries with
  | O => mret tt
  | S retries' =>
      try_catch (patch_description taskId details existingTaskId)
        (λ err,
           match retries' with
           | O => throw err
           | S _ =>
               sleep 1500;;
               update_details retries' taskId details existingTaskId
           end)
  end.

(** [async createPlannerTask(title, details, dueDate?, existingTaskId?)]
    (lines 240-305); [dueDate] is given as its [toISOString()]. *)
Definition createPlannerTask (title details : string) (dueDate : option string)
    (existingTaskId : option string) : M string :=
  try_catch
    (taskId ←
       (if negb (present existingTaskId)
        then post_task plannerPlanId title dueDate
        else mret (or_empty existingTaskId));
     (if nonempty details && nonempty taskId
      then update_details 3 taskId details existingTaskId
      else mret tt);;
     mret taskId)
    (λ error, throw error).

(** [async updateSalesLeadPlannerTaskId(itemId, plannerTaskId)]
    (lines 307-319) *)
Definition updateSalesLeadPlannerTaskId (itemId plannerTaskId : string) : M unit :=
  try_catch
    (patch_fields SalesLeads itemId {[ "PlannerTaskId" := JStr plannerTaskId ]})
    (λ error, mret tt).

End GraphService.

(** ** Observations on a run, for the statements below *)

(** The patch [createSalesLeadItem] sends for a found item (lines 126-134):
    the transcript, when the incoming record has one. *)
Definition sales_lead_updates (x : SalesLeadItem.t) : gmap string JValue :=
  if present (SalesLeadItem.transcript x)
  then {[ "VoicemailTranscript" := JStr (or_empty (SalesLeadItem.transcript x)) ]}
  else ∅.


(** The journal of attempts with a pause of 1500 ms between any two. *)
Fixpoint paused (rounds : list (list Entry)) : list Entry :=
  match rounds with
  | [] => []
  | [r] => r
  | r :: rs => r ++ Slept 1500 :: paused rs
  end.

(** A task after its description was rewritten. *)
Definition rewritten (description : string) (t : Task) : Task :=
  mkTask (task_id t) (task_planId t) (task_title t) (task_dueDateTime t)
    description (task_etag t + 1).

End Graph.

(** * services/queueProcessor.ts *)

Module QueueProcessor.
Import Js Graph.

(** [ProcessJob] *)
Record ProcessJob := mkProcessJob {
  job_id : option Z;
  data : QueueJob;
}.

Definition nl : string := String "010" "".
Definition dq : string := String "034" "".

(** A payload value used where the code expects a string: a falsy value
    counts as the empty string, any other as its text. *)
Definition text (v : JValue) : string :=
  if truthy v then toString v else "".

Section Processor.

Variable plannerPlanId : string.
Variable teamsWebhookUrl : option string.
(** The three [replace] calls of [postToTeamsChannel] that strip the HTML. *)
Variable html_to_text : string → string.
(** [new Date(v).toISOString()], which throws a [RangeError] on an invalid
    date, and [new Date(v).toLocaleString()]. *)
Variable toISOString : JValue → Thrown + string.
Variable toLocaleString : JValue → string.
(** [new Date().toISOString()] and
    [new Date(Date.now() + 86400000).toISOString()]. *)
Variable now : string.
Variable tomorrow : string.

(** [async postToTeamsChannel(message)] (graphService.ts, lines 321-376) *)
Definition postToTeamsChannel (message : string) : M unit :=
  if negb (present teamsWebhookUrl) then mret tt
  else
    try_catch
      (post_teams (or_empty teamsWebhookUrl) (html_to_text message))
      (λ error, mret tt).

(** [event.payload.object] *)
Definition payload_object (event : JValue) : Thrown + JValue :=
  match prop event "payload" with
  | inl t => inl t
  | inr payload => prop payload "object"
  end.

(** What [processMissedCall] reads from the payload (lines 415-425). *)
Record MissedCall := mkMissedCall {
  mc_call_id : JValue;
  mc_callerName : JValue;
  mc_callerPhone : JValue;
  mc_callTime : JValue;
  mc_duration : JValue;
}.

Definition read_missed_call (event : JValue) : M MissedCall :=
  callObj ← lift (payload_object event);
  call_id ← lift (prop callObj "call_id");
  caller ← lift (prop callObj "caller");
  name ← lift (prop caller "name");
  phone_number ← lift (prop caller "phone_number");
  date_time ← lift (prop callObj "date_time");
  ringing_start_time ← lift (prop callObj "ringing_start_time");
  duration ← lift (prop callObj "duration");
  mret (mkMissedCall call_id
          (or (or name phone_number) (JStr "Unknown"))
          (or phone_number (JStr "Unknown"))
          (or (or date_time ringing_start_time) (JStr now))
          (or duration (JNum 0))).

(** [leadItem] of [processMissedCall] (lines 428-435) *)
Definition missed_call_lead (c : MissedCall) (callTimestamp : string) : SalesLeadItem.t :=
  SalesLeadItem.mk "Zoom Phone"
    ("Missed call from " +:+ toString (mc_callerName c))
    "High" None "New" callTimestamp None None
    (text (mc_call_id c)) None.

Definition missed_call_task_title (c : MissedCall) : string :=
  "Follow up: Missed call from " +:+ toString (mc_callerName c).

Definition missed_call_task_details (c : MissedCall) : string :=
  nl +:+ "Call ID: " +:+ toString (mc_call_id c) +:+ nl
  +:+ "Caller: " +:+ toString (mc_callerName c) +:+ nl
  +:+ "Phone: " +:+ toString (mc_callerPhone c) +:+ nl
  +:+ "Time: " +:+ toLocaleString (mc_callTime c) +:+ nl
  +:+ "Duration: " +:+ toString (mc_duration c) +:+ "s" +:+ nl
  +:+ nl
  +:+ "Please follow up with this missed call." +:+ nl
  +:+ "      ".

Definition missed_call_teams_message (c : MissedCall) : string :=
  nl +:+ "<h2>🔔 New Sales Lead - Missed Call</h2>" +:+ nl
  +:+ "<p><strong>Caller:</strong> " +:+ toString (mc_callerName c) +:+ "</p>" +:+ nl
  +:+ "<p><strong>Phone:</strong> " +:+ toString (mc_callerPhone c) +:+ "</p>" +:+ nl
  +:+ "<p><strong>Time:</strong> " +:+ toLocaleString (mc_callTime c) +:+ "</p>" +:+ nl
  +:+ "<p><strong>Status:</strong> Needs Follow-up</p>" +:+ nl
  +:+ "<p>A task has been created in Planner for follow-up.</p>" +:+ nl
  +:+ "      ".

(** The handler from the Planner task on (lines 452-481): create or update
    the task, link a new task back to the lead, post to Teams. *)
Definition follow_up (listItemId : string) (existingPlannerTaskId : option string)
    (taskTitle taskDetails : string) (notify : bool) (teamsMessage : string) : M unit :=
  taskId ← createPlannerTask plannerPlanId taskTitle taskDetails (Some tomorrow)
              existingPlannerTaskId;
  (if negb (present existingPlannerTaskId) && nonempty taskId
   then updateSalesLeadPlannerTaskId listItemId taskId
   else mret tt);;
  (if notify
   then try_catch (postToTeamsChannel teamsMessage) (λ err, mret tt)
   else mret tt).

(** [async processMissedCall(job)] (lines 411-486) *)
Definition processMissedCall (job : ProcessJob) : M unit :=
  try_catch
    (c ← read_missed_call (event (data job));
     callTimestamp ← lift (toISOString (mc_callTime c));
     r ← createSalesLeadItem (missed_call_lead c callTimestamp);
     follow_up r.1 r.2 (missed_call_task_title c) (missed_call_task_details c)
       true (missed_call_teams_message c))
    (λ error, throw error).

(** What [processVoicemail] reads from the payload (lines 492-504). *)
Record Voicemail := mkVoicemail {
  vm_id : JValue;
  vm_call_id : JValue;
  vm_callerName : JValue;
  vm_callerPhone : JValue;
  vm_callTime : JValue;
  vm_duration : JValue;
  vm_downloadUrl : JValue;
  vm_transcript : JValue;
}.

Definition read_voicemail (event : JValue) : M Voicemail :=
  voicemailObj ← lift (payload_object event);
  id ← lift (prop voicemailObj "id");
  caller_name ← lift (prop voicemailObj "caller_name");
  caller_number ← lift (prop voicemailObj "caller_number");
  date_time ← lift (prop voicemailObj "date_time");
  duration ← lift (prop voicemailObj "duration");
  download_url ← lift (prop voicemailObj "download_url");
  transcription ← lift (prop voicemailObj "transcription");
  transcript ← lift (prop voicemailObj "transcript");
  call_id ← lift (prop voicemailObj "call_id");
  mret (mkVoicemail id (or call_id id)
          (or (or caller_name caller_number) (JStr "Unknown"))
          (or caller_number (JStr "Unknown"))
          (or date_time (JStr now))
          (or duration (JNum 0))
          (or download_url (JStr ""))
          (or (or (prop_opt transcription "content") transcript) (JStr ""))).

(** [leadItem] of [processVoicemail] (lines 507-516) *)
Definition voicemail_lead (v : Voicemail) (callTimestamp : string) : SalesLeadItem.t :=
  SalesLeadItem.mk "Zoom Phone"
    ("Voicemail from " +:+ toString (vm_callerName v))
    "High" None "New" callTimestamp
    (Some (text (vm_downloadUrl v))) (Some (text (vm_transcript v)))
    (text (vm_call_id v)) None.

Definition voicemail_task_title (v : Voicemail) : string :=
  "Follow up: Voicemail from " +:+ toString (vm_callerName v).

Definition voicemail_task_details (v : Voicemail) : string :=
  (nl +:+ "Voicemail ID: " +:+ toString (vm_id v) +:+ nl
   +:+ "Caller: " +:+ toString (vm_callerName v) +:+ nl
   +:+ "Phone: " +:+ toString (vm_callerPhone v) +:+ nl
   +:+ "Time: " +:+ toLocaleString (vm_callTime v) +:+ nl
   +:+ "Duration: " +:+ toString (vm_duration v) +:+ "s" +:+ nl
   +:+ nl
   +:+ "Voicemail Recording: " +:+ toString (vm_downloadUrl v) +:+ nl)
  +:+ (if truthy (vm_transcript v)
       then nl +:+ "Transcript:" +:+ nl +:+ toString (vm_transcript v) +:+ nl
       else "")
  +:+ nl +:+ "Please listen to the voicemail and follow up.".

Definition voicemail_teams_message (v : Voicemail) : string :=
  nl +:+ "<h2>📞 New Sales Lead - Voicemail</h2>" +:+ nl
  +:+ "<p><strong>Caller:</strong> " +:+ toString (vm_callerName v) +:+ "</p>" +:+ nl
  +:+ "<p><strong>Phone:</strong> " +:+ toString (vm_callerPhone v) +:+ "</p>" +:+ nl
  +:+ "<p><strong>Time:</strong> " +:+ toLocaleString (vm_callTime v) +:+ "</p>" +:+ nl
  +:+ "<p><strong>Duration:</strong> " +:+ toString (vm_duration v) +:+ "s</p>" +:+ nl
  +:+ "<p><a href=" +:+ dq +:+ toString (vm_downloadUrl v) +:+ dq +:+ ">Listen to Voicemail</a></p>" +:+ nl
  +:+ "<p><strong>Transcript:</strong></p>" +:+ nl
  +:+ "<blockquote>"
  +:+ toString (or (vm_transcript v) (JStr "No transcript available."))
  +:+ "</blockquote>" +:+ nl
  +:+ "<p>A task has been created in Planner for follow-up.</p>" +:+ nl
  +:+ "      ".

(** [async processVoicemail(job)] (lines 488-581); Teams is notified only
    when there is a transcript. *)
Definition processVoicemail (job : ProcessJob) : M unit :=
  try_catch
    (v ← read_voicemail (event (data job));
     callTimestamp ← lift (toISOString (vm_callTime v));
     r ← createSalesLeadItem (voicemail_lead v callTimestamp);
     follow_up r.1 r.2 (voicemail_task_title v) (voicemail_task_details v)
       (truthy (vm_transcript v) && length_positive (vm_transcript v))
       (voicemail_teams_message v))
    (λ error, throw error).

End Processor.

End QueueProcessor.

(** * services/zoomService.ts *)

Module Zoom.
Import Js.

(** ** The Zoom API and the clock, as the service meets them

    The token endpoint and the REST API are external.  They are modelled by
    the replies they will give, in order, each with the time it takes; the
    token endpoint grants what OAuth says it grants, a token and a number
    of seconds.  When no reply is left the connection fails. *)

Record Grant := mkGrant {
  access_token : string;
  expires_in : Z;
}.

Inductive Call :=
  | PostToken
  | Get (path : string) (bearer : string).

Inductive Entry :=
  | Called (c : Call) (ok : bool)
  | Paused (ms : Z).

(** The two private fields of the service, the clock that [Date.now()]
    reads, the replies to come and the calls made. *)
Record State := mkState {
  accessToken : option string;
  tokenExpiry : Z;
  clock : Z;
  grants : list (Z * (JsError + Grant));
  answers : list (Z * (JsError + JValue));
  log : list Entry;
}.

Definition set_token (token : option string) (expiry : Z) (s : State) : State :=
  mkState token expiry (clock s) (grants s) (answers s) (log s).
Definition set_grants (g : list (Z * (JsError + Grant))) (s : State) : State :=
  mkState (accessToken s) (tokenExpiry s) (clock s) g (answers s) (log s).
Definition set_answers (a : list (Z * (JsError + JValue))) (s : State) : State :=
  mkState (accessToken s) (tokenExpiry s) (clock s) (grants s) a (log s).
Definition advance (ms : Z) (s : State) : State :=
  mkState (accessToken s) (tokenExpiry s) (clock s + ms) (grants s) (answers s)
    (log s).
Definition record (e : Entry) (s : State) : State :=
  mkState (accessToken s) (tokenExpiry s) (clock s) (grants s) (answers s)
    (log s ++ [e]).

Definition connection_lost : JsError := mkError "ECONNRESET".

(** ** Computations of the service: state and exceptions *)

Definition M (A : Type) : Type := State → State * (Thrown + A).

Global Instance M_ret : MRet M := λ A a s, (s, inr a).
Global Instance M_bind : MBind M := λ A B f m s,
  match m s with
  | (s', inl t) => (s', inl t)
  | (s', inr a) => f a s'
  end.

Definition throw {A} (t : Thrown) : M A := λ s, (s, inl t).
Definition try_catch {A} (m : M A) (h : Thrown → M A) : M A := λ s,
  match m s with
  | (s', inl t) => h t s'
  | (s', inr a) => (s', inr a)
  end.
Definition lift {A} (r : Thrown + A) : M A := λ s, (s, r).
(** [await new Promise(r => setTimeout(r, ms))] *)
Definition sleep (ms : Z) : M unit := λ s,
  (record (Paused ms) (advance ms s), inr tt).

(** [await axios.post(tokenUrl, null, ...)], giving [response.data]. *)
Definition post_token : M Grant := λ s,
  match grants s with
  | [] => (record (Called PostToken false) s, inl (ThrownError connection_lost))
  | (ms, reply) :: rest =>
      let s := advance ms (set_grants rest s) in
      match reply with
      | inl e => (record (Called PostToken false) s, inl (ThrownError e))
      | inr g => (record (Called PostToken true) s, inr g)
      end
  end.

(** [await this.client.get(path, { headers: { Authorization: `Bearer
    ${token}` } })], giving [response.data]. *)
Definition get (path token : string) : M JValue := λ s,
  match answers s with
  | [] => (record (Called (Get path token) false) s,
           inl (ThrownError connection_lost))
  | (ms, reply) :: rest =>
      let s := advance ms (set_answers rest s) in
      match reply with
      | inl e => (record (Called (Get path token) false) s, inl (ThrownError e))
      | inr data => (record (Called (Get path token) true) s, inr data)
      end
  end.

(** ** The methods of [ZoomService] *)

(** [this.accessToken && Date.now() < this.tokenExpiry - 300000] *)
Definition token_valid (s : State) : bool :=
  match accessToken s with
  | Some token => negb (String.eqb token "") && (clock s <? tokenExpiry s - 300000)
  | None => false
  end.

(** [this.accessToken = response.data.access_token; this.tokenExpiry =
    Date.now() + response.data.expires_in * 1000] *)
Definition store_token (data : Grant) : M unit := λ s,
  (set_token (Some (access_token data)) (clock s + expires_in data * 1000) s,
   inr tt).

(** [private async getAccessToken()] (lines 15-39) *)
Definition getAccessToken : M string := λ s,
  if token_valid s then (s, inr (default "" (accessToken s)))
  else
    (data ← post_token;
     store_token data;;
     mret (access_token data)) s.

(** [async getCallDetails(callId)] (lines 41-56) *)
Definition getCallDetails (callId : string) : M JValue :=
  token ← getAccessToken;
  try_catch (get ("/phone/call_history/" +:+ callId) token)
    (λ error, throw error).

(** [async getVoicemail(voicemailId)] (lines 58-73) *)
Definition getVoicemail (voicemailId : string) : M JValue :=
  token ← getAccessToken;
  try_catch (get ("/phone/voice_mails/" +:+ voicemailId) token)
    (λ error, throw error).

(** [{ url, transcript? }] *)
Record Recording := mkRecording {
  url : JValue;
  transcript : JValue;
}.

(** [async getRecording(callId)] (lines 75-93) *)
Definition getRecording (callId : string) : M Recording :=
  token ← getAccessToken;
  try_catch
    (data ← get ("/phone/recording/" +:+ callId) token;
     download_url ← lift (prop data "download_url");
     transcript ← lift (prop data "transcript");
     mret (mkRecording download_url transcript))
    (λ error, mret (mkRecording (JStr "") JUndefined)).

(** The object of the mock transcript (lines 99-113). *)
Definition mock_transcript : JValue :=
  JObj [("type", JStr "zoom_transcript");
        ("ver", JNum 1);
        ("recording_id", JStr "mock-rec-id");
        ("timeline", JArr [
           JObj [("text", JStr "Hello, this is a test call.");
                 ("users", JArr [JObj [("username", JStr "Test User");
                                       ("zoom_userid", JStr "user1")]])];
           JObj [("text", JStr "I am verifying the transcript format.");
                 ("users", JArr [JObj [("username", JStr "Ross");
                                       ("zoom_userid", JStr "user2")]])]])].

Definition mock_summary : string :=
  "MOCK AI SUMMARY: The call discussed the new proposal details. The customer seemed interested but had questions about pricing.".

(** [const fetchDetails = async (id) => { try ... catch { return null } }]
    (lines 139-147); the result is [details.data], or [None] for [null]. *)
Definition fetchDetails (token id : string) : M (option JValue) :=
  try_catch
    (data ← get ("/phone/call_history/" +:+ id) token; mret (Some data))
    (λ err, mret None).

(** [!details || (!details.data.summary && !details.data.ai_call_summary)] *)
Definition lacks_summary (details : option JValue) : Thrown + bool :=
  match details with
  | None => inr true
  | Some data =>
      match prop data "summary" with
      | inl t => inl t
      | inr summary =>
          if truthy summary then inr false
          else match prop data "ai_call_summary" with
               | inl t => inl t
               | inr ai_call_summary => inr (negb (truthy ai_call_summary))
               end
      end
  end.

(** [details.data.summary || details.data.ai_call_summary?.summary ||
    details.data.ai_call_summary || ''] (line 160) *)
Definition summary_of (data : JValue) : Thrown + JValue :=
  match prop data "summary" with
  | inl t => inl t
  | inr summary =>
      if truthy summary then inr summary
      else match prop data "ai_call_summary" with
           | inl t => inl t
           | inr ai_call_summary =>
               inr (or (or (prop_opt ai_call_summary "summary") ai_call_summary)
                       (JStr ""))
           end
  end.

(** [async getCallSummary(callId)] (lines 129-164) *)
Definition getCallSummary (callId : string) : M JValue :=
  if startsWith callId "TEST-" || includes callId "TEST"
  then mret (JStr mock_summary)
  else
    token ← getAccessToken;
    details ← fetchDetails token callId;
    retry ← lift (lacks_summary details);
    details ← (if (retry : bool)
               then sleep 2000;; fetchDetails token callId
               else mret details);
    match details with
    | Some data => if truthy data then lift (summary_of data) else mret (JStr "")
    | None => mret (JStr "")
    end.

Section Text.

(** [JSON.stringify], [JSON.parse], [String.prototype.trim] and
    [Number.prototype.toString]. *)
Variable JSON_stringify : JValue → string.
Variable JSON_parse : string → Thrown + JValue.
Variable trim : string → string.
Variable Number_toString : Z → string.

(** [async downloadFile(url)] (lines 94-127) *)
Definition downloadFile (url : string) : M JValue :=
  if includes url "example.com" || includes url "mock-transcript"
  then mret (JStr (JSON_stringify mock_transcript))
  else
    token ← getAccessToken;
    try_catch (get url token) (λ error, mret (JStr "")).

(** [v?.[0]] *)
Definition first_opt (v : JValue) : JValue :=
  match first v with
  | inl _ => JUndefined
  | inr x => x
  end.

(** The callback of [parsed.timeline.map] (lines 176-179); the template
    literal converts the speaker, then the text, and either conversion may
    throw. *)
Definition transcript_line (item : JValue) : Thrown + string :=
  match prop item "users" with
  | inl t => inl t
  | inr users =>
      let speaker :=
        or (or (prop_opt (first_opt users) "username")
               (prop_opt (first_opt users) "zoom_userid"))
           (JStr "Unknown Speaker") in
      match render Number_toString speaker with
      | inl t => inl t
      | inr name =>
          match prop item "text" with
          | inl t => inl t
          | inr words =>
              match render Number_toString words with
              | inl t => inl t
              | inr said => inr (name +:+ ": " +:+ said)
              end
          end
      end
  end.

(** [items.map(f)], which stops at the first item on which [f] throws. *)
Fixpoint map_lines (items : list JValue) : Thrown + list string :=
  match items with
  | [] => inr []
  | item :: rest =>
      match transcript_line item with
      | inl t => inl t
      | inr line =>
          match map_lines rest with
          | inl t => inl t
          | inr lines => inr (line :: lines)
          end
      end
  end.

(** The [try] block of [parseTranscript]. *)
Definition parse_timeline (content : string) : Thrown + string :=
  if negb (startsWith (trim content) "{") && negb (startsWith (trim content) "[")
  then inr content
  else
    match JSON_parse content with
    | inl t => inl t
    | inr parsed =>
        match prop parsed "timeline" with
        | inl t => inl t
        | inr (JArr items) =>
            match map_lines items with
            | inl t => inl t
            | inr lines => inr (String.concat (String "010" "") lines)
            end
        | inr _ => inr content
        end
    end.

(** [parseTranscript(content)] (lines 165-187) *)
Definition parseTranscript (content : string) : string :=
  match parse_timeline content with
  | inr s => s
  | inl error => content
  end.

End Text.

End Zoom.

(** * config.ts *)

Module Config.

(** [process.env] *)
Abbreviation Env := (gmap string string) (only parsing).

(** The exported [config] object; [port] is left out. *)
Record t := mk {
  nodeEnv : string;
  applicationId : option string;
  tenantId : option string;
  clientSecret : option string;
  sharePointSiteId : option string;
  salesLeadsListId : option string;
  salesCallsListId : option string;
  teamsTeamId : option string;
  teamsChannelId : string;
  teamsWebhookUrl : option string;
  plannerPlanId : option string;
  zoomAccountId : option string;
  zoomClientId : option string;
  zoomClientSecret : option string;
  zoomWebhookSecretToken : option string;
  redisUrl : option string;
}.

(** [process.env.NAME || dflt] *)
Definition env_or (env : Env) (name dflt : string) : string :=
  match env !! name with
  | Some v => if String.eqb v "" then dflt else v
  | None => dflt
  end.

Definition config (env : Env) : t :=
  mk (env_or env "NODE_ENV" "development")
     (env !! "APPLICATION_ID")
     (env !! "TENANT_ID")
     (env !! "CLIENT_SECRET_VALUE")
     (env !! "SHAREPOINT_SITE_ID")
     (env !! "SALES_LEADS_LIST_ID")
     (env !! "SALES_CALLS_LIST_ID")
     (env !! "TEAMS_TEAM_ID")
     "19:-Sy4ICzpNIb9votYqJtgHXVsMLCBnB0DeE-4KlgBrys1@thread.tacv2"
     (env !! "TEAMS_WEBHOOK_URL")
     (env !! "PLANNER_PLAN_ID")
     (env !! "ZOOM_ACCOUNT_ID")
     (env !! "ZOOM_CLIENT_ID")
     (env !! "ZOOM_CLIENT_SECRET")
     (env !! "ZOOM_WEBHOOK_SECRET_TOKEN")
     (env !! "REDIS_URL").

Definition requiredEnvVars : list string :=
  [ "APPLICATION_ID"; "TENANT_ID"; "CLIENT_SECRET_VALUE"; "SHAREPOINT_SITE_ID";
    "SALES_LEADS_LIST_ID"; "TEAMS_TEAM_ID"; "TEAMS_CHANNEL_ID";
    "ZOOM_ACCOUNT_ID"; "ZOOM_CLIENT_ID"; "ZOOM_CLIENT_SECRET";
    "ZOOM_WEBHOOK_SECRET_TOKEN" ].

(** [!process.env[envVar]] *)
Definition unset (env : Env) (envVar : string) : bool :=
  match env !! envVar with
  | Some v => String.eqb v ""
  | None => true
  end.

(** [for (const envVar of requiredEnvVars) { if (...) throw ... }] *)
Fixpoint validate (env : Env) (vars : list string) : Thrown + unit :=
  match vars with
  | [] => inr tt
  | envVar :: rest =>
      if unset env envVar
      then inl (ThrownError
                  (mkError ("Missing required environment variable: " +:+ envVar)))
      else validate env rest
  end.

(** Loading the module: the [config] object, unless the validation
    throws. *)
Definition load (env : Env) : Thrown + t :=
  match validate env requiredEnvVars with
  | inl t => inl t
  | inr _ => inr (config env)
  end.

End Config.

(** * Concrete queues, events and stores for the examples *)

Module Fixtures.
Import InMemoryQueue Js Routes Graph QueueProcessor.

(** ** Queues *)

Definition say (name : string) : Listener string := mkListener name (λ _, None).

Definition bad (name : string) (t : Thrown) : Listener string :=
  mkListener name (λ _, Some t).

(** A queue with a handler and one listener per event, as [Server] sets the
    three queues up. *)
Definition q_logged : Queue string string :=
  on (on (on (process empty "handler").1.1
    OnCompleted (say "c")) OnFailed (say "f")) OnError (say "e").

Definition boom : Thrown := ThrownError (mkError "boom").

Definition job1 : Job string := mkJob 1 "call".

Definition q_bad_failed : Queue string string :=
  on (on (on (process empty "handler").1.1
    OnFailed (say "f1")) OnFailed (bad "f2" boom)) OnError (say "e").

Definition q_new : Queue string string := empty.

(** ** Webhook requests *)

Definition stringify_stub (v : JValue) : string := "".

Definition accept_all (rawBody timestamp signature secret : string) : bool := true.

Definition signed (b : JValue) : Routes.Request :=
  Routes.mkRequest (Some "1700000000") (Some "v0=abc") b.

(** An answered call reported by 'phone.callee_call_log_completed'. *)
Definition call_log_event : JValue :=
  JObj [("event", JStr "phone.callee_call_log_completed");
        ("event_ts", JNum 1700000000);
        ("payload", JObj [("account_id", JStr "acc");
          ("object", JObj [("call_logs", JArr [
            JObj [("call_id", JStr "c1"); ("result", JStr "Answered");
                  ("duration", JNum 42); ("has_recording", JBool false)]])])])].

(** A call-ended event without any result field. *)
Definition ended_event : JValue :=
  JObj [("event", JStr "phone.caller_ended");
        ("payload", JObj [("object", JObj [("call_id", JStr "c2")])])].

(** ** Stores and jobs *)

Definition plan : string := "plan-1".

Definition tomorrow : string := "2024-05-02T09:00:00.000Z".

Definition now : string := "2024-05-01T09:00:00.000Z".

(** Stand-ins for the date renderings and the HTML stripping. *)
Definition iso (v : JValue) : Thrown + string := inr (toString v).

Definition locale (v : JValue) : string := toString v.

Definition strip (s : string) : string := s.

Definition processMissedCall0 : ProcessJob → M unit :=
  processMissedCall plan None strip iso locale now tomorrow.

(** An empty store that answers every request. *)
Definition w_empty : World := mkWorld [] [] [] 1 [] [].

Definition call_logged : SalesCallItem.t :=
  SalesCallItem.mk "Alice (555-0100)" "Alice" "Medium" None "Completed"
    "2024-05-01T09:00:00.000Z" None None None "call-1" 42.

Definition call_recorded : SalesCallItem.t :=
  SalesCallItem.mk "Alice (555-0100)" "Alice" "Medium" None "Recorded"
    "2024-05-01T09:05:00.000Z" (Some "https://zoom.example/rec/1") None None
    "call-1" 0.

Definition lead_missed : SalesLeadItem.t :=
  SalesLeadItem.mk "Zoom Phone" "Missed call from Bob" "High" None "New"
    "2024-05-01T09:00:00.000Z" None None "call-2" None.

Definition lead_voicemail : SalesLeadItem.t :=
  SalesLeadItem.mk "Zoom Phone" "Voicemail from Bob" "High" None "New"
    "2024-05-01T09:01:00.000Z" (Some "https://zoom.example/vm/2")
    (Some "please call back") "call-2" None.

(** A store with one follow-up task, which another client rewrites during
    the first two attempts to patch it. *)
Definition task1 : Task :=
  mkTask "task-7" plan "Follow up: Missed call from Bob" None "Call ID: call-2" 4.

Definition w_contended : World :=
  mkWorld [] [] [task1] 8
    [Calm; Edit "task-7" "first edit"; Calm; Edit "task-7" "second edit"; Calm; Calm]
    [].

Definition w_hopeless : World :=
  mkWorld [] [] [task1] 8
    [Calm; Edit "task-7" "first edit"; Calm; Edit "task-7" "second edit";
     Calm; Edit "task-7" "third edit"]
    [].

(** A missed-call event. *)
Definition missed_event : JValue :=
  JObj [("event", JStr "phone.callee_missed");
        ("payload", JObj [("object", JObj [
           ("call_id", JStr "call-2");
           ("caller", JObj [("name", JStr "Bob"); ("phone_number", JStr "555-0101")]);
           ("date_time", JStr "2024-05-01T09:00:00Z")])])].

Definition missed_job : ProcessJob :=
  mkProcessJob (Some 1) (mkQueueJob missed_call missed_event).

(** The store refuses the sixth request of the handler: the link-back. *)
Definition w_unlinkable : World :=
  mkWorld [] [] [] 1
    [Calm; Calm; Calm; Calm; Calm; Down (mkError "ServiceUnavailable")] [].

(** A lead that has its task, which is rewritten during every attempt to
    patch it: the conflict of the third attempt fails the job handler. *)
Definition w_linked_hopeless : World :=
  mkWorld
    [mkItem "1" (<["CallId" := JStr "call-2"]>
                 (<["PlannerTaskId" := JStr "task-7"]> ∅))]
    [] [task1] 8
    [Calm; Calm; Edit "task-7" "first edit"; Calm; Edit "task-7" "second edit";
     Calm; Edit "task-7" "third edit"]
    [].

End Fixtures.

(** * Observations on queues, responses and runs *)

Module QueueViews.
Import InMemoryQueue.

Section Views.
Context {T H : Type}.
Implicit Types (q : Queue T H).

(** [execute] and its resumptions write the counters only. *)
Definition only_counts q q' : Prop := ∃ c, q' = with_counts q c.

(** The ids of the buffered jobs are distinct and below the next id. *)
Definition ids_ok q : Prop :=
  NoDup (map (λ p, id p.1) (pending q))
  ∧ Forall (λ p, id p.1 < nextId q) (pending q).

(** ** The queue with its executions under way

    [add] and [process] leave executions behind ([void this.execute(...)])
    that the event loop resumes one at a time, in any order, when a handler
    promise settles or a timer fires.  A system is the queue together with
    the executions started so far. *)
Record Sys := mkSys {
  sys_queue : Queue T H;
  sys_running : list (Job T * JobOptions * Exec);
}.

(** What happens next: a call of [add], [process] or [on], or the
    resumption of the [k]-th execution. *)
Inductive Op :=
  | OpAdd (d : T) (o : JobOptions)
  | OpProcess (h : H)
  | OpOn (ev : QueueEvent) (l : Listener T)
  | OpSettle (k : nat) (i : Input).

Definition sys_step (s : Sys) (op : Op) : Sys :=
  match op with
  | OpAdd d o =>
      let '(q, _, st) := add (sys_queue s) d o in
      mkSys q (sys_running s ++ match st with Some x => [x] | None => [] end)
  | OpProcess h =>
      let '(q, _, sts) := process (sys_queue s) h in
      mkSys q (sys_running s ++ sts)
  | OpOn ev l => mkSys (on (sys_queue s) ev l) (sys_running s)
  | OpSettle k i =>
      match sys_running s !! k with
      | Some (job, o, st) =>
          let '(q, _, st') := resume (sys_queue s) job o st i in
          mkSys q (<[k := (job, o, st')]> (sys_running s))
      | None => s
      end
  end.

(** A new queue after the given operations. *)
Definition sys_run (ops : list Op) : Sys :=
  fold_left sys_step ops (mkSys empty []).

(** An execution that is suspended, and one that sleeps. *)
Definition live (st : Exec) : bool :=
  match st with
  | AwaitHandler _ | AwaitSleep _ _ => true
  | _ => false
  end.
Definition asleep (st : Exec) : bool :=
  match st with
  | AwaitSleep _ _ => true
  | _ => false
  end.
Definition over (st : Exec) : bool := negb (live st).

(** How many of the executions are in a state among [p]. *)
Definition number (p : Exec → bool)
    (l : list (Job T * JobOptions * Exec)) : Z :=
  Z.of_nat (length (List.filter (λ x, p x.2) l)).

(** The operation registers no listener that throws. *)
Definition tame (op : Op) : Prop :=
  match op with
  | OpOn _ l => ∀ a, lrun l a = None
  | _ => True
  end.

(** The counters tell the truth: [waiting] counts the buffered jobs,
    [active] the executions under way, [delayed] those of them that sleep,
    [completed] and [failed] together those that are over, and every job
    that was given an id is one of these. *)
Definition exact (s : Sys) : Prop :=
  let q := sys_queue s in
  waiting (counts q) = Z.of_nat (length (pending q))
  ∧ active (counts q) = number live (sys_running s)
  ∧ delayed (counts q) = number asleep (sys_running s)
  ∧ completed (counts q) + failed (counts q) = number over (sys_running s)
  ∧ paused (counts q) = 0
  ∧ nextId q
    = 1 + Z.of_nat (length (pending q)) + Z.of_nat (length (sys_running s)).

(** [exact], with listeners that do not throw and a handler for the
    executions that are under way. *)
Definition sound (s : Sys) : Prop :=
  exact s
  ∧ quiet (on_completed (listeners (sys_queue s)))
  ∧ quiet (on_failed (listeners (sys_queue s)))
  ∧ quiet (on_error (listeners (sys_queue s)))
  ∧ (sys_running s ≠ [] → ∃ h, handler (sys_queue s) = Some h).

End Views.

Arguments Sys : clear implicits.
Arguments Op : clear implicits.

End QueueViews.

Module RoutesViews.
Import Js Routes.

(** The job an [add...] call hands over, and the job type of the queue it
    is handed to. *)
Definition job_of (e : Enqueue) : QueueJob :=
  match e with addMissedCall j | addVoicemail j | addSalesCall j => j end.

Definition queue_type (e : Enqueue) : JobType :=
  match e with
  | addMissedCall _ => missed_call
  | addVoicemail _ => voicemail
  | addSalesCall _ => sales_call
  end.

(** The event tags whose blocks call the [add...] method of a queue. *)
Definition tags_of (t : JobType) : list string :=
  match t with
  | missed_call =>
      ["phone.callee_ended"; "phone.caller_ended"; "phone.callee_missed";
       "phone.callee_missed_call"]
  | voicemail =>
      ["phone.voicemail_received"; "phone.voicemail_transcript_completed"]
  | sales_call =>
      ["phone.recording_completed"; "phone.recording_transcript_completed";
       "phone.ai_call_summary_changed"]
  end.

(** A computation that enqueues nothing, and one that enqueues [e] or
    nothing. *)
Definition silent {A} (m : Eff A) : Prop := m.1 = [].
Definition at_most {A} (e : Enqueue) (m : Eff A) : Prop :=
  m.1 = [] ∨ m.1 = [e].

(** The hang-up results that the 'ended' block takes for a missed call. *)
Definition missed_result (s : string) : Prop :=
  s ∈ ["Call Canceled"; "Voicemail"; "No Answer"]
  ∨ ∃ a b, toLowerCase s = a +:+ "missed" +:+ b.

Section Webhook.
Variable JSON_stringify : JValue → string.
Variable validateZoomWebhook : string → string → string → string → bool.
Variable zoomWebhookSecretToken : string.

(** A request that carries both headers and passes the validation. *)
Definition accepted (req : Request) : Prop :=
  ∃ timestamp signature,
    x_zm_request_timestamp req = Some timestamp ∧ timestamp ≠ ""
    ∧ x_zm_signature req = Some signature ∧ signature ≠ ""
    ∧ validateZoomWebhook (JSON_stringify (body req)) timestamp signature
        zoomWebhookSecretToken = true.

End Webhook.

End RoutesViews.

Module GraphViews.
Import Js Graph.

(** The entries a computation adds to the journal satisfy [Q], which may
    depend on the outcome. *)
Definition adds {A} (m : M A) (Q : list Entry → Thrown + A → Prop) : Prop :=
  ∀ w, ∃ es, journal (m w).1 = journal w ++ es ∧ Q es (m w).2.

(** An entry is a pause or a request among [P]. *)
Definition within (P : Request → Prop) (e : Entry) : Prop :=
  match e with
  | Sent r _ => P r
  | Slept _ => True
  end.

(** A computation that sends requests among [P] only. *)
Definition only {A} (P : Request → Prop) (m : M A) : Prop :=
  adds m (λ es _, Forall (within P) es).

Definition ok_entry (e : Entry) : Prop :=
  match e with
  | Sent _ ok => ok = true
  | Slept _ => True
  end.

(** The run stopped at the first request that failed: all its requests
    succeeded and it returned, or the last one failed and it threw. *)
Definition stops_at_failure {A} (es : list Entry) (r : Thrown + A) : Prop :=
  match r with
  | inr _ => Forall ok_entry es
  | inl _ => ∃ es0 rq, es = es0 ++ [Sent rq false] ∧ Forall ok_entry es0
  end.

Definition strict {A} (m : M A) : Prop := adds m stops_at_failure.

(** The requests to one of the two lists, and those to Planner. *)
Definition list_requests (l : ListName) (r : Request) : Prop :=
  match r with
  | FindItems l' _ | PostItem l' _ | PatchFields l' _ _ => l' = l
  | _ => False
  end.

Definition planner_requests (r : Request) : Prop :=
  match r with
  | PostTask _ _ _ | GetDetails _ | PatchDetails _ _ _ => True
  | _ => False
  end.

(** The serving side of a request leaves the journal alone. *)
Definition off_the_record {A} (serve : World → World * (JsError + A)) : Prop :=
  ∀ w, journal (serve w).1 = journal w.

End GraphViews.

Module ProcessorViews.
Import Js Graph GraphViews QueueProcessor.

Section Handlers.
Variable teamsWebhookUrl : option string.
Variable html_to_text : string → string.
Variable toLocaleString : JValue → string.
Variable now : string.

(** The requests a lead handler may send: to the sales-lead list, to
    Planner, and to the Teams webhook, if a URL is configured and there is
    a message, with the text of that message. *)
Definition handler_requests (message : option string) (r : Request) : Prop :=
  match r with
  | PostTeams url text =>
      teamsWebhookUrl = Some url ∧ url ≠ ""
      ∧ ∃ m, message = Some m ∧ text = html_to_text m
  | _ => list_requests SalesLeads r ∨ planner_requests r
  end.

(** The Teams message of the missed call, or of the voicemail with a
    transcript, that the payload of an event describes. *)
Definition missed_call_message (event : JValue) (w : World) : option string :=
  match (read_missed_call now event w).2 with
  | inr c => Some (missed_call_teams_message toLocaleString c)
  | inl _ => None
  end.

Definition voicemail_message (event : JValue) (w : World) : option string :=
  match (read_voicemail now event w).2 with
  | inr v => if truthy (vm_transcript v)
             then Some (voicemail_teams_message toLocaleString v)
             else None
  | inl _ => None
  end.

End Handlers.

End ProcessorViews.

Module ZoomViews.
Import Js Zoom.

(** The state after a call that was answered or refused. *)
Definition after (ms : Z) (c : Call) (ok : bool) (s : State) : State :=
  record (Called c ok) (advance ms s).

(** The last step of [getCallSummary] (lines 158-163). *)
Definition summary_or_empty (details : option JValue) : Thrown + JValue :=
  match details with
  | Some data => if truthy data then summary_of data else inr (JStr "")
  | None => inr (JStr "")
  end.

(** [getCallSummary] from the first request on (lines 149-163). *)
Definition summarize (token id : string) : M JValue :=
  details ← fetchDetails token id;
  retry ← lift (lacks_summary details);
  details ← (if (retry : bool)
             then sleep 2000;; fetchDetails token id
             else mret details);
  match details with
  | Some data => if truthy data then lift (summary_of data) else mret (JStr "")
  | None => mret (JStr "")
  end.

(** A computation that logs at least one call. *)
Definition logs_a_call {A} (m : M A) : Prop :=
  ∀ s, ∃ e es, log (m s).1 = log s ++ e :: es.

End ZoomViews.

Module ConfigViews.
Import Config.

(** The variable has a value that is not empty. *)
Definition is_set (env : Env) (envVar : string) : Prop :=
  ∃ v, env !! envVar = Some v ∧ v ≠ "".

(** What the module throws for a missing variable. *)
Definition missing (envVar : string) : Thrown :=
  ThrownError (mkError ("Missing required environment variable: " +:+ envVar)).

End ConfigViews.

(** * Further events, stores and services for the examples *)

Module MoreFixtures.
Import InMemoryQueue QueueViews Js Routes Graph QueueProcessor Fixtures.

(** Two jobs are added and a listener is registered before the handler is;
    then the first job fails its first attempt, the second completes, and
    a third job is added. *)
Definition busy_ops : list (Op string string) :=
  [ OpAdd "a" QueueService.jobOptions;
    OpAdd "b" QueueService.jobOptions;
    OpOn OnFailed (say "f");
    OpProcess "handler";
    OpSettle 0 (HandlerSettled (Rejects boom));
    OpSettle 1 (HandlerSettled Resolves);
    OpAdd "c" QueueService.jobOptions ].

(** A call that rang out: [handup_result] is empty, [result] tells. *)
Definition rang_out_event : JValue :=
  JObj [("event", JStr "phone.callee_ended");
        ("payload", JObj [("object",
           JObj [("call_id", JStr "c3"); ("handup_result", JStr "");
                 ("result", JStr "Call MISSED by callee")])])].

(** A call-ended event with a numeric result code. *)
Definition coded_event : JValue :=
  JObj [("event", JStr "phone.caller_ended");
        ("payload", JObj [("object",
           JObj [("call_id", JStr "c4"); ("handup_result", JNum 7)])])].

(** A voicemail event without a payload. *)
Definition bare_voicemail_event : JValue :=
  JObj [("event", JStr "phone.voicemail_received")].

(** A calm store that holds the follow-up task of a lead. *)
Definition w_task : World := mkWorld [] [] [task1] 8 [] [].





(** A service that holds a token for the next hour, and an API that
    refuses the next request. *)
Definition s_ready : Zoom.State :=
  Zoom.mkState (Some "tok-1") 3600000 0 []
    [(40, inl (mkError "Request failed with status code 404"))] [].

(** A new service, and a token endpoint that grants an hour. *)
Definition s_new : Zoom.State :=
  Zoom.mkState None 0 1000 [(200, inr (Zoom.mkGrant "tok-1" 3600))] [] [].

(** A new service that the token endpoint turns away. *)
Definition s_refused : Zoom.State :=
  Zoom.mkState None 0 1000 [(200, inl (mkError "invalid_client"))] [] [].

(** A service with a token, and an API that has the summary only at the
    second request. *)
Definition s_late : Zoom.State :=
  Zoom.mkState (Some "tok-1") 3600000 0 []
    [(40, inr (JObj [("call_id", JStr "c1")]));
     (50, inr (JObj [("call_id", JStr "c1");
                     ("ai_call_summary",
                      JObj [("summary", JStr "Asked for a quote.")])]))] [].

Definition no_json (content : string) : Thrown + JValue :=
  inl (ThrownError (mkError "Unexpected token")).

(** An environment with the required variables, and no others. *)
Definition env_ok : gmap string string :=
  list_to_map
    [("APPLICATION_ID", "app"); ("TENANT_ID", "tenant");
     ("CLIENT_SECRET_VALUE", "secret"); ("SHAREPOINT_SITE_ID", "site");
     ("SALES_LEADS_LIST_ID", "leads"); ("TEAMS_TEAM_ID", "team");
     ("TEAMS_CHANNEL_ID", "channel"); ("ZOOM_ACCOUNT_ID", "account");
     ("ZOOM_CLIENT_ID", "client"); ("ZOOM_CLIENT_SECRET", "zsecret");
     ("ZOOM_WEBHOOK_SECRET_TOKEN", "token")].


End MoreFixtures.

(** * Properties of the in-memory queue *)

Module QueueFacts.
Import InMemoryQueue.

(** ** Backoff policy *)

Lemma getBackoffDelay_first (D : Z) :
  getBackoffDelay (BackoffOptions "exponential" (Some D)) 1 = D.
Proof. cbn. lia. Qed.

Lemma getBackoffDelay_doubles (D k : Z) :
  1 <= k →
  getBackoffDelay (BackoffOptions "exponential" (Some D)) (k + 1)
  = 2 * getBackoffDelay (BackoffOptions "exponential" (Some D)) k.
Proof.
  intros Hk. cbn.
  replace (k + 1 - 1) with (Z.succ (k - 1)) by lia.
  rewrite Z.pow_succ_r by lia. lia.
Qed.

Lemma eqb_exponential (ty : string) :
  ty ≠ "exponential" → String.eqb ty "exponential" = false.
Proof. intros Hne. apply String.eqb_neq. exact Hne. Qed.

(** C4: an exponential backoff with base delay [D] waits [D * 2^(k-1)] after
    the failed attempt [k >= 1]; a numeric backoff and a typed backoff that is
    not exponential wait the same delay after every attempt; without a
    backoff the delay is 0. *)
Theorem getBackoffDelay_policy (D k : Z) :
  1 <= k →
  getBackoffDelay (BackoffOptions "exponential" (Some D)) k = D * 2 ^ (k - 1)
  ∧ getBackoffDelay (BackoffNumber D) k = D
  ∧ (∀ ty, ty ≠ "exponential" →
       getBackoffDelay (BackoffOptions ty (Some D)) k = D)
  ∧ getBackoffDelay BackoffUndefined k = 0.
Proof.
  intros _. repeat split.
  - cbn. destruct (D =? 0) eqn:E; [|done]. apply Z.eqb_eq in E. by subst.
  - intros ty Hty. cbn. by rewrite eqb_exponential.
Qed.

(** The jobs of [QueueService] get three attempts, and wait 2 s and 4 s
    before the second and the third. *)
Lemma service_options :
  effective_attempts QueueService.jobOptions = 3
  ∧ getBackoffDelay (backoff QueueService.jobOptions) 1 = 2000
  ∧ getBackoffDelay (backoff QueueService.jobOptions) 2 = 4000.
Proof. by vm_compute. Qed.

Lemma getBackoffDelay_policy_witness :
  getBackoffDelay (BackoffOptions "exponential" (Some 2000)) 3 = 8000
  ∧ getBackoffDelay (BackoffNumber 100) 2 = 100
  ∧ getBackoffDelay (BackoffOptions "fixed" (Some 100)) 2 = 100.
Proof.
  destruct (getBackoffDelay_policy 2000 3 ltac:(lia)) as (He & _ & _ & _).
  destruct (getBackoffDelay_policy 100 2 ltac:(lia)) as (_ & Hn & Hf & _).
  split; [exact He|]. split; [exact Hn|].
  apply Hf. discriminate.
Defined.

(** ** The retry loop *)

Section Retry.
Context {T H : Type}.
Implicit Types (q : Queue T H) (job : Job T) (o : JobOptions) (h : H).
Implicit Types (tr : list (Event T H)) (t : Thrown).

Lemma effective_attempts_pos o : 1 <= effective_attempts o.
Proof. unfold effective_attempts. lia. Qed.

Lemma effective_attempts_some o N :
  attempts o = Some N → 1 <= N → effective_attempts o = N.
Proof. unfold effective_attempts. intros -> ?. lia. Qed.

Lemma fuel_for_first o : ∃ n, fuel_for o 1 = S n.
Proof.
  unfold fuel_for. pose proof (effective_attempts_pos o).
  exists (Z.to_nat (effective_attempts o + 1 - 1) - 1)%nat. lia.
Qed.

Lemma with_counts_same q : with_counts q (counts q) = q.
Proof. by destruct q. Qed.

Lemma with_counts_twice q c c' :
  with_counts (with_counts q c) c' = with_counts q c'.
Proof. done. Qed.

Lemma notify_quiet ev (ls : list (Listener T)) (a : Args T) :
  quiet ls → notify (H:=H) ev ls a = (calls ev ls a, None).
Proof.
  induction ls as [|l ls IH]; intros Hq; [done|].
  cbn. rewrite (Hq l a) by apply list_elem_of_here.
  rewrite IH; [done|]. intros l' a' Hin. apply Hq. by apply list_elem_of_further.
Qed.

(** A listener that throws ends [forEach]: those registered before it were
    called, those after it are not. *)
Lemma notify_throws ev (ls1 ls2 : list (Listener T)) l (a : Args T) t :
  quiet ls1 → lrun l a = Some t →
  notify (H:=H) ev (ls1 ++ l :: ls2) a
  = (calls ev ls1 a ++ [EvNotify ev (lname l) a], Some t).
Proof.
  induction ls1 as [|l1 ls1 IH]; intros Hq Ht.
  - cbn. by rewrite Ht.
  - cbn. rewrite (Hq l1 a) by apply list_elem_of_here.
    rewrite IH; [done| |done].
    intros l' a' Hin. apply Hq. by apply list_elem_of_further.
Qed.

Lemma loop_handler fuel job o q (a : Z) le h :
  handler q = Some h →
  loop fuel job o q a le
  = if a <=? effective_attempts o
    then (q, [EvInvoke h job], AwaitHandler a)
    else finish q job le.
Proof. intros Hh. destruct fuel; cbn; by rewrite Hh. Qed.

(** [fuel] only bounds the iterations of a queue without a handler, and
    [fuel_for] is enough of it: more fuel changes nothing. *)
Lemma loop_fuel job o (f1 f2 : nat) q (a : Z) le :
  (Z.to_nat (effective_attempts o + 1 - a) <= f1)%nat →
  (Z.to_nat (effective_attempts o + 1 - a) <= f2)%nat →
  loop f1 job o q a le = loop f2 job o q a le.
Proof.
  revert f2 q a le.
  induction f1 as [|f1 IH]; intros f2 q a le H1 H2.
  - destruct f2 as [|f2]; [done|].
    cbn. destruct (a <=? effective_attempts o) eqn:E; [|done].
    apply Z.leb_le in E. lia.
  - destruct f2 as [|f2].
    + cbn. destruct (a <=? effective_attempts o) eqn:E; [|done].
      apply Z.leb_le in E. lia.
    + cbn. destruct (a <=? effective_attempts o) eqn:E; [|done].
      apply Z.leb_le in E.
      destruct (handler q); [done|].
      unfold on_catch.
      destruct (a <? effective_attempts o); [destruct (0 <? _); [done|]|];
        apply IH; lia.
Qed.

Lemma finish_quiet q job le :
  quiet (on_failed (listeners q)) → quiet (on_error (listeners q)) →
  finish q job le
  = (with_counts q (count_failed (counts q)),
     calls OnFailed (on_failed (listeners q))
       (ArgsFailed job (default (mkError "Queue job failed") le))
     ++ calls OnError (on_error (listeners q))
       (ArgsError (default (mkError "Queue job failed") le)),
     Returned).
Proof.
  intros Hf He. unfold finish. cbn.
  rewrite (notify_quiet _ _ _ Hf), (notify_quiet _ _ _ He).
  by destruct le.
Qed.

Lemma wake_done (n : nat) job o q tr (st : Exec) :
  (∀ a le, st ≠ AwaitSleep a le) → wake n job o (q, tr, st) = (q, tr, st).
Proof. intros Hst. destruct n, st; try done. by destruct (Hst attempt lastError). Qed.

(** A rejected attempt that is not the last one: the backoff is slept, if
    there is one, and the handler is called again, on an unchanged queue. *)
Lemma settle_reject_retry q job o h tr (a : Z) t :
  handler q = Some h → counts_ok (counts q) → a < effective_attempts o →
  settle job o (q, tr, AwaitHandler a) (Rejects t)
  = (q, tr ++ retry_events h job o a, AwaitHandler (a + 1)).
Proof.
  intros Hh Hc Ha. unfold settle, retry_events. cbn [resume].
  destruct (fuel_for_first o) as [n ->].
  unfold on_catch.
  destruct (Z.ltb_spec a (effective_attempts o)) as [_|]; [|lia].
  destruct (0 <? getBackoffDelay (backoff o) a) eqn:Ed.
  - cbn [prepend wake resume].
    unfold loop_at. rewrite (loop_handler _ _ _ _ _ _ h) by done.
    destruct (Z.leb_spec (a + 1) (effective_attempts o)) as [_|]; [|lia].
    cbn [prepend]. rewrite wake_done by done.
    rewrite with_counts_twice. cbn.
    destruct Hc as (_ & _ & _ & _ & Hd & _).
    replace (Z.max 0 (delayed (counts q) + 1 - 1)) with (delayed (counts q)) by lia.
    destruct q as [? ? ? ? []]. cbn. by rewrite <- app_assoc.
  - unfold loop_at. rewrite (loop_handler _ _ _ _ _ _ h) by done.
    destruct (Z.leb_spec (a + 1) (effective_attempts o)) as [_|]; [|lia].
    cbn [prepend]. by rewrite wake_done.
Qed.

(** The rejection of the last attempt ends the loop. *)
Lemma settle_reject_last q job o h tr t :
  handler q = Some h →
  settle job o (q, tr, AwaitHandler (effective_attempts o)) (Rejects t)
  = wake (fuel_for o 1) job o (prepend tr (finish q job (Some (toError t)))).
Proof.
  intros Hh. unfold settle. cbn [resume]. unfold on_catch.
  destruct (Z.ltb_spec (effective_attempts o) (effective_attempts o)); [lia|].
  unfold loop_at. rewrite (loop_handler _ _ _ _ _ _ h) by done.
  by destruct (Z.leb_spec (effective_attempts o + 1) (effective_attempts o)); [lia|].
Qed.

Lemma settle_resolve q job o tr (a : Z) :
  quiet (on_completed (listeners q)) →
  settle job o (q, tr, AwaitHandler a) Resolves
  = (with_counts q (count_completed (counts q)),
     tr ++ calls OnCompleted (on_completed (listeners q)) (ArgsCompleted job),
     Returned).
Proof.
  intros Hq. unfold settle. cbn [resume]. cbn.
  rewrite (notify_quiet _ _ _ Hq). cbn [prepend].
  by rewrite wake_done.
Qed.

(** [n] rejected attempts in a row, none of them the last. *)
Lemma settle_rejects q job o h (errs : list Thrown) tr (a : Z) :
  handler q = Some h → counts_ok (counts q) →
  a + Z.of_nat (length errs) <= effective_attempts o →
  fold_left (settle job o) (map Rejects errs) (q, tr, AwaitHandler a)
  = (q, tr ++ retries h job o a (length errs),
     AwaitHandler (a + Z.of_nat (length errs))).
Proof.
  intros Hh Hc. revert tr a.
  induction errs as [|t errs IH]; intros tr a Ha.
  - cbn. by rewrite app_nil_r, Z.add_0_r.
  - cbn [map fold_left length retries]. cbn [length] in Ha.
    rewrite Nat2Z.inj_succ in Ha |- *.
    rewrite (settle_reject_retry _ _ _ h) by (done || lia).
    rewrite IH by lia. rewrite <- app_assoc. do 2 f_equal. lia.
Qed.

Lemma execute_first q job o h :
  handler q = Some h →
  execute q job o
  = (with_counts q (count_started (counts q)), [EvInvoke h job], AwaitHandler 1).
Proof.
  intros Hh. unfold execute, loop_at. rewrite (loop_handler _ _ _ _ _ _ h) by done.
  pose proof (effective_attempts_pos o).
  by destruct (Z.leb_spec 1 (effective_attempts o)); [|lia].
Qed.

Lemma execute_handler q job o h :
  handler q = Some h →
  wake (fuel_for o 1) job o (execute q job o)
  = (with_counts q (count_started (counts q)), [EvInvoke h job], AwaitHandler 1).
Proof. intros Hh. rewrite (execute_first _ _ _ h) by done. by rewrite wake_done. Qed.

Lemma invocations_app tr1 tr2 :
  invocations (tr1 ++ tr2) = (invocations tr1 + invocations tr2)%nat.
Proof. unfold invocations. by rewrite List.filter_app, length_app. Qed.

Lemma notifications_app tr1 tr2 :
  notifications (tr1 ++ tr2) = notifications tr1 ++ notifications tr2.
Proof. unfold notifications. by rewrite List.filter_app. Qed.

Lemma retries_invocations h job o (a : Z) (n : nat) :
  invocations (retries h job o a n) = n.
Proof.
  revert a. induction n as [|n IH]; intros a; [done|].
  cbn [retries]. rewrite invocations_app, IH.
  unfold retry_events. by destruct (0 <? _).
Qed.

Lemma retries_notifications h job o (a : Z) (n : nat) :
  notifications (retries h job o a n) = [].
Proof.
  revert a. induction n as [|n IH]; intros a; [done|].
  cbn [retries]. rewrite notifications_app, IH.
  unfold retry_events. by destruct (0 <? _).
Qed.

Lemma calls_invocations ev (ls : list (Listener T)) (a : Args T) :
  invocations (calls (H:=H) ev ls a) = 0%nat.
Proof. by induction ls. Qed.

Lemma calls_notifications ev (ls : list (Listener T)) (a : Args T) :
  notifications (calls (H:=H) ev ls a) = calls ev ls a.
Proof. induction ls as [|l ls IH]; [done|]. cbn. by f_equal. Qed.

Lemma count_started_ok (c : Counts) : counts_ok c → counts_ok (count_started c).
Proof. unfold counts_ok. cbn. lia. Qed.

Lemma count_failed_ok (c : Counts) : counts_ok c → counts_ok (count_failed c).
Proof. unfold counts_ok. cbn. lia. Qed.

Lemma count_completed_ok (c : Counts) : counts_ok c → counts_ok (count_completed c).
Proof. unfold counts_ok. cbn. lia. Qed.

Lemma finish_queue q job le :
  (finish q job le).1.1 = with_counts q (count_failed (counts q)).
Proof.
  unfold finish. destruct (notify OnFailed _ _) as [tr1 [t1|]]; [done|].
  by destruct (notify OnError _ _) as [tr2 r2].
Qed.

Lemma wake_finish (n : nat) job o tr q le :
  wake n job o (prepend tr (finish q job le)) = prepend tr (finish q job le).
Proof.
  unfold finish. destruct (notify OnFailed _ _) as [tr1 [t1|]].
  - cbn. by rewrite wake_done.
  - destruct (notify OnError _ _) as [tr2 [t2|]]; cbn; by rewrite wake_done.
Qed.

(** A finished execution ignores whatever else settles. *)
Lemma settle_finished job o (outs : list Outcome) q tr (st : Exec) :
  st = Returned ∨ (∃ t, st = Threw t) →
  fold_left (settle job o) outs (q, tr, st) = (q, tr, st).
Proof.
  intros Hst. induction outs as [|out outs IH]; [done|].
  cbn [fold_left]. replace (settle job o (q, tr, st) out) with (q, tr, st); [done|].
  unfold settle. destruct Hst as [->|[t ->]]; cbn; rewrite app_nil_r;
    by rewrite wake_done.
Qed.

(** The run of a job all of whose [N] attempts are rejected, up to the code
    after the loop. *)
Lemma run_all_rejected q job o h (errs : list Thrown) (e : Thrown) :
  handler q = Some h → counts_ok (counts q) →
  Z.of_nat (length (errs ++ [e])) = effective_attempts o →
  run q job o (map Rejects (errs ++ [e]))
  = prepend (EvInvoke h job :: retries h job o 1 (length errs))
      (finish (with_counts q (count_started (counts q))) job (Some (toError e))).
Proof.
  intros Hh Hc Hn. unfold run. rewrite (execute_handler _ _ _ h) by done.
  rewrite length_app, Nat2Z.inj_add in Hn. cbn in Hn.
  rewrite map_app, fold_left_app.
  rewrite (settle_rejects _ _ _ h); [|done|by apply count_started_ok|lia].
  cbn [map fold_left].
  replace (1 + Z.of_nat (length errs)) with (effective_attempts o) by lia.
  rewrite (settle_reject_last _ _ _ h) by done.
  by rewrite wake_finish.
Qed.

(** C3: with [attempts = N >= 1] and a handler whose first [k - 1 < N]
    invocations throw and whose [k]-th succeeds, the handler is invoked
    exactly [k] times and exactly the 'completed' listeners are called, once
    each, with the job; when all [N] invocations throw, the handler is
    invoked exactly [N] times, the 'failed' listeners are called once each
    with the job and the last error, then the 'error' listeners once each
    with the last error, the failed count grows by one and the job is no
    longer counted as active. *)
Theorem execute_retries_then_settles q job o h (N : Z) (errs : list Thrown) :
  handler q = Some h → attempts o = Some N → 1 <= N →
  counts_ok (counts q) →
  quiet (on_completed (listeners q)) →
  quiet (on_failed (listeners q)) →
  quiet (on_error (listeners q)) →
  (Z.of_nat (length errs) < N →
   ∃ q' tr,
     run q job o (map Rejects errs ++ [Resolves]) = (q', tr, Returned)
     ∧ invocations tr = S (length errs)
     ∧ notifications tr
       = calls OnCompleted (on_completed (listeners q)) (ArgsCompleted job)
     ∧ completed (counts q') = completed (counts q) + 1
     ∧ failed (counts q') = failed (counts q)
     ∧ active (counts q') = active (counts q))
  ∧ (∀ e, last errs = Some e → Z.of_nat (length errs) = N →
     ∃ q' tr,
       run q job o (map Rejects errs) = (q', tr, Returned)
       ∧ invocations tr = Z.to_nat N
       ∧ notifications tr
         = calls OnFailed (on_failed (listeners q)) (ArgsFailed job (toError e))
           ++ calls OnError (on_error (listeners q)) (ArgsError (toError e))
       ∧ failed (counts q') = failed (counts q) + 1
       ∧ completed (counts q') = completed (counts q)
       ∧ active (counts q') = active (counts q)).
Proof.
  intros Hh HN H1 Hc Hqc Hqf Hqe.
  pose proof (effective_attempts_some _ _ HN H1) as HE.
  split.
  - intros Hk. eexists _, _. split.
    + unfold run. rewrite (execute_handler _ _ _ h) by done.
      rewrite fold_left_app.
      rewrite (settle_rejects _ _ _ h); [|done|by apply count_started_ok|lia].
      cbn [fold_left]. by rewrite settle_resolve.
    + cbn [listeners with_counts counts]. repeat split.
      * rewrite !invocations_app, retries_invocations, calls_invocations.
        cbn. lia.
      * rewrite !notifications_app, retries_notifications, calls_notifications.
        done.
      * cbn. destruct Hc as (_ & Ha & _). lia.
  - intros e Hlast Hlen.
    apply last_Some in Hlast as [errs' ->].
    rewrite (run_all_rejected _ _ _ h) by (done || lia).
    rewrite finish_quiet by done. cbn [prepend default].
    eexists _, _. split; [done|].
    cbn [listeners with_counts counts]. repeat split.
    + change (EvInvoke h job :: ?l) with ([EvInvoke h job] ++ l).
      rewrite !invocations_app, retries_invocations, !calls_invocations.
      rewrite length_app in Hlen. cbn in *. lia.
    + change (EvInvoke h job :: ?l) with ([EvInvoke h job] ++ l).
      rewrite !notifications_app, retries_notifications, !calls_notifications.
      done.
    + cbn. destruct Hc as (_ & Ha & _). lia.
Qed.

(** C9 (as the code has it): a job whose options give no [attempts] is run
    with one attempt: the handler is called once, and when that call throws
    the job is failed at once, whatever later calls would have done. *)
Theorem attempts_default_is_one q job o h (t : Thrown) (outs : list Outcome) :
  handler q = Some h → attempts o = None →
  counts_ok (counts q) →
  quiet (on_failed (listeners q)) →
  quiet (on_error (listeners q)) →
  effective_attempts o = 1
  ∧ ∃ q' tr,
      run q job o (Rejects t :: outs) = (q', tr, Returned)
      ∧ invocations tr = 1%nat
      ∧ notifications tr
        = calls OnFailed (on_failed (listeners q)) (ArgsFailed job (toError t))
          ++ calls OnError (on_error (listeners q)) (ArgsError (toError t))
      ∧ failed (counts q') = failed (counts q) + 1
      ∧ completed (counts q') = completed (counts q).
Proof.
  intros Hh Ha Hc Hqf Hqe.
  assert (effective_attempts o = 1) as HE.
  { unfold effective_attempts. rewrite Ha. lia. }
  split; [done|].
  pose proof (run_all_rejected q job o h [] t Hh Hc) as Hrun.
  cbn [app map length] in Hrun. rewrite HE in Hrun. specialize (Hrun eq_refl).
  unfold run in *. cbn [fold_left] in *. rewrite Hrun.
  rewrite finish_quiet by done. cbn [prepend default retries].
  rewrite settle_finished by auto.
  eexists _, _. split; [done|].
  cbn [listeners with_counts counts]. repeat split.
  - change (EvInvoke h job :: ?l) with ([EvInvoke h job] ++ l).
    by rewrite !invocations_app, !calls_invocations.
  - change (EvInvoke h job :: ?l) with ([EvInvoke h job] ++ l).
    by rewrite !notifications_app, !calls_notifications.
Qed.

(** C2 (as the code has it): an exception thrown by a 'failed' or an 'error'
    listener is not caught.  It leaves [execute], whose promise rejects with
    it, only after the counts made the transition of a failed job; the
    handler is not called again and no listener is called that would not
    have been called otherwise: those registered after the throwing one are
    skipped. *)
Theorem failing_listener_exception_escapes q job o h (N : Z)
    (errs : list Thrown) (e t : Thrown) (ls1 ls2 : list (Listener T)) l :
  handler q = Some h → attempts o = Some N → 1 <= N →
  counts_ok (counts q) →
  last errs = Some e → Z.of_nat (length errs) = N →
  quiet ls1 →
  (on_failed (listeners q) = ls1 ++ l :: ls2 →
   lrun l (ArgsFailed job (toError e)) = Some t →
   ∃ q' tr,
     run q job o (map Rejects errs) = (q', tr, Threw t)
     ∧ invocations tr = Z.to_nat N
     ∧ notifications tr
       = calls OnFailed ls1 (ArgsFailed job (toError e))
         ++ [EvNotify OnFailed (lname l) (ArgsFailed job (toError e))]
     ∧ counts q' = count_failed (count_started (counts q)))
  ∧ (quiet (on_failed (listeners q)) →
     on_error (listeners q) = ls1 ++ l :: ls2 →
     lrun l (ArgsError (toError e)) = Some t →
     ∃ q' tr,
       run q job o (map Rejects errs) = (q', tr, Threw t)
       ∧ invocations tr = Z.to_nat N
       ∧ notifications tr
         = calls OnFailed (on_failed (listeners q)) (ArgsFailed job (toError e))
           ++ calls OnError ls1 (ArgsError (toError e))
           ++ [EvNotify OnError (lname l) (ArgsError (toError e))]
       ∧ counts q' = count_failed (count_started (counts q))).
Proof.
  intros Hh HN H1 Hc Hlast Hlen Hq1.
  pose proof (effective_attempts_some _ _ HN H1) as HE.
  apply last_Some in Hlast as [errs' ->].
  rewrite (run_all_rejected _ _ _ h) by (done || lia).
  rewrite length_app in Hlen. cbn in Hlen.
  split.
  - intros Hf Ht. unfold finish. cbn [listeners with_counts counts].
    rewrite Hf, (notify_throws _ _ _ _ _ _ Hq1 Ht). cbn [prepend].
    eexists _, _. split; [done|]. repeat split.
    + change (EvInvoke h job :: ?l) with ([EvInvoke h job] ++ l).
      rewrite !invocations_app, retries_invocations, !calls_invocations.
      cbn. lia.
    + change (EvInvoke h job :: ?l) with ([EvInvoke h job] ++ l).
      by rewrite !notifications_app, retries_notifications, !calls_notifications.
  - intros Hqf He Ht. unfold finish. cbn [listeners with_counts counts].
    rewrite (notify_quiet _ _ _ Hqf), He, (notify_throws _ _ _ _ _ _ Hq1 Ht).
    cbn [prepend]. eexists _, _. split; [done|]. repeat split.
    + change (EvInvoke h job :: ?l) with ([EvInvoke h job] ++ l).
      rewrite !invocations_app, retries_invocations, !calls_invocations.
      cbn. lia.
    + change (EvInvoke h job :: ?l) with ([EvInvoke h job] ++ l).
      by rewrite !notifications_app, retries_notifications, !calls_notifications.
Qed.

End Retry.

(** ** Buffered jobs *)

Section Buffer.
Context {T H : Type}.
Implicit Types (q : Queue T H) (h : H).

Lemma add_buffers q (d : T) o :
  handler q = None →
  handler (add q d o).1.1 = None
  ∧ pending (add q d o).1.1 = pending q ++ [(mkJob (nextId q) d, o)]
  ∧ nextId (add q d o).1.1 = nextId q + 1
  ∧ listeners (add q d o).1.1 = listeners q.
Proof. intros Hh. unfold add. cbn. by rewrite Hh. Qed.

Lemma add_all_buffers (items : list (T * JobOptions)) q :
  handler q = None →
  handler (add_all q items) = None
  ∧ pending (add_all q items) = pending q ++ numbered (nextId q) items
  ∧ listeners (add_all q items) = listeners q.
Proof.
  revert q. induction items as [|[d o] items IH]; intros q Hh.
  - cbn. by rewrite app_nil_r.
  - destruct (add_buffers q d o Hh) as (Hh' & Hp & Hn & Hl).
    destruct (IH _ Hh') as (IH1 & IH2 & IH3).
    change (add_all q ((d, o) :: items)) with (add_all (add q d o).1.1 items).
    rewrite IH1, IH2, IH3, Hp, Hn, Hl. cbn [numbered].
    by rewrite <- app_assoc.
Qed.

Lemma execute_all_starts (queued : list (Job T * JobOptions)) q h :
  handler q = Some h →
  ∃ q', execute_all q queued
        = (q', map (λ p, EvInvoke h p.1) queued,
           map (λ p, (p.1, p.2, AwaitHandler 1)) queued)
      ∧ handler q' = Some h ∧ pending q' = pending q
      ∧ listeners q' = listeners q.
Proof.
  revert q. induction queued as [|[job o] queued IH]; intros q Hh.
  - by exists q.
  - cbn [execute_all]. rewrite (execute_first _ _ _ h) by done.
    destruct (IH (with_counts q (count_started (counts q))) Hh)
      as (q' & -> & ? & ? & ?).
    by exists q'.
Qed.

Lemma numbered_data (items : list (T * JobOptions)) (n : Z) :
  map (λ p, data p.1) (numbered n items) = map fst items.
Proof.
  revert n. induction items as [|[d o] items IH]; intros n; [done|].
  cbn. by rewrite IH.
Qed.

(** C6: the jobs added while no handler is registered are buffered in the
    order of the [add] calls; [process(handler)] then calls the handler for
    exactly the buffered jobs, in that order, each call being the first
    attempt of an execution left awaiting it, and empties the buffer. *)
Theorem process_starts_buffer_in_order q h (items : list (T * JobOptions)) :
  handler q = None →
  pending (add_all q items) = pending q ++ numbered (nextId q) items
  ∧ map (λ p, data p.1) (numbered (nextId q) items) = map fst items
  ∧ ∃ q',
      process (add_all q items) h
      = (q', map (λ p, EvInvoke h p.1) (pending (add_all q items)),
         map (λ p, (p.1, p.2, AwaitHandler 1)) (pending (add_all q items)))
      ∧ pending q' = []
      ∧ handler q' = Some h.
Proof.
  intros Hh. destruct (add_all_buffers items q Hh) as (_ & Hp & _).
  split; [done|]. split; [apply numbered_data|].
  - unfold process. cbn [pending].
    destruct (Z.eqb_spec (Z.of_nat (length (pending (add_all q items)))) 0) as [E|E].
    + destruct (pending (add_all q items)); [|done].
      by eexists.
    + edestruct (execute_all_starts (pending (add_all q items))) as (q' & -> & ? & ? & ?);
        [done|].
      by exists q'.
Qed.

(** ** The counters stay non-negative *)

Lemma counts_ok_empty : counts_ok (counts (empty (T:=T) (H:=H))).
Proof. cbv. repeat split; discriminate. Qed.

Lemma finish_ok q (job : Job T) le :
  counts_ok (counts q) → counts_ok (counts (finish q job le).1.1).
Proof. intros Hc. rewrite finish_queue. by apply count_failed_ok. Qed.

Lemma on_catch_ok (next : Queue T H → Z → option JsError → Step) q o (a : Z) t :
  (∀ q' a' le, counts_ok (counts q') → counts_ok (counts (next q' a' le).1.1)) →
  counts_ok (counts q) → counts_ok (counts (on_catch next q o a t).1.1).
Proof.
  intros Hn Hc. unfold on_catch.
  destruct (a <? effective_attempts o); [destruct (0 <? _)|]; auto.
  cbn. unfold counts_ok in *. cbn. lia.
Qed.

Lemma loop_ok (fuel : nat) (job : Job T) o q (a : Z) le :
  counts_ok (counts q) → counts_ok (counts (loop fuel job o q a le).1.1).
Proof.
  revert q a le. induction fuel as [|fuel IH]; intros q a le Hc; cbn;
    destruct (a <=? effective_attempts o); try by apply finish_ok.
  - destruct (handler q); [done|by apply finish_ok].
  - destruct (handler q); [done|]. by apply on_catch_ok.
Qed.

Lemma execute_ok q (job : Job T) o :
  counts_ok (counts q) → counts_ok (counts (execute q job o).1.1).
Proof. intros Hc. apply loop_ok. unfold counts_ok in *. cbn. lia. Qed.

Lemma prepend_queue (tr : list (Event T H)) (s : Step) :
  (prepend tr s).1.1 = s.1.1.
Proof. by destruct s as [[? ?] ?]. Qed.

Lemma resume_ok q (job : Job T) o (st : Exec) (i : Input) :
  counts_ok (counts q) → counts_ok (counts (resume q job o st i).1.1).
Proof.
  intros Hc. destruct st as [a|a le| |t], i as [[|t']|]; try done; cbn [resume].
  - destruct (notify OnCompleted _ _) as [tr [t'|]].
    + rewrite prepend_queue. apply on_catch_ok; [intros; by apply loop_ok|].
      unfold counts_ok in *. cbn. lia.
    + unfold counts_ok in *. cbn. lia.
  - apply on_catch_ok; [intros; by apply loop_ok|done].
  - apply loop_ok. unfold counts_ok in *. cbn. lia.
Qed.

Lemma add_ok q (d : T) o :
  counts_ok (counts q) → counts_ok (counts (add q d o).1.1).
Proof.
  intros Hc. unfold add. cbn. destruct (handler q).
  - match goal with |- context [execute ?q' ?j ?o'] =>
      pose proof (execute_ok q' j o') as He;
      destruct (execute q' j o') as [[q1 tr1] st1] end.
    apply He. unfold counts_ok in *. cbn. lia.
  - cbn. unfold counts_ok in *. cbn. lia.
Qed.

Lemma execute_all_ok (queued : list (Job T * JobOptions)) q :
  counts_ok (counts q) → counts_ok (counts (execute_all q queued).1.1).
Proof.
  revert q. induction queued as [|[job o] queued IH]; intros q Hc; [done|].
  cbn [execute_all].
  pose proof (execute_ok q job o Hc) as He.
  destruct (execute q job o) as [[q1 tr1] st1].
  specialize (IH q1 He). by destruct (execute_all q1 queued) as [[q2 tr2] sts].
Qed.

Lemma process_ok q h :
  counts_ok (counts q) → counts_ok (counts (process q h).1.1).
Proof.
  intros Hc. unfold process. cbn [pending].
  destruct (Z.of_nat (length (pending q)) =? 0); [done|].
  apply execute_all_ok. unfold counts_ok in *. cbn. lia.
Qed.

End Buffer.

(** ** Runs on concrete queues *)

Section Examples.
Import Fixtures.

Lemma quiet_say (name : string) : quiet [say name].
Proof. intros l a Hin. apply list_elem_of_singleton in Hin. by subst. Qed.

Lemma counts_ok_logged : counts_ok (counts q_logged).
Proof. cbv. repeat split; discriminate. Qed.

(** Scenario C of the specification: attempts 3, a fixed backoff of 100 ms,
    the handler throws twice and then succeeds. *)
Example scenario_C :
  let s := run q_logged job1 (mkOptions (Some 3) (BackoffNumber 100))
             [Rejects boom; Rejects boom; Resolves] in
  s.2 = Returned ∧ invocations s.1.2 = 3%nat ∧ sleeps s.1.2 = [100; 100]
  ∧ notifications s.1.2 = [EvNotify OnCompleted "c" (ArgsCompleted job1)].
Proof. by vm_compute. Qed.

Lemma execute_retries_then_settles_witness :
  (∃ q' tr,
     run q_logged job1 (mkOptions (Some 3) (BackoffNumber 100))
       (map Rejects [boom; boom] ++ [Resolves]) = (q', tr, Returned)
     ∧ invocations tr = 3%nat
     ∧ notifications tr
       = calls OnCompleted (on_completed (listeners q_logged)) (ArgsCompleted job1)
     ∧ completed (counts q') = completed (counts q_logged) + 1
     ∧ failed (counts q') = failed (counts q_logged)
     ∧ active (counts q') = active (counts q_logged)).
Proof.
  refine (proj1 (execute_retries_then_settles q_logged job1
    (mkOptions (Some 3) (BackoffNumber 100)) "handler" 3 [boom; boom]
    eq_refl eq_refl _ counts_ok_logged
    (quiet_say "c") (quiet_say "f") (quiet_say "e")) _).
  - discriminate.
  - reflexivity.
Defined.

Lemma attempts_default_is_one_witness :
  effective_attempts (mkOptions None BackoffUndefined) = 1
  ∧ ∃ q' tr,
      run q_logged job1 (mkOptions None BackoffUndefined)
        (Rejects boom :: [Resolves; Resolves]) = (q', tr, Returned)
      ∧ invocations tr = 1%nat
      ∧ notifications tr
        = calls OnFailed (on_failed (listeners q_logged)) (ArgsFailed job1 (toError boom))
          ++ calls OnError (on_error (listeners q_logged)) (ArgsError (toError boom))
      ∧ failed (counts q') = failed (counts q_logged) + 1
      ∧ completed (counts q') = completed (counts q_logged).
Proof.
  exact (attempts_default_is_one q_logged job1 (mkOptions None BackoffUndefined)
    "handler" boom [Resolves; Resolves] eq_refl eq_refl counts_ok_logged
    (quiet_say "f") (quiet_say "e")).
Defined.

(** C9 as stated fails: added without [attempts], a job whose handler throws
    once and would then succeed is not retried (a job with three attempts
    would complete on the second call); it is failed after one call. *)
Lemma attempts_default_counterexample :
  let o := mkOptions None BackoffUndefined in
  let s := run q_logged job1 o [Rejects boom; Resolves; Resolves] in
  effective_attempts o ≠ 3
  ∧ invocations s.1.2 ≠ 2%nat
  ∧ invocations s.1.2 = 1%nat
  ∧ failed (counts s.1.1) = 1 ∧ completed (counts s.1.1) = 0
  ∧ notifications s.1.2
    = [EvNotify OnFailed "f" (ArgsFailed job1 (mkError "boom"));
       EvNotify OnError "e" (ArgsError (mkError "boom"))].
Proof. by vm_compute. Qed.

(** C2 as stated fails: a 'completed' listener that throws is caught by the
    [catch] of the retry loop.  The handler, which succeeded, is called
    again until the attempts are used up, the job is counted completed three
    times and failed once, and the 'failed' and 'error' listeners are
    notified of the listener's exception. *)
Lemma listener_exception_counterexample :
  let q := on (on (on (process empty "handler").1.1
             OnCompleted (bad "c" boom)) OnFailed (say "f")) OnError (say "e") in
  let s := run q job1 (mkOptions (Some 3) BackoffUndefined)
             [Resolves; Resolves; Resolves] in
  ¬ (invocations s.1.2 = 1%nat
     ∧ completed (counts s.1.1) = 1 ∧ failed (counts s.1.1) = 0
     ∧ notifications s.1.2 = [EvNotify OnCompleted "c" (ArgsCompleted job1)])
  ∧ s.2 = Returned
  ∧ invocations s.1.2 = 3%nat
  ∧ completed (counts s.1.1) = 3 ∧ failed (counts s.1.1) = 1
  ∧ notifications s.1.2
    = [EvNotify OnCompleted "c" (ArgsCompleted job1);
       EvNotify OnCompleted "c" (ArgsCompleted job1);
       EvNotify OnCompleted "c" (ArgsCompleted job1);
       EvNotify OnFailed "f" (ArgsFailed job1 (mkError "boom"));
       EvNotify OnError "e" (ArgsError (mkError "boom"))].
Proof. vm_compute. split; [by intros [? _]|done]. Qed.

Lemma failing_listener_exception_escapes_witness :
  ∃ q' tr,
    run q_bad_failed job1 (mkOptions (Some 2) BackoffUndefined)
      (map Rejects [boom; ThrownValue "late"]) = (q', tr, Threw boom)
    ∧ invocations tr = 2%nat
    ∧ notifications tr
      = calls OnFailed [say "f1"] (ArgsFailed job1 (mkError "late"))
        ++ [EvNotify OnFailed "f2" (ArgsFailed job1 (mkError "late"))]
    ∧ counts q' = count_failed (count_started (counts q_bad_failed)).
Proof.
  refine (proj1 (failing_listener_exception_escapes q_bad_failed job1
    (mkOptions (Some 2) BackoffUndefined) "handler" 2
    [boom; ThrownValue "late"] (ThrownValue "late") boom
    [say "f1"] [] (bad "f2" boom)
    eq_refl eq_refl _ _ eq_refl eq_refl (quiet_say "f1")) eq_refl eq_refl).
  - discriminate.
  - cbv. repeat split; discriminate.
Defined.

Lemma process_starts_buffer_in_order_witness :
  let items := [("a", mkOptions (Some 3) BackoffUndefined);
                ("b", mkOptions None (BackoffNumber 5))] in
  pending (add_all q_new items) = pending q_new ++ numbered (nextId q_new) items
  ∧ map (λ p, data p.1) (numbered (nextId q_new) items) = map fst items
  ∧ ∃ q',
      process (add_all q_new items) "handler"
      = (q', map (λ p, EvInvoke "handler" p.1) (pending (add_all q_new items)),
         map (λ p, (p.1, p.2, AwaitHandler 1)) (pending (add_all q_new items)))
      ∧ pending q' = []
      ∧ handler q' = Some "handler".
Proof.
  exact (process_starts_buffer_in_order q_new "handler" _ eq_refl).
Defined.

(** Two jobs buffered and then drained: the handler is called for job 1,
    then for job 2. *)
Example process_two_jobs :
  (process (add_all q_new [("a", mkOptions (Some 3) BackoffUndefined);
                           ("b", mkOptions None (BackoffNumber 5))]) "handler").1.2
  = [EvInvoke "handler" (mkJob 1 "a"); EvInvoke "handler" (mkJob 2 "b")].
Proof. reflexivity. Qed.

End Examples.

End QueueFacts.

(** * Properties of the webhook dispatch *)

Module RoutesFacts.
Import Js Routes.

Section Dispatch.
Variable JSON_stringify : JValue → string.
Variable validateZoomWebhook : string → string → string → string → bool.
Variable zoomWebhookSecretToken : string.

Abbreviation webhook := (webhook_zoom JSON_stringify validateZoomWebhook zoomWebhookSecretToken).

(** The jobs of a response are those of the dispatch, if it came to it. *)
Lemma webhook_enqueued (req : Request) :
  enqueued (webhook req) = [] ∨ enqueued (webhook req) = (dispatch (body req)).1.
Proof.
  unfold webhook_zoom.
  destruct (_ || _); [by left|]. destruct (negb _); [by left|].
  right. by destruct (dispatch (body req)) as [es [t|[]]].
Qed.

Lemma bind_silent {A B} (m : Eff A) (f : A → Eff B) :
  m.1 = [] → (∀ a, (f a).1 = []) → (m ≫= f).1 = [].
Proof.
  destruct m as [es [t|a]]; cbn; intros -> Hf; [done|].
  specialize (Hf a). by destruct (f a) as [es' r]; cbn in *; subst.
Qed.

Lemma bind_read {B} (v : JValue) (f : JValue → Eff B) :
  read (inr v) ≫= f = f v.
Proof. unfold read, mbind, eff_bind. by destruct (f v). Qed.

Lemma bind_ret {A B} (a : A) (f : A → Eff B) :
  mret a ≫= f = f a.
Proof. unfold mret, eff_ret, mbind, eff_bind. by destruct (f a). Qed.

(** A [console.log] line enqueues nothing; it returns when its value can be
    converted, and throws when it cannot. *)
Lemma logged_silent (v : JValue) : (logged v).1 = [].
Proof. unfold logged, printed. by destruct (unprintable v). Qed.

Lemma logged_printable (v : JValue) :
  unprintable v = false → logged v = mret tt.
Proof. unfold logged, printed. by intros ->. Qed.

Lemma logged_unprintable (v : JValue) :
  unprintable v = true →
  logged v = throw (TypeError "Cannot convert object to primitive value").
Proof. unfold logged, printed. by intros ->. Qed.

Lemma logged_str (s : string) : logged (JStr s) = mret tt.
Proof. done. Qed.

(** The first clause for 'phone.callee_call_log_completed' enqueues nothing. *)
Lemma case_call_log_completed_silent (event : JValue) :
  (case_call_log_completed event).1 = [].
Proof.
  unfold case_call_log_completed, first_call_log, payload_object.
  repeat (apply bind_silent; [try done; try apply logged_silent|intros ?]);
    try done.
  by case_match; repeat (apply bind_silent; [try done|intros ?]).
Qed.

(** A [switch] on this tag runs the first of the two clauses that carry it. *)
Lemma dispatch_call_log_completed (event : JValue) :
  prop event "event" = inr (JStr "phone.callee_call_log_completed") →
  dispatch event = case_call_log_completed event.
Proof.
  intros Hev. unfold dispatch.
  by rewrite Hev, bind_read, logged_str, bind_ret, bind_read.
Qed.

Lemma call_log_completed_never_enqueues (req : Request) :
  prop (body req) "event" = inr (JStr "phone.callee_call_log_completed") →
  enqueued (webhook req) = [].
Proof.
  intros Hev. destruct (webhook_enqueued req) as [->| ->]; [done|].
  rewrite dispatch_call_log_completed by done.
  apply case_call_log_completed_silent.
Qed.

(** C10: a 'phone.callee_ended' or 'phone.caller_ended' event whose payload
    object has neither a [handup_result] nor a [result] property enqueues no
    job: the dispatch takes the "answered" branch, which only prints. *)
Theorem ended_without_result_enqueues_nothing
    (req : Request) (tag : string) (payload : JValue)
    (props : list (string * JValue)) :
  prop (body req) "event" = inr (JStr tag) →
  tag = "phone.callee_ended" ∨ tag = "phone.caller_ended" →
  prop (body req) "payload" = inr payload →
  prop payload "object" = inr (JObj props) →
  own "handup_result" props = None →
  own "result" props = None →
  (dispatch (body req)).1 = []
  ∧ enqueued (webhook req) = [].
Proof.
  intros Hev Htag Hpl Hobj Hh Hr.
  assert ((dispatch (body req)).1 = []) as Hd.
  { unfold dispatch. rewrite Hev, bind_read, logged_str, bind_ret, bind_read.
    assert (switch (JStr tag) clauses case_default (body req)
            = case_ended (body req)) as ->.
    { by destruct Htag as [-> | ->]. }
    unfold case_ended, payload_object.
    rewrite Hpl, bind_read, Hobj, bind_read.
    unfold prop. rewrite Hh, Hr. cbn [default from_option].
    rewrite !bind_read.
    change (or (or JUndefined JUndefined) (JStr "")) with (JStr "").
    cbn [is_str String.eqb Ascii.eqb orb Bool.eqb].
    change (includes (toLowerCase "") "missed") with false.
    rewrite bind_ret, logged_str, bind_ret.
    apply logged_silent. }
  split; [done|].
  destruct (webhook_enqueued req) as [->| ->]; [done|]. by rewrite Hd.
Qed.

End Dispatch.

Section Examples.
Import Fixtures.

(** C1 fails on the code.  The [switch] has two clauses labelled
    'phone.callee_call_log_completed'; the first one only logs and breaks,
    so the second one, which would enqueue the sales call, is never run:
    for an answered call the handler answers 200 and enqueues nothing. *)
Theorem call_log_completed_enqueues_nothing :
  webhook_zoom stringify_stub accept_all "secret" (signed call_log_event)
  = mkResponse 200 []
  ∧ case_call_log_completed_2 call_log_event
    = ([addSalesCall (mkQueueJob sales_call call_log_event)], inr tt).
Proof. split; reflexivity. Qed.

Lemma ended_without_result_enqueues_nothing_witness :
  (dispatch (body (signed ended_event))).1 = []
  ∧ enqueued (webhook_zoom stringify_stub accept_all "secret" (signed ended_event)) = [].
Proof.
  apply (ended_without_result_enqueues_nothing stringify_stub accept_all "secret"
    (signed ended_event) "phone.caller_ended"
    (JObj [("object", JObj [("call_id", JStr "c2")])]) [("call_id", JStr "c2")]);
    try reflexivity.
  right. reflexivity.
Defined.

(** The rows of the classification table that the code does follow. *)
Example ended_missed :
  (dispatch (JObj [("event", JStr "phone.callee_ended");
     ("payload", JObj [("object", JObj [("result", JStr "Call MISSED by callee")])])])).2
  = inr tt
  ∧ length (dispatch (JObj [("event", JStr "phone.callee_ended");
     ("payload", JObj [("object", JObj [("result", JStr "Call MISSED by callee")])])])).1
  = 1%nat.
Proof. split; reflexivity. Qed.

Example ended_answered :
  dispatch (JObj [("event", JStr "phone.callee_ended");
     ("payload", JObj [("object", JObj [("handup_result", JStr "Answered")])])])
  = ([], inr tt).
Proof. reflexivity. Qed.

End Examples.

End RoutesFacts.

(** * Properties of the upsert protocol *)

Module GraphFacts.
Import Js Graph.

Section Store.

Lemma set_script_same (w : World) : set_script (script w) w = w.
Proof. by destruct w. Qed.

(** A request in a calm world is just served. *)
Lemma request_calm {A} (r : Request) (serve : World → World * (JsError + A)) (w : World) :
  script w = [] →
  request r serve w
  = (record (Sent r (succeeded (serve w).2)) (serve w).1,
     match (serve w).2 with inl e => inl (ThrownError e) | inr a => inr a end).
Proof.
  intros Hs. unfold request. rewrite Hs. cbn [interfere].
  rewrite <- Hs, set_script_same. by destruct (serve w) as [w' res].
Qed.


Lemma patch_item_other (itemId : string) (updates : gmap string JValue)
    (its : list ListItem) :
  itemId ∉ map item_id its → map (patch_item itemId updates) its = its.
Proof.
  induction its as [|it its IH]; [done|]. cbn. intros Hnot.
  apply not_elem_of_cons in Hnot as [Hne Hnot].
  rewrite IH by done. unfold patch_item.
  destruct (String.eqb_spec (item_id it) itemId); [by subst|done].
Qed.

Lemma has_call_id_with_owner (c : string) (id : string) (o : option (list Z))
    (fs : gmap string JValue) :
  has_call_id c (mkItem id (with_owner o fs)) = has_call_id c (mkItem id fs).
Proof.
  unfold has_call_id, with_owner. cbn.
  destruct o as [[|z zs]|]; try done. by rewrite lookup_insert_ne.
Qed.

Lemma with_owner_lookup (o : option (list Z)) (fs : gmap string JValue) (k : string) :
  k ≠ "Owner" → with_owner o fs !! k = fs !! k.
Proof.
  intros Hk. unfold with_owner. destruct o as [[|z zs]|]; try done.
  by rewrite lookup_insert_ne.
Qed.

Lemma patch_item_empty (itemId : string) (its : list ListItem) :
  map (patch_item itemId ∅) its = its.
Proof.
  induction its as [|[id fs] its IH]; [done|]. cbn. rewrite IH.
  unfold patch_item. cbn. destruct (String.eqb id itemId); [|done].
  by rewrite (left_id_L ∅ (∪)).
Qed.

Lemma size_zero_empty (m : gmap string JValue) :
  (0 <? Z.of_nat (size m)) = false → m = ∅.
Proof. intros H. apply map_size_empty_iff. apply Z.ltb_ge in H. lia. Qed.

Lemma found_exists (c : string) (its : list ListItem) (it : ListItem)
    (rest : list ListItem) :
  List.filter (has_call_id c) its = it :: rest →
  existsb (λ x, String.eqb (item_id x) (item_id it)) its = true.
Proof.
  intros Hf. apply existsb_exists. exists it. split; [|apply String.eqb_refl].
  apply (proj1 (filter_In (has_call_id c) it its)).
  rewrite Hf. by left.
Qed.

End Store.

Section Upsert.

(** [createSalesCallItem] in a calm world, when no item has the call id (or
    the call id is empty, so that none is looked for): one item is added. *)
Lemma createSalesCallItem_creates (w : World) (a : SalesCallItem.t) :
  script w = [] →
  (nonempty (SalesCallItem.callId a) = true →
   List.filter (has_call_id (SalesCallItem.callId a)) (salesCalls w) = []) →
  ∃ w1,
    createSalesCallItem a w = (w1, inr (pretty (counter w)))
    ∧ salesCalls w1
      = salesCalls w ++ [mkItem (pretty (counter w)) (sales_call_fields a)]
    ∧ salesLeads w1 = salesLeads w
    ∧ counter w1 = (counter w + 1)%N
    ∧ script w1 = [].
Proof.
  intros Hs Hnone.
  unfold createSalesCallItem, try_catch, mbind, M_bind.
  destruct (nonempty (SalesCallItem.callId a)) eqn:Hne.
  - unfold find_items. rewrite request_calm by done. cbn [fst snd items succeeded].
    rewrite Hnone by done. cbn [mret M_ret].
    unfold post_item. rewrite request_calm by done. cbn.
    eexists. split; [done|]. by cbn.
  - cbn [mret M_ret].
    unfold post_item. rewrite request_calm by done. cbn.
    eexists. split; [done|]. by cbn.
Qed.

(** [createSalesCallItem] in a calm world, when an item has the call id:
    the first such item is patched with the [updates], nothing is added. *)
Lemma createSalesCallItem_updates (w : World) (b : SalesCallItem.t)
    (it : ListItem) (rest : list ListItem) :
  script w = [] →
  nonempty (SalesCallItem.callId b) = true →
  List.filter (has_call_id (SalesCallItem.callId b)) (salesCalls w) = it :: rest →
  ∃ w2,
    createSalesCallItem b w = (w2, inr (item_id it))
    ∧ salesCalls w2
      = map (patch_item (item_id it) (sales_call_updates b)) (salesCalls w)
    ∧ salesLeads w2 = salesLeads w
    ∧ counter w2 = counter w
    ∧ script w2 = [].
Proof.
  intros Hs Hne Hfound.
  unfold createSalesCallItem, try_catch, mbind, M_bind. rewrite Hne.
  unfold find_items. rewrite request_calm by done. cbn [fst snd items succeeded].
  rewrite Hfound.
  destruct (0 <? Z.of_nat (size (sales_call_updates b))) eqn:Hsize.
  - unfold patch_fields. rewrite request_calm by done. cbn [fst snd items record salesCalls].
    rewrite (found_exists _ _ _ _ Hfound). cbn.
    eexists. split; [done|]. by cbn.
  - cbn. eexists. split; [done|]. cbn.
    by rewrite (size_zero_empty _ Hsize), patch_item_empty.
Qed.

Lemma createSalesLeadItem_creates (w : World) (x : SalesLeadItem.t) :
  script w = [] →
  (nonempty (SalesLeadItem.callId x) = true →
   List.filter (has_call_id (SalesLeadItem.callId x)) (salesLeads w) = []) →
  ∃ w1,
    createSalesLeadItem x w = (w1, inr (pretty (counter w), None))
    ∧ salesLeads w1
      = salesLeads w ++ [mkItem (pretty (counter w)) (sales_lead_fields x)]
    ∧ salesCalls w1 = salesCalls w
    ∧ counter w1 = (counter w + 1)%N
    ∧ script w1 = [].
Proof.
  intros Hs Hnone.
  unfold createSalesLeadItem, try_catch, mbind, M_bind.
  destruct (nonempty (SalesLeadItem.callId x)) eqn:Hne.
  - unfold find_items. rewrite request_calm by done. cbn [fst snd items succeeded].
    rewrite Hnone by done. cbn [mret M_ret].
    unfold post_item. rewrite request_calm by done. cbn.
    eexists. split; [done|]. by cbn.
  - cbn [mret M_ret].
    unfold post_item. rewrite request_calm by done. cbn.
    eexists. split; [done|]. by cbn.
Qed.

Lemma createSalesLeadItem_updates (w : World) (y : SalesLeadItem.t)
    (it : ListItem) (rest : list ListItem) :
  script w = [] →
  nonempty (SalesLeadItem.callId y) = true →
  List.filter (has_call_id (SalesLeadItem.callId y)) (salesLeads w) = it :: rest →
  ∃ w2,
    createSalesLeadItem y w = (w2, inr (item_id it, found_planner_task_id it))
    ∧ salesLeads w2
      = map (patch_item (item_id it) (sales_lead_updates y)) (salesLeads w)
    ∧ salesCalls w2 = salesCalls w
    ∧ counter w2 = counter w
    ∧ script w2 = [].
Proof.
  intros Hs Hne Hfound.
  unfold createSalesLeadItem, try_catch, mbind, M_bind. rewrite Hne.
  unfold find_items. rewrite request_calm by done. cbn [fst snd items succeeded].
  rewrite Hfound. unfold sales_lead_updates.
  destruct (present (SalesLeadItem.transcript y)) eqn:Ht.
  - unfold patch_fields. rewrite request_calm by done. cbn [fst snd items record salesLeads].
    rewrite (found_exists _ _ _ _ Hfound). cbn.
    eexists. split; [done|]. by cbn.
  - cbn. eexists. split; [done|]. cbn. by rewrite patch_item_empty.
Qed.

(** What the [updates] of a sales call hold. *)
Lemma sales_call_updates_lookup (b : SalesCallItem.t) :
  sales_call_updates b !! "RecordingUrl"
  = (if present (SalesCallItem.recordingLink b)
     then Some (JStr (or_empty (SalesCallItem.recordingLink b))) else None)
  ∧ sales_call_updates b !! "TranscriptUrl"
    = (if present (SalesCallItem.transcript b)
       then Some (JStr (or_empty (SalesCallItem.transcript b))) else None)
  ∧ sales_call_updates b !! "AiSummary"
    = (if present (SalesCallItem.aiSummary b)
       then Some (JStr (or_empty (SalesCallItem.aiSummary b))) else None)
  ∧ sales_call_updates b !! "Status"
    = (if nonempty (SalesCallItem.status b)
       then Some (JStr (SalesCallItem.status b)) else None)
  ∧ ∀ k, k ∉ ["RecordingUrl"; "TranscriptUrl"; "AiSummary"; "Status"] →
         sales_call_updates b !! k = None.
Proof.
  unfold sales_call_updates.
  destruct (present (SalesCallItem.recordingLink b)),
    (present (SalesCallItem.transcript b)),
    (present (SalesCallItem.aiSummary b)),
    (nonempty (SalesCallItem.status b));
    (repeat split; try (by simplify_map_eq));
    intros k Hk; repeat (apply not_elem_of_cons in Hk as [? Hk]);
    by simplify_map_eq.
Qed.

Lemma sales_call_fields_lookup (a : SalesCallItem.t) :
  sales_call_fields a !! "CallId" = Some (JStr (SalesCallItem.callId a))
  ∧ sales_call_fields a !! "RecordingUrl"
    = Some (JStr (or_empty (SalesCallItem.recordingLink a)))
  ∧ sales_call_fields a !! "TranscriptUrl"
    = Some (JStr (or_empty (SalesCallItem.transcript a)))
  ∧ sales_call_fields a !! "AiSummary"
    = Some (JStr (or_empty (SalesCallItem.aiSummary a)))
  ∧ sales_call_fields a !! "Status" = Some (JStr (SalesCallItem.status a)).
Proof.
  unfold sales_call_fields. rewrite !with_owner_lookup by done.
  repeat split; by simplify_map_eq.
Qed.

Lemma sales_lead_fields_lookup (x : SalesLeadItem.t) :
  sales_lead_fields x !! "CallId" = Some (JStr (SalesLeadItem.callId x))
  ∧ sales_lead_fields x !! "VoicemailTranscript"
    = Some (JStr (or_empty (SalesLeadItem.transcript x)))
  ∧ sales_lead_fields x !! "PlannerTaskId" = None.
Proof.
  unfold sales_lead_fields. rewrite !with_owner_lookup by done.
  repeat split; by simplify_map_eq.
Qed.

Lemma has_call_id_lookup (c id : string) (fs : gmap string JValue) :
  fs !! "CallId" = Some (JStr c) → has_call_id c (mkItem id fs) = true.
Proof. intros H. unfold has_call_id. cbn. rewrite H. apply String.eqb_refl. Qed.

Lemma present_or_empty (o : option string) :
  present o = false → or_empty o = "".
Proof. destruct o as [s|]; [|done]. cbn. by intros ->. Qed.

(** The one item with a call id after an upsert patched the item that a
    first upsert had appended. *)
Lemma patched_last (c id : string) (its : list ListItem)
    (fs updates : gmap string JValue) :
  List.filter (has_call_id c) its = [] →
  id ∉ map item_id its →
  fs !! "CallId" = Some (JStr c) →
  updates !! "CallId" = None →
  List.filter (has_call_id c) (its ++ [mkItem id fs]) = [mkItem id fs]
  ∧ map (patch_item id updates) (its ++ [mkItem id fs])
    = its ++ [mkItem id (updates ∪ fs)]
  ∧ List.filter (has_call_id c) (its ++ [mkItem id (updates ∪ fs)])
    = [mkItem id (updates ∪ fs)].
Proof.
  intros Hnone Hfresh Hfs Hup.
  assert ((updates ∪ fs) !! "CallId" = Some (JStr c)) as Hm.
  { by rewrite lookup_union_r. }
  repeat split.
  - rewrite List.filter_app, Hnone. cbn. by rewrite has_call_id_lookup.
  - rewrite map_app, patch_item_other by done. cbn.
    unfold patch_item. cbn. by rewrite String.eqb_refl.
  - rewrite List.filter_app, Hnone. cbn. by rewrite has_call_id_lookup.
Qed.

(** C5 (as the code has it): two upserts of records with the same non-empty
    call id, in a store that holds no record with it and answers every
    request, leave exactly one record with that id: the first call appends
    it, the second finds it and patches it, returning the same item id.
    For a sales call the stored RecordingUrl, TranscriptUrl, AiSummary and
    Status are those of the second record where it gives a non-empty value
    and those the first call stored otherwise; for a lead the same holds of
    VoicemailTranscript.  Every other field keeps what the first call
    stored. *)
Theorem upsert_twice_one_record (w : World)
    (a b : SalesCallItem.t) (x y : SalesLeadItem.t) :
  script w = [] →
  (SalesCallItem.callId b = SalesCallItem.callId a →
   nonempty (SalesCallItem.callId a) = true →
   List.filter (has_call_id (SalesCallItem.callId a)) (salesCalls w) = [] →
   pretty (counter w) ∉ map item_id (salesCalls w) →
   ∃ w1 w2 stored,
     createSalesCallItem a w = (w1, inr (pretty (counter w)))
     ∧ createSalesCallItem b w1 = (w2, inr (pretty (counter w)))
     ∧ salesCalls w1
       = salesCalls w ++ [mkItem (pretty (counter w)) (sales_call_fields a)]
     ∧ salesCalls w2 = salesCalls w ++ [mkItem (pretty (counter w)) stored]
     ∧ List.filter (has_call_id (SalesCallItem.callId a)) (salesCalls w2)
       = [mkItem (pretty (counter w)) stored]
     ∧ stored !! "RecordingUrl"
       = Some (JStr (if present (SalesCallItem.recordingLink b)
                     then or_empty (SalesCallItem.recordingLink b)
                     else or_empty (SalesCallItem.recordingLink a)))
     ∧ stored !! "TranscriptUrl"
       = Some (JStr (if present (SalesCallItem.transcript b)
                     then or_empty (SalesCallItem.transcript b)
                     else or_empty (SalesCallItem.transcript a)))
     ∧ stored !! "AiSummary"
       = Some (JStr (if present (SalesCallItem.aiSummary b)
                     then or_empty (SalesCallItem.aiSummary b)
                     else or_empty (SalesCallItem.aiSummary a)))
     ∧ stored !! "Status"
       = Some (JStr (if nonempty (SalesCallItem.status b)
                     then SalesCallItem.status b
                     else SalesCallItem.status a))
     ∧ ∀ k, k ∉ ["RecordingUrl"; "TranscriptUrl"; "AiSummary"; "Status"] →
            stored !! k = sales_call_fields a !! k)
  ∧ (SalesLeadItem.callId y = SalesLeadItem.callId x →
     nonempty (SalesLeadItem.callId x) = true →
     List.filter (has_call_id (SalesLeadItem.callId x)) (salesLeads w) = [] →
     pretty (counter w) ∉ map item_id (salesLeads w) →
     ∃ w1 w2 stored,
       createSalesLeadItem x w = (w1, inr (pretty (counter w), None))
       ∧ createSalesLeadItem y w1 = (w2, inr (pretty (counter w), None))
       ∧ salesLeads w1
         = salesLeads w ++ [mkItem (pretty (counter w)) (sales_lead_fields x)]
       ∧ salesLeads w2 = salesLeads w ++ [mkItem (pretty (counter w)) stored]
       ∧ List.filter (has_call_id (SalesLeadItem.callId x)) (salesLeads w2)
         = [mkItem (pretty (counter w)) stored]
       ∧ stored !! "VoicemailTranscript"
         = Some (JStr (if present (SalesLeadItem.transcript y)
                       then or_empty (SalesLeadItem.transcript y)
                       else or_empty (SalesLeadItem.transcript x)))
       ∧ ∀ k, k ≠ "VoicemailTranscript" →
              stored !! k = sales_lead_fields x !! k).
Proof.
  intros Hs. split.
  - intros Hid Hne Hnone Hfresh.
    destruct (createSalesCallItem_creates w a Hs (λ _, Hnone))
      as (w1 & Hc1 & Hl1 & _ & _ & Hs1).
    destruct (sales_call_fields_lookup a) as (Fc & Fr & Ft & Fa & Fst).
    destruct (sales_call_updates_lookup b) as (Ur & Ut & Ua & Ust & Uo).
    assert (sales_call_updates b !! "CallId" = None) as Uc.
    { apply Uo. intros Hin.
      repeat (apply elem_of_cons in Hin as [?|Hin]; [done|]).
      by apply elem_of_nil in Hin. }
    destruct (patched_last _ _ _ _ _ Hnone Hfresh Fc Uc) as (Pf & Pm & Pf').
    destruct (createSalesCallItem_updates w1 b
                (mkItem (pretty (counter w)) (sales_call_fields a)) [] Hs1)
      as (w2 & Hc2 & Hl2 & _ & _ & _).
    { by rewrite Hid. }
    { by rewrite Hid, Hl1. }
    exists w1, w2, (sales_call_updates b ∪ sales_call_fields a).
    cbn [item_id] in *. rewrite Hl2, Hl1, Pm.
    repeat split; try done.
    + rewrite lookup_union, Ur, Fr.
      by destruct (present (SalesCallItem.recordingLink b)).
    + rewrite lookup_union, Ut, Ft.
      by destruct (present (SalesCallItem.transcript b)).
    + rewrite lookup_union, Ua, Fa.
      by destruct (present (SalesCallItem.aiSummary b)).
    + rewrite lookup_union, Ust, Fst.
      by destruct (nonempty (SalesCallItem.status b)).
    + intros k Hk. by rewrite lookup_union_r by auto.
  - intros Hid Hne Hnone Hfresh.
    destruct (createSalesLeadItem_creates w x Hs (λ _, Hnone))
      as (w1 & Hc1 & Hl1 & _ & _ & Hs1).
    destruct (sales_lead_fields_lookup x) as (Fc & Ft & Fp).
    assert (sales_lead_updates y !! "CallId" = None) as Uc.
    { unfold sales_lead_updates. by destruct (present _). }
    destruct (patched_last _ _ _ _ _ Hnone Hfresh Fc Uc) as (Pf & Pm & Pf').
    destruct (createSalesLeadItem_updates w1 y
                (mkItem (pretty (counter w)) (sales_lead_fields x)) [] Hs1)
      as (w2 & Hc2 & Hl2 & _ & _ & _).
    { by rewrite Hid. }
    { by rewrite Hid, Hl1. }
    exists w1, w2, (sales_lead_updates y ∪ sales_lead_fields x).
    cbn [item_id] in *. rewrite Hl2, Hl1, Pm.
    unfold found_planner_task_id in Hc2. cbn [fields] in Hc2. rewrite Fp in Hc2.
    repeat split; try done.
    + rewrite lookup_union, Ft. unfold sales_lead_updates.
      destruct (present _); by simplify_map_eq.
    + intros k Hk. apply lookup_union_r. unfold sales_lead_updates.
      destruct (present _); by simplify_map_eq.
Qed.

End Upsert.

(** ** The conditional patch of the task details *)

Section Details.

Lemma request_journal {A} (r : Request) (serve : World → World * (JsError + A))
    (w : World) :
  (∀ w', journal (serve w').1 = journal w') →
  ∃ ok, journal (request r serve w).1 = journal w ++ [Sent r ok]
        ∧ (ok = true ↔ ∃ a, (request r serve w).2 = inr a).
Proof.
  intros Hserve. unfold request.
  destruct (script w) as [|i rest].
  - cbn [interfere].
    specialize (Hserve (set_script [] w)).
    destruct (serve (set_script [] w)) as [w' [e|a]]; cbn in *.
    + exists false. rewrite Hserve. split; [done|]. split; [done|]. by intros [? ?].
    + exists true. rewrite Hserve. split; [done|]. split; [by eexists|done].
  - destruct i as [|e|tid d].
    + cbn [interfere]. specialize (Hserve (set_script rest w)).
      destruct (serve (set_script rest w)) as [w' [e|a]]; cbn in *.
      * exists false. rewrite Hserve. split; [done|]. split; [done|]. by intros [? ?].
      * exists true. rewrite Hserve. split; [done|]. split; [by eexists|done].
    + exists false. cbn. split; [done|]. split; [done|]. by intros [? ?].
    + specialize (Hserve (interfere (Edit tid d) (set_script rest w))).
      destruct (serve _) as [w' [e|a]]; cbn in *.
      * exists false. rewrite Hserve. split; [done|]. split; [done|]. by intros [? ?].
      * exists true. rewrite Hserve. split; [done|]. split; [by eexists|done].
Qed.





Lemma find_task_edit (taskId description : string) (w : World) (t : Task) :
  find_task taskId w = Some t →
  find_task taskId (set_tasks (map (edit_task taskId description) (tasks w)) w)
  = Some (rewritten description t).
Proof.
  unfold find_task. cbn [tasks set_tasks].
  induction (tasks w) as [|t' ts IH]; [done|]. cbn.
  unfold edit_task at 1.
  destruct (String.eqb (task_id t') taskId) eqn:E; cbn.
  - rewrite E. intros [= ->]. unfold edit_task. by rewrite E.
  - by rewrite E.
Qed.



Section Loop.
Variables (taskId details : string) (existingTaskId : option string).
Variables (w : World) (t : Task) (d1 d2 : string) (rest : list Interference).
Hypothesis Htask : find_task taskId w = Some t.




End Loop.

(** [createPlannerTask] for an existing task runs the loop and returns the
    task id, or rethrows what the loop throws. *)
Lemma createPlannerTask_existing (plannerPlanId title details taskId : string)
    (dueDate : option string) (w : World) :
  nonempty details = true → nonempty taskId = true →
  createPlannerTask plannerPlanId title details dueDate (Some taskId) w
  = match update_details 3 taskId details (Some taskId) w with
    | (w', inl e) => (w', inl e)
    | (w', inr _) => (w', inr taskId)
    end.
Proof.
  intros Hd Ht. unfold createPlannerTask, try_catch, mbind, M_bind.
  cbn [present or_empty]. repeat (rewrite ?Ht, ?Hd; cbn [negb mret M_ret andb]).
  by destruct (update_details 3 taskId details (Some taskId) w) as [w' [e|[]]].
Qed.

End Details.

End GraphFacts.

(** * Properties of the job handlers *)

Module HandlerFacts.
Import Js Graph QueueProcessor GraphFacts.

Section Handlers.

Variable plannerPlanId : string.
Variable teamsWebhookUrl : option string.
Variable html_to_text : string → string.
Variable toISOString : JValue → Thrown + string.
Variable toLocaleString : JValue → string.
Variable now : string.
Variable tomorrow : string.

Abbreviation follow_up' :=
  (follow_up plannerPlanId teamsWebhookUrl html_to_text tomorrow).
Abbreviation processMissedCall' :=
  (processMissedCall plannerPlanId teamsWebhookUrl html_to_text
     toISOString toLocaleString now tomorrow).
Abbreviation processVoicemail' :=
  (processVoicemail plannerPlanId teamsWebhookUrl html_to_text
     toISOString toLocaleString now tomorrow).





(** The payload reads do not touch the store. *)
Lemma lift_bind {A B} (r : Thrown + A) (f : A → M B) (w : World) :
  (lift r ≫= f) w = match r with inl t => (w, inl t) | inr a => f a w end.
Proof. by destruct r. Qed.




End Handlers.

End HandlerFacts.

(** * Runs against a concrete store *)

Module Scenarios.
Import Js Graph QueueProcessor GraphFacts HandlerFacts Fixtures.

Lemma upsert_twice_one_record_witness :
  (∃ w1 w2 stored,
     createSalesCallItem call_logged w_empty = (w1, inr "1")
     ∧ createSalesCallItem call_recorded w1 = (w2, inr "1")
     ∧ salesCalls w2 = [mkItem "1" stored]
     ∧ stored !! "RecordingUrl" = Some (JStr "https://zoom.example/rec/1")
     ∧ stored !! "Status" = Some (JStr "Recorded")
     ∧ stored !! "Contact" = Some (JStr "Alice (555-0100)"))
  ∧ (∃ w1 w2 stored,
       createSalesLeadItem lead_missed w_empty = (w1, inr ("1", None))
       ∧ createSalesLeadItem lead_voicemail w1 = (w2, inr ("1", None))
       ∧ salesLeads w2 = [mkItem "1" stored]
       ∧ stored !! "VoicemailTranscript" = Some (JStr "please call back")
       ∧ stored !! "Title" = Some (JStr "Missed call from Bob")).
Proof.
  destruct (upsert_twice_one_record w_empty call_logged call_recorded
              lead_missed lead_voicemail eq_refl) as [Hcalls Hleads].
  split.
  - destruct (Hcalls eq_refl eq_refl eq_refl (not_elem_of_nil _))
      as (w1 & w2 & stored & H1 & H2 & _ & H4 & _ & Hr & _ & _ & Hst & Hother).
    exists w1, w2, stored. repeat split; try assumption.
    rewrite Hother; [reflexivity|].
    intros Hin. repeat (apply elem_of_cons in Hin as [Hin|Hin]; [discriminate|]).
    by apply elem_of_nil in Hin.
  - destruct (Hleads eq_refl eq_refl eq_refl (not_elem_of_nil _))
      as (w1 & w2 & stored & H1 & H2 & _ & H4 & _ & Ht & Hother).
    exists w1, w2, stored. repeat split; try assumption.
    rewrite Hother; [reflexivity|discriminate].
Defined.

(** C5 as stated fails for the empty call id, which [if (item.callId)]
    takes for no id at all: no record is looked up, and each of two upserts
    creates a record of its own. *)
Lemma upsert_empty_call_id_counterexample :
  let item := SalesCallItem.mk "Alice" "Alice" "Medium" None "Completed"
                "2024-05-01T09:00:00.000Z" None None None "" 42 in
  let w1 := (createSalesCallItem item w_empty).1 in
  let w2 := (createSalesCallItem item w1).1 in
  length (List.filter (has_call_id "") (salesCalls w2)) ≠ 1%nat
  ∧ (createSalesCallItem item w_empty).2 = inr "1"
  ∧ (createSalesCallItem item w1).2 = inr "2"
  ∧ map item_id (salesCalls w2) = ["1"; "2"]
  ∧ length (List.filter (has_call_id "") (salesCalls w2)) = 2%nat.
Proof. by vm_compute. Qed.


(** The journal of the contended run: three attempts, two pauses. *)
Example contended_journal :
  journal (createPlannerTask plan "title" "more details" (Some tomorrow)
             (Some "task-7") w_contended).1
  = [Sent (GetDetails "task-7") true;
     Sent (PatchDetails "task-7" 4
             (new_description (Some "task-7") "Call ID: call-2" "more details")) false;
     Slept 1500;
     Sent (GetDetails "task-7") true;
     Sent (PatchDetails "task-7" 5
             (new_description (Some "task-7") "first edit" "more details")) false;
     Slept 1500;
     Sent (GetDetails "task-7") true;
     Sent (PatchDetails "task-7" 6
             (new_description (Some "task-7") "second edit" "more details")) true].
Proof. by vm_compute. Qed.


(** Scenario A of the specification, with the link-back refused: the lead
    and the task are created, the refused patch is in the journal, the lead
    has no [PlannerTaskId], and the handler has ended normally. *)
Example missed_call_unlinked :
  let s := processMissedCall0 missed_job w_unlinkable in
  s.2 = inr tt
  ∧ map item_id (salesLeads s.1) = ["1"]
  ∧ map task_id (tasks s.1) = ["task-2"]
  ∧ map found_planner_task_id (salesLeads s.1) = [None]
  ∧ last (journal s.1)
    = Some (Sent (PatchFields SalesLeads "1" {[ "PlannerTaskId" := JStr "task-2" ]})
              false).
Proof. by vm_compute. Qed.

(** The same event when the store answers: the new task is linked. *)
Example missed_call_linked :
  let s := processMissedCall0 missed_job w_empty in
  s.2 = inr tt
  ∧ map found_planner_task_id (salesLeads s.1) = [Some "task-2"].
Proof. by vm_compute. Qed.

Example missed_call_conflicts_escalate :
  (processMissedCall0 missed_job w_linked_hopeless).2
  = inl (ThrownError (mkError "PreconditionFailed")).
Proof. by vm_compute. Qed.

End Scenarios.

(** * Further properties of the in-memory queue *)

Module QueueMore.
Import InMemoryQueue QueueFacts QueueViews.

Section Frame.
Context {T H : Type}.
Implicit Types (q : Queue T H) (job : Job T) (o : JobOptions) (h : H).

Lemma only_counts_refl q : only_counts q q.
Proof. exists (counts q). by destruct q. Qed.

Lemma only_counts_trans q1 q2 q3 :
  only_counts q1 q2 → only_counts q2 q3 → only_counts q1 q3.
Proof. intros [c ->] [c' ->]. by exists c'. Qed.

Lemma only_counts_with q c : only_counts q (with_counts q c).
Proof. by exists c. Qed.

Lemma finish_frame q job le : only_counts q (finish q job le).1.1.
Proof. rewrite finish_queue. apply only_counts_with. Qed.

Lemma on_catch_frame (next : Queue T H → Z → option JsError → Step) q o (a : Z) t :
  (∀ q' a' le, only_counts q' (next q' a' le).1.1) →
  only_counts q (on_catch next q o a t).1.1.
Proof.
  intros Hn. unfold on_catch.
  destruct (a <? effective_attempts o); [destruct (0 <? _)|]; auto.
  apply only_counts_with.
Qed.

Lemma loop_frame (fuel : nat) job o q (a : Z) le :
  only_counts q (loop fuel job o q a le).1.1.
Proof.
  revert q a le. induction fuel as [|fuel IH]; intros q a le; cbn;
    destruct (a <=? effective_attempts o); try apply finish_frame.
  - destruct (handler q); [apply only_counts_refl|apply finish_frame].
  - destruct (handler q); [apply only_counts_refl|]. by apply on_catch_frame.
Qed.

Lemma execute_frame q job o : only_counts q (execute q job o).1.1.
Proof.
  unfold execute, loop_at.
  eapply only_counts_trans; [|apply loop_frame]. apply only_counts_with.
Qed.

Lemma resume_frame q job o (st : Exec) (i : Input) :
  only_counts q (resume q job o st i).1.1.
Proof.
  destruct st as [a|a le| |t], i as [[|t']|]; cbn [resume];
    try apply only_counts_refl.
  - destruct (notify OnCompleted _ _) as [tr [t'|]].
    + rewrite prepend_queue.
      eapply only_counts_trans;
        [|apply on_catch_frame; intros; apply loop_frame].
      apply only_counts_with.
    + apply only_counts_with.
  - apply on_catch_frame. intros. apply loop_frame.
  - eapply only_counts_trans; [|apply loop_frame]. apply only_counts_with.
Qed.

Lemma execute_all_frame (queued : list (Job T * JobOptions)) q :
  only_counts q (execute_all q queued).1.1.
Proof.
  revert q. induction queued as [|[job o] queued IH]; intros q.
  - apply only_counts_refl.
  - cbn [execute_all].
    pose proof (execute_frame q job o) as He.
    destruct (execute q job o) as [[q1 tr1] st1].
    specialize (IH q1). destruct (execute_all q1 queued) as [[q2 tr2] sts].
    cbn in *. by eapply only_counts_trans.
Qed.

Lemma ids_ok_only_counts q q' : only_counts q q' → ids_ok q → ids_ok q'.
Proof. by intros [c ->]. Qed.

Lemma ids_ok_add q (d : T) o : ids_ok q → ids_ok (add q d o).1.1.
Proof.
  intros [Hnd Hlt]. unfold add. cbn. destruct (handler q) as [h|].
  - match goal with |- context [execute ?q' ?j ?o'] =>
      pose proof (execute_frame q' j o') as He;
      destruct (execute q' j o') as [[q1 tr1] st1] end.
    cbn in *. apply (ids_ok_only_counts _ _ He). split; [done|].
    cbn. eapply Forall_impl; [exact Hlt|]. cbn. intros; lia.
  - split; cbn.
    + rewrite map_app. apply NoDup_app. split; [done|]. split; [|apply NoDup_singleton].
      intros x Hx Hx'. apply list_elem_of_singleton in Hx'. subst x.
      apply list_elem_of_fmap in Hx as (p & Hp & Hin).
      rewrite Forall_forall in Hlt. specialize (Hlt p Hin). cbn in *. lia.
    + apply Forall_app. split.
      * eapply Forall_impl; [exact Hlt|]. cbn. intros; lia.
      * repeat constructor. cbn. lia.
Qed.

Lemma ids_ok_process q h : ids_ok q → ids_ok (process q h).1.1.
Proof.
  intros Hok. unfold process. cbn [pending].
  destruct (Z.of_nat (length (pending q)) =? 0); [done|].
  eapply ids_ok_only_counts; [apply execute_all_frame|].
  split; cbn; constructor.
Qed.

(** X1: Job ids are never reused: the ids of the buffered jobs are pairwise
    distinct and smaller than the id the next job gets, in the new queue,
    and after every operation on a queue of which it holds. *)
Theorem job_ids_stay_distinct q :
  ids_ok (empty (T:=T) (H:=H))
  ∧ (ids_ok q →
     (∀ d o, ids_ok (add q d o).1.1)
     ∧ (∀ h, ids_ok (process q h).1.1)
     ∧ (∀ job o st i, ids_ok (resume q job o st i).1.1)
     ∧ (∀ ev l, ids_ok (on q ev l))).
Proof.
  split; [split; cbn; constructor|].
  intros Hok. split; [intros; by apply ids_ok_add|].
  split; [intros; by apply ids_ok_process|].
  split; [|done].
  intros job o st i. eapply ids_ok_only_counts; [apply resume_frame|done].
Qed.

Lemma numbered_ids (items : list (T * JobOptions)) (n : Z) :
  map (λ p, id p.1) (numbered n items) = seqZ n (Z.of_nat (length items)).
Proof.
  revert n. induction items as [|[d o] items IH]; intros n; [done|].
  cbn [numbered map length]. rewrite seqZ_cons by lia. cbn. f_equal.
  rewrite IH. f_equal. lia.
Qed.

Lemma add_all_cons q (d : T) o (items : list (T * JobOptions)) :
  add_all q ((d, o) :: items) = add_all (add q d o).1.1 items.
Proof. done. Qed.

Lemma add_all_counts (items : list (T * JobOptions)) q :
  handler q = None →
  nextId (add_all q items) = nextId q + Z.of_nat (length items)
  ∧ (items ≠ [] →
     waiting (counts (add_all q items))
     = Z.of_nat (length (pending (add_all q items))))
  ∧ active (counts (add_all q items)) = active (counts q).
Proof.
  revert q. induction items as [|[d o] items IH]; intros q Hh.
  - cbn. split; [lia|]. by split.
  - rewrite add_all_cons.
    destruct (add_buffers q d o Hh) as (Hh' & Hp & Hn & _).
    destruct (IH _ Hh') as (IHn & IHw & IHa).
    split; [rewrite IHn, Hn; cbn [length]; lia|]. split.
    + intros _. destruct items as [|it items]; [|by apply IHw].
      cbn. unfold add. cbn. by rewrite Hh.
    + rewrite IHa. unfold add. cbn. by rewrite Hh.
Qed.

(** X2: Jobs added while no handler is registered are only buffered: they get
    consecutive ids from the next id on, no job becomes active, and the
    waiting count is the length of the buffer. *)
Theorem add_without_handler_buffers q (items : list (T * JobOptions)) :
  handler q = None →
  map (λ p, id p.1) (drop (length (pending q)) (pending (add_all q items)))
  = seqZ (nextId q) (Z.of_nat (length items))
  ∧ nextId (add_all q items) = nextId q + Z.of_nat (length items)
  ∧ active (counts (add_all q items)) = active (counts q)
  ∧ (items ≠ [] →
     waiting (counts (add_all q items))
     = Z.of_nat (length (pending (add_all q items)))).
Proof.
  intros Hh. destruct (add_all_buffers items q Hh) as (_ & Hp & _).
  destruct (add_all_counts items q Hh) as (Hn & Hw & Ha).
  split; [|done]. rewrite Hp, drop_app_length. apply numbered_ids.
Qed.

(** [execute_all] with a handler: every job leaves the waiting count and
    joins the active count. *)
Lemma execute_all_next q job o (rest : list (Job T * JobOptions)) h :
  handler q = Some h →
  (execute_all q ((job, o) :: rest)).1.1
  = (execute_all (with_counts q (count_started (counts q))) rest).1.1.
Proof.
  intros Hh. cbn [execute_all]. rewrite (execute_first _ _ _ h) by done.
  by destruct (execute_all _ rest) as [[q2 tr2] sts].
Qed.

Lemma execute_all_counts (p : Job T * JobOptions)
    (queued : list (Job T * JobOptions)) q h :
  handler q = Some h →
  counts (execute_all q (p :: queued)).1.1
  = set_active
      (set_waiting (counts q)
         (Z.max 0 (waiting (counts q) - Z.of_nat (length (p :: queued)))))
      (active (counts q) + Z.of_nat (length (p :: queued))).
Proof.
  revert p q. induction queued as [|p' l IH]; intros [job o] q Hh;
    rewrite (execute_all_next _ _ _ _ h) by done.
  - cbn. destruct (counts q); cbn. f_equal; lia.
  - rewrite IH by done. cbn [length counts with_counts].
    rewrite !Nat2Z.inj_succ. destruct (counts q).
    unfold count_started, set_active, set_waiting.
    cbn [waiting active completed failed delayed paused].
    f_equal; lia.
Qed.


(** X4: With a handler registered, [add] starts the job at once: the first
    thing observed is the call of the handler with a job carrying the next
    id.  The job is never buffered and is not left waiting; when [add]
    returns it has not been completed, and it is counted once, as active
    or as failed. *)
Theorem add_with_handler_starts_at_once q h (d : T) o :
  handler q = Some h →
  counts_ok (counts q) →
  ∃ q' tr st,
    add q d o
    = (q', EvInvoke h (mkJob (nextId q) d) :: tr,
       Some (mkJob (nextId q) d, o, st))
    ∧ pending q' = pending q
    ∧ nextId q' = nextId q + 1
    ∧ waiting (counts q') = waiting (counts q)
    ∧ completed (counts q') = completed (counts q)
    ∧ active (counts q') + failed (counts q')
      = active (counts q) + failed (counts q) + 1.
Proof.
  intros Hh (Hw & _). unfold add. cbn [handler]. rewrite Hh.
  rewrite (execute_first _ _ _ h) by done.
  eexists _, _, _. split; [done|]. cbn. repeat split; lia.
Qed.

(** After [process], the buffer is empty whatever it held. *)
Lemma process_empties q h : pending (process q h).1.1 = [].
Proof.
  unfold process. cbn [pending].
  destruct (Z.eqb_spec (Z.of_nat (length (pending q))) 0) as [E|_].
  - cbn. by destruct (pending q).
  - match goal with |- context [execute_all ?q0 ?l] =>
      destruct (execute_all_frame l q0) as [c ->] end. done.
Qed.

Lemma process_handler q h : handler (process q h).1.1 = Some h.
Proof.
  unfold process. cbn [pending].
  destruct (Z.of_nat (length (pending q)) =? 0); [done|].
  match goal with |- context [execute_all ?q0 ?l] =>
    destruct (execute_all_frame l q0) as [c ->] end. done.
Qed.

(** X5: Registering a second handler replaces the first: the second [process]
    starts nothing and changes no counter, and the jobs added from then on
    are given to the second handler only. *)
Theorem process_again_replaces_handler q h1 h2 (d : T) o :
  let q1 := (process q h1).1.1 in
  ∃ q2,
    process q1 h2 = (q2, [], [])
    ∧ handler q2 = Some h2
    ∧ counts q2 = counts q1
    ∧ (add q2 d o).1.2 = [EvInvoke h2 (mkJob (nextId q) d)].
Proof.
  intros q1.
  assert (pending q1 = []) as Hp by apply process_empties.
  assert (nextId q1 = nextId q) as Hn.
  { unfold q1, process. cbn [pending].
    destruct (Z.of_nat (length (pending q)) =? 0); [done|].
    match goal with |- context [execute_all ?q0 ?l] =>
      destruct (execute_all_frame l q0) as [c ->] end. done. }
  unfold process at 1. cbn [pending]. rewrite Hp. cbn.
  eexists. split; [done|]. cbn. split; [done|]. split; [done|].
  unfold add. cbn. unfold execute, loop_at.
  rewrite (loop_handler _ _ _ _ _ _ h2) by done.
  pose proof (effective_attempts_pos o).
  destruct (Z.leb_spec 1 (effective_attempts o)); [|lia]. cbn. by rewrite Hn.
Qed.

(** X6: The six counters never become negative. *)
Theorem counters_stay_nonnegative q :
  counts_ok (counts q) →
  (∀ d o, counts_ok (counts (add q d o).1.1))
  ∧ (∀ h, counts_ok (counts (process q h).1.1))
  ∧ (∀ job o, counts_ok (counts (execute q job o).1.1))
  ∧ (∀ job o st i, counts_ok (counts (resume q job o st i).1.1)).
Proof.
  intros Hc. split; [intros; by apply add_ok|].
  split; [intros; by apply process_ok|].
  split; [intros; by apply execute_ok|intros; by apply resume_ok].
Qed.

(** ** The delays of a failing run *)

Lemma sleeps_app (tr1 tr2 : list (Event T H)) :
  sleeps (tr1 ++ tr2) = sleeps tr1 ++ sleeps tr2.
Proof. unfold sleeps. apply omap_app. Qed.

Lemma calls_sleeps ev (ls : list (Listener T)) (a : Args T) :
  sleeps (calls (H:=H) ev ls a) = [].
Proof. by induction ls. Qed.

(** The delays slept by [n] retries from attempt [a] on: the positive ones
    among the backoff delays of the attempts [a], ..., [a + n - 1]. *)
Lemma retries_sleeps h job o (a : Z) (n : nat) :
  sleeps (retries h job o a n)
  = List.filter (λ d, 0 <? d)
      (map (getBackoffDelay (backoff o)) (seqZ a (Z.of_nat n))).
Proof.
  revert a. induction n as [|n IH]; intros a; [done|].
  cbn [retries]. rewrite sleeps_app, IH.
  rewrite (seqZ_cons a (Z.of_nat (S n))) by lia. cbn [map List.filter].
  replace (Z.pred (Z.of_nat (S n))) with (Z.of_nat n) by lia.
  replace (Z.succ a) with (a + 1) by lia.
  unfold retry_events. by destruct (0 <? getBackoffDelay (backoff o) a).
Qed.

Lemma filter_all {A} (f : A → bool) (l : list A) :
  Forall (λ x, f x = true) l → List.filter f l = l.
Proof. induction 1 as [|x l Hx _ IH]; [done|]. cbn. by rewrite Hx, IH. Qed.

Lemma foldr_add_start (l : list Z) (b : Z) :
  foldr Z.add b l = foldr Z.add 0 l + b.
Proof. induction l as [|x l IH]; cbn; [|rewrite IH]; lia. Qed.

Lemma sum_powers (D : Z) (n : nat) :
  foldr Z.add 0 (map (λ k, D * 2 ^ (k - 1)) (seqZ 1 (Z.of_nat n)))
  = D * (2 ^ Z.of_nat n - 1).
Proof.
  induction n as [|n IH].
  { change (Z.of_nat 0) with 0. rewrite seqZ_nil by lia. cbn [map foldr].
    rewrite Z.pow_0_r. lia. }
  rewrite seqZ_S, map_app, foldr_app. cbn [map foldr].
  rewrite foldr_add_start, IH.
  replace (1 + Z.of_nat n - 1) with (Z.of_nat n) by lia.
  rewrite Nat2Z.inj_succ, Z.pow_succ_r by lia. lia.
Qed.

Lemma exponential_delays (D a : Z) (n : nat) :
  0 < D → 1 <= a →
  List.filter (λ d, 0 <? d)
    (map (getBackoffDelay (BackoffOptions "exponential" (Some D)))
       (seqZ a (Z.of_nat n)))
  = map (λ k, D * 2 ^ (k - 1)) (seqZ a (Z.of_nat n)).
Proof.
  intros HD Ha. rewrite filter_all; [done|].
  apply List.Forall_forall. intros d Hd.
  apply in_map_iff in Hd as (k & <- & Hk).
  apply (proj2 (list_elem_of_In _ _)) in Hk.
  apply list_elem_of_lookup in Hk as [i Hi].
  apply lookup_seqZ in Hi as [-> _]. cbn.
  apply Z.ltb_lt. apply Z.mul_pos_pos; [done|]. apply Z.pow_pos_nonneg; lia.
Qed.

(** X7: A job all of whose [N] attempts throw sleeps [N - 1] times at most,
    never after the last attempt: the delays are the positive ones among
    the backoff delays of the attempts [1], ..., [N - 1].  With an
    exponential backoff of base [D > 0] they are [D], [2 D], [4 D], ...,
    which add up to [D (2^(N-1) - 1)].  Afterwards no job counts as
    delayed any more. *)
Theorem failing_run_sleeps q job o h (N : Z) (errs : list Thrown) :
  handler q = Some h → attempts o = Some N → 1 <= N →
  counts_ok (counts q) →
  quiet (on_failed (listeners q)) →
  quiet (on_error (listeners q)) →
  Z.of_nat (length errs) = N →
  sleeps (run q job o (map Rejects errs)).1.2
  = List.filter (λ d, 0 <? d)
      (map (getBackoffDelay (backoff o)) (seqZ 1 (N - 1)))
  ∧ delayed (counts (run q job o (map Rejects errs)).1.1) = delayed (counts q)
  ∧ (∀ D, backoff o = BackoffOptions "exponential" (Some D) → 0 < D →
       sleeps (run q job o (map Rejects errs)).1.2
       = map (λ k, D * 2 ^ (k - 1)) (seqZ 1 (N - 1))
       ∧ foldr Z.add 0 (sleeps (run q job o (map Rejects errs)).1.2)
         = D * (2 ^ (N - 1) - 1)).
Proof.
  intros Hh HN H1 Hc Hqf Hqe Hlen.
  pose proof (effective_attempts_some _ _ HN H1) as HE.
  assert (∃ errs' e, errs = errs' ++ [e]) as (errs' & e & ->).
  { destruct errs as [|e0 errs] using rev_ind; [cbn in Hlen; lia|by eexists _, _]. }
  rewrite (run_all_rejected _ _ _ h) by (done || lia).
  rewrite finish_quiet by done. cbn [prepend fst snd].
  rewrite length_app in Hlen. cbn in Hlen.
  assert (N - 1 = Z.of_nat (length errs')) as -> by lia.
  match goal with |- sleeps ?tr = _ ∧ _ =>
    assert (sleeps tr
            = List.filter (λ d, 0 <? d)
                (map (getBackoffDelay (backoff o))
                   (seqZ 1 (Z.of_nat (length errs'))))) as Hsl end.
  { change (EvInvoke h job :: ?l) with ([EvInvoke h job] ++ l).
    rewrite !sleeps_app, !calls_sleeps, retries_sleeps. cbn. by rewrite app_nil_r. }
  split; [exact Hsl|]. split; [done|].
  intros D HD Hpos. rewrite Hsl, HD, exponential_delays by (done || lia).
  split; [done|]. apply sum_powers.
Qed.

End Frame.

(** ** On concrete queues *)

(** ** The counters under any interleaving *)

Section System.
Context {T H : Type}.
Implicit Types (q : Queue T H) (s : Sys T H) (st : Exec).
Implicit Types (l : list (Job T * JobOptions * Exec)).

Lemma number_app (p : Exec → bool) l1 l2 :
  number p (l1 ++ l2) = number p l1 + number p l2.
Proof. unfold number. rewrite List.filter_app, length_app. lia. Qed.

Lemma number_cons (p : Exec → bool) (x : Job T * JobOptions * Exec) l :
  number p (x :: l) = Z.b2z (p x.2) + number p l.
Proof. unfold number. cbn. destruct (p x.2); cbn [length Z.b2z]; lia. Qed.

Lemma number_insert (p : Exec → bool) l (k : nat) (job : Job T) o st st' :
  l !! k = Some (job, o, st) →
  number p (<[k := (job, o, st')]> l)
  = number p l - Z.b2z (p st) + Z.b2z (p st').
Proof.
  revert k. induction l as [|x l IH]; intros [|k] Hk; try done.
  - injection Hk as ->.
    change (<[0%nat := (job, o, st')]> ((job, o, st) :: l))
      with ((job, o, st') :: l).
    rewrite !number_cons. cbn [snd]. lia.
  - change (<[S k := (job, o, st')]> (x :: l))
      with (x :: <[k := (job, o, st')]> l).
    rewrite !number_cons, (IH k Hk). lia.
Qed.

Lemma number_pos (p : Exec → bool) l (k : nat) (job : Job T) o st :
  l !! k = Some (job, o, st) → p st = true → 1 <= number p l.
Proof.
  revert k. induction l as [|x l IH]; intros [|k] Hk Hp; try done.
  - injection Hk as ->. rewrite number_cons. cbn [snd]. rewrite Hp.
    unfold number. cbn [Z.b2z]. lia.
  - specialize (IH k Hk Hp). rewrite number_cons.
    destruct (p x.2); cbn [Z.b2z]; lia.
Qed.

Lemma number_started (p : Exec → bool) (queued : list (Job T * JobOptions)) :
  number p (map (λ x, (x.1, x.2, AwaitHandler 1)) queued)
  = if p (AwaitHandler 1) then Z.of_nat (length queued) else 0.
Proof.
  unfold number. induction queued as [|x queued IH]; cbn.
  { by destruct (p _). }
  destruct (p (AwaitHandler 1)); cbn [length]; lia.
Qed.

(** The loop entered with a handler and listeners that do not throw. *)
Lemma loop_at_sound (job : Job T) o q (a : Z) le h :
  handler q = Some h →
  quiet (on_failed (listeners q)) → quiet (on_error (listeners q)) →
  ∃ tr,
    loop_at job o q a le
    = if a <=? effective_attempts o
      then (q, tr, AwaitHandler a)
      else (with_counts q (count_failed (counts q)), tr, Returned).
Proof.
  intros Hh Hf He. unfold loop_at. rewrite (loop_handler _ _ _ _ _ _ h) by done.
  destruct (a <=? effective_attempts o); [by eexists|].
  rewrite finish_quiet by done. by eexists.
Qed.

(** What a resumption does to the counters. *)
Lemma resume_exact q (job : Job T) o st (i : Input) h :
  handler q = Some h →
  quiet (on_completed (listeners q)) →
  quiet (on_failed (listeners q)) → quiet (on_error (listeners q)) →
  (live st = true → 1 <= active (counts q)) →
  (asleep st = true → 1 <= delayed (counts q)) →
  ∃ c' tr st',
    resume q job o st i = (with_counts q c', tr, st')
    ∧ waiting c' = waiting (counts q) ∧ paused c' = paused (counts q)
    ∧ active c' = active (counts q) - Z.b2z (live st) + Z.b2z (live st')
    ∧ delayed c' = delayed (counts q) - Z.b2z (asleep st) + Z.b2z (asleep st')
    ∧ completed c' + failed c'
      = completed (counts q) + failed (counts q)
        - Z.b2z (over st) + Z.b2z (over st').
Proof.
  intros Hh Hc Hf He Hact Hdel.
  assert (∃ c' tr st',
            (q, @nil (Event T H), st) = (with_counts q c', tr, st')
            ∧ waiting c' = waiting (counts q) ∧ paused c' = paused (counts q)
            ∧ active c' = active (counts q) - Z.b2z (live st) + Z.b2z (live st')
            ∧ delayed c'
              = delayed (counts q) - Z.b2z (asleep st) + Z.b2z (asleep st')
            ∧ completed c' + failed c'
              = completed (counts q) + failed (counts q)
                - Z.b2z (over st) + Z.b2z (over st')) as Hidle.
  { exists (counts q), [], st. rewrite with_counts_same.
    repeat split; try done; lia. }
  destruct st as [a|a le| |t], i as [[|t']|]; cbn [resume]; try exact Hidle;
    clear Hidle.
  - (* the handler's promise resolves *)
    cbn [with_counts listeners]. rewrite notify_quiet by done.
    specialize (Hact eq_refl).
    eexists _, _, _. split; [reflexivity|]. cbn. repeat split; lia.
  - (* the handler's promise rejects *)
    unfold on_catch.
    destruct (Z.ltb_spec a (effective_attempts o)) as [Hlt|Hge].
    + destruct (0 <? getBackoffDelay (backoff o) a).
      * eexists _, _, _. split; [reflexivity|]. cbn. repeat split; lia.
      * destruct (loop_at_sound job o q (a + 1) (Some (toError t')) h)
          as [tr ->]; try done.
        destruct (Z.leb_spec (a + 1) (effective_attempts o)); [|lia].
        exists (counts q), tr, (AwaitHandler (a + 1)).
        rewrite with_counts_same. cbn. repeat split; lia.
    + destruct (loop_at_sound job o q (a + 1) (Some (toError t')) h)
        as [tr ->]; try done.
      destruct (Z.leb_spec (a + 1) (effective_attempts o)); [lia|].
      specialize (Hact eq_refl).
      eexists _, _, _. split; [reflexivity|]. cbn. repeat split; lia.
  - (* the timer fires *)
    specialize (Hact eq_refl). specialize (Hdel eq_refl).
    match goal with |- context [loop_at job o ?q1 _ _] =>
      destruct (loop_at_sound job o q1 (a + 1) le h) as [tr ->]; try done end.
    destruct (a + 1 <=? effective_attempts o).
    + eexists _, _, _. split; [reflexivity|]. cbn. repeat split; lia.
    + eexists _, _, _. split; [reflexivity|]. cbn. repeat split; lia.
Qed.

Lemma quiet_snoc (ls : list (Listener T)) (l : Listener T) :
  quiet ls → (∀ a, lrun l a = None) → quiet (ls ++ [l]).
Proof.
  intros Hq Hl l' a Hin. apply elem_of_app in Hin as [Hin|Hin].
  - by apply Hq.
  - apply list_elem_of_singleton in Hin. by subst.
Qed.

Lemma sound_empty : sound (mkSys (T:=T) (H:=H) empty []).
Proof.
  split; [by repeat split|].
  repeat split; try by intros l a ?%elem_of_nil. done.
Qed.

Lemma sound_step s (op : Op T H) : tame op → sound s → sound (sys_step s op).
Proof.
  intros Htame ((Hw & Ha & Hd & Hcf & Hp & Hn) & Hqc & Hqf & Hqe & Hh).
  destruct s as [q running]. cbn [sys_queue sys_running] in *.
  destruct op as [d o|h|ev l|k i]; cbn [sys_step sys_queue sys_running].
  - (* add *)
    unfold add. cbn [handler nextId pending listeners counts].
    destruct (handler q) as [h|] eqn:Hq.
    + cbn [with_counts]. rewrite (execute_first _ _ _ h) by done.
      split; [|by repeat split; eauto].
      unfold exact. cbn. rewrite !number_app, length_app.
      unfold number at 2 4 6. cbn. repeat split; lia.
    + rewrite List.app_nil_r.
      split; [|by repeat split].
      unfold exact. cbn. rewrite length_app. cbn. repeat split; lia.
  - (* process *)
    unfold process. cbn [pending nextId handler listeners counts].
    destruct (pending q) as [|p queued] eqn:Hpend.
    + cbn [length]. change (Z.of_nat 0 =? 0) with true. cbn iota.
      rewrite List.app_nil_r. split; [|by repeat split; eauto].
      unfold exact. cbn [sys_queue sys_running counts pending nextId].
      cbn [length] in *. by repeat split.
    + destruct (Z.eqb_spec (Z.of_nat (length (p :: queued))) 0) as [E|_];
        [cbn in E; lia|].
      match goal with |- context [execute_all ?q0 ?l0] =>
        destruct (execute_all_starts l0 q0 h eq_refl)
          as (q' & Hrun & Hh' & Hp' & Hl');
        pose proof (execute_all_counts p queued q0 h eq_refl) as Hc' end.
      rewrite Hrun in *. cbn [fst snd] in *.
      destruct (execute_all_frame (p :: queued)
                  {| nextId := nextId q; handler := Some h; pending := [];
                     listeners := listeners q;
                     counts := set_waiting (counts q)
                                 (Z.of_nat (length (p :: queued))) |})
        as [c Hq'].
      rewrite Hrun in Hq'. cbn [fst] in Hq'. subst q'.
      cbn [with_counts counts] in Hc'. subst c.
      split; [|by repeat split; eauto].
      unfold exact. cbn [sys_queue sys_running with_counts counts pending
        nextId set_active set_waiting waiting active completed failed delayed
        paused].
      rewrite !number_app, !number_started, length_app, length_map.
      cbn [live asleep over negb length] in *. repeat split; lia.
  - (* on *)
    split; [done|].
    destruct ev; cbn; repeat split; try done; by apply quiet_snoc.
  - (* a resumption *)
    destruct (running !! k) as [[[job o] st]|] eqn:Hk;
      [|by repeat split].
    destruct Hh as [h Hq]; [by intros ->|].
    destruct (resume_exact q job o st i h Hq Hqc Hqf Hqe)
      as (c' & tr & st' & -> & Hw' & Hp' & Ha' & Hd' & Hcf').
    { intros Hl. rewrite Ha. by eapply number_pos. }
    { intros Hl. rewrite Hd. by eapply number_pos. }
    split; [|by repeat split; eauto].
    unfold exact. cbn [sys_queue sys_running with_counts counts pending
      nextId].
    rewrite !(number_insert _ _ _ _ _ _ _ Hk), length_insert.
    repeat split; lia.
Qed.

(** X30: However the calls of [add], [process] and [on] and the resumptions of
    the executions under way are interleaved, the counters of a queue whose
    listeners do not throw are exact: [waiting] is the number of buffered
    jobs, [active] the number of executions under way, [delayed] the number
    of those that sleep before a retry (a sleeping job counts as active as
    well), [completed] plus [failed] the number of executions that are
    over, [paused] is zero, and every id given out belongs to one of
    these jobs. *)
Theorem counters_are_exact (ops : list (Op T H)) :
  Forall tame ops → exact (sys_run ops).
Proof.
  intros Hops. unfold sys_run.
  assert (sound (fold_left sys_step ops (mkSys empty []))) as [He _];
    [|exact He].
  induction ops as [|op ops IH] using rev_ind; [apply sound_empty|].
  apply Forall_app in Hops as [Hops Hop]. rewrite fold_left_app. cbn.
  apply sound_step; [by inversion Hop|by apply IH].
Qed.

End System.

Section Examples.
Import Fixtures MoreFixtures.

Lemma failing_run_sleeps_witness :
  sleeps (run q_logged job1 QueueService.jobOptions
            (map Rejects [boom; boom; boom])).1.2 = [2000; 4000]
  ∧ foldr Z.add 0
      (sleeps (run q_logged job1 QueueService.jobOptions
                 (map Rejects [boom; boom; boom])).1.2) = 6000.
Proof.
  destruct (failing_run_sleeps q_logged job1 QueueService.jobOptions "handler" 3
              [boom; boom; boom] eq_refl eq_refl ltac:(lia) counts_ok_logged
              (quiet_say "f") (quiet_say "e") eq_refl) as (_ & _ & Hexp).
  destruct (Hexp 2000 eq_refl ltac:(lia)) as [Hs Hsum].
  split; [exact Hs|exact Hsum].
Defined.

Lemma ids_ok_new : ids_ok q_new.
Proof. split; constructor. Qed.

Lemma job_ids_stay_distinct_witness :
  ids_ok (add q_new "a" (mkOptions None BackoffUndefined)).1.1
  ∧ ids_ok (process q_new "handler").1.1.
Proof.
  destruct (job_ids_stay_distinct q_new) as [_ Hkeep].
  destruct (Hkeep ids_ok_new) as (Hadd & Hproc & _).
  split; [apply Hadd|apply Hproc].
Defined.

Lemma add_without_handler_buffers_witness :
  let items := [("a", mkOptions (Some 3) BackoffUndefined);
                ("b", mkOptions None (BackoffNumber 5))] in
  map (λ p, id p.1) (drop (length (pending q_new)) (pending (add_all q_new items)))
  = seqZ (nextId q_new) (Z.of_nat (length items))
  ∧ nextId (add_all q_new items) = nextId q_new + Z.of_nat (length items)
  ∧ active (counts (add_all q_new items)) = active (counts q_new)
  ∧ (items ≠ [] →
     waiting (counts (add_all q_new items))
     = Z.of_nat (length (pending (add_all q_new items)))).
Proof. exact (add_without_handler_buffers q_new _ eq_refl). Defined.


Lemma add_with_handler_starts_at_once_witness :
  ∃ q' tr st,
    add q_logged "a" (mkOptions None BackoffUndefined)
    = (q', EvInvoke "handler" (mkJob (nextId q_logged) "a") :: tr,
       Some (mkJob (nextId q_logged) "a", mkOptions None BackoffUndefined, st))
    ∧ pending q' = pending q_logged
    ∧ nextId q' = nextId q_logged + 1
    ∧ waiting (counts q') = waiting (counts q_logged)
    ∧ completed (counts q') = completed (counts q_logged)
    ∧ active (counts q') + failed (counts q')
      = active (counts q_logged) + failed (counts q_logged) + 1.
Proof.
  exact (add_with_handler_starts_at_once q_logged "handler" "a" _ eq_refl
           counts_ok_logged).
Defined.

Lemma counters_are_exact_witness :
  exact (sys_run busy_ops)
  ∧ getJobCounts (sys_queue (sys_run busy_ops)) = mkCounts 0 2 1 0 1 0.
Proof.
  split; [|reflexivity].
  apply counters_are_exact.
  repeat (apply List.Forall_cons; [first [exact I | intros a; reflexivity]|]).
  apply List.Forall_nil.
Defined.

Lemma counters_stay_nonnegative_witness :
  counts_ok (counts (add q_logged "a" (mkOptions None BackoffUndefined)).1.1)
  ∧ counts_ok (counts (resume q_logged job1 (mkOptions None BackoffUndefined)
                         (AwaitHandler 1) (HandlerSettled Resolves)).1.1).
Proof.
  destruct (counters_stay_nonnegative q_logged counts_ok_logged)
    as (Hadd & _ & _ & Hres).
  split; [apply Hadd|apply Hres].
Defined.

End Examples.

End QueueMore.

(** * Properties of the string operations *)

Module JsFacts.
Import Js.

Lemma startsWith_spec (s p : string) :
  startsWith s p = true ↔ ∃ b, s = p +:+ b.
Proof.
  revert s. induction p as [|c p IH]; intros s.
  - split; [intros _; by exists s|by destruct s].
  - destruct s as [|c' s]; cbn.
    + split; [done|]. by intros [b ?].
    + rewrite andb_true_iff, IH. split.
      * intros [Hc [b ->]]. apply Ascii.eqb_eq in Hc as ->. by exists b.
      * intros [b [= -> ->]]. split; [apply Ascii.eqb_refl|by exists b].
Qed.

Lemma includes_eq (s p : string) :
  includes s p
  = startsWith s p || match s with
                      | EmptyString => false
                      | String _ rest => includes rest p
                      end.
Proof. by destruct s. Qed.

(** [s.includes(p)] holds exactly when [p] occurs in [s]. *)
Lemma includes_spec (s p : string) :
  includes s p = true ↔ ∃ a b, s = a +:+ p +:+ b.
Proof.
  split.
  - induction s as [|c s IH]; rewrite includes_eq, orb_true_iff.
    + intros [Hs|]; [|done]. apply startsWith_spec in Hs as [b ->].
      by exists "", b.
    + intros [Hs|Hi].
      * apply startsWith_spec in Hs as [b ->]. by exists "", b.
      * destruct (IH Hi) as (a & b & ->). by exists (String c a), b.
  - intros (a & b & ->). induction a as [|c a IH].
    + rewrite includes_eq. apply orb_true_iff. left.
      apply startsWith_spec. by exists b.
    + change (String c a +:+ p +:+ b) with (String c (a +:+ p +:+ b)).
      rewrite includes_eq, IH. apply orb_true_r.
Qed.

Lemma toLowerCase_app (a b : string) :
  toLowerCase (a +:+ b) = toLowerCase a +:+ toLowerCase b.
Proof.
  induction a as [|c a IH]; [done|].
  change (String c a +:+ b) with (String c (a +:+ b)).
  change (String (lower_ascii c) (toLowerCase a) +:+ toLowerCase b)
    with (String (lower_ascii c) (toLowerCase a +:+ toLowerCase b)).
  cbn [toLowerCase]. by rewrite IH.
Qed.

Lemma lower_ascii_idemp (c : ascii) : lower_ascii (lower_ascii c) = lower_ascii c.
Proof. by destruct c as [[] [] [] [] [] [] [] []]. Qed.

Lemma toLowerCase_idemp (s : string) : toLowerCase (toLowerCase s) = toLowerCase s.
Proof.
  induction s as [|c s IH]; [done|]. cbn. by rewrite lower_ascii_idemp, IH.
Qed.

Lemma toLowerCase_length (s : string) :
  String.length (toLowerCase s) = String.length s.
Proof. induction s as [|c s IH]; [done|]. cbn. by rewrite IH. Qed.

End JsFacts.

(** * Properties of the backend selection *)

Module ServiceFacts.
Import Js JsFacts QueueService.

(** X8: [shouldUseRedis] chooses the durable backend exactly for a non-empty
    URL in which neither "localhost", in any mix of upper and lower case,
    nor "127.0.0.1" occurs. *)
Theorem shouldUseRedis_iff (redisUrl : option string) :
  shouldUseRedis redisUrl = true
  ↔ ∃ url, redisUrl = Some url
      ∧ url ≠ ""
      ∧ (∀ a b, toLowerCase url ≠ a +:+ "localhost" +:+ b)
      ∧ (∀ a b, toLowerCase url ≠ a +:+ "127.0.0.1" +:+ b).
Proof.
  destruct redisUrl as [url|]; cbn; [|split; [done|by intros (? & ? & _)]].
  destruct (String.eqb_spec url "") as [->|Hne].
  { split; [done|]. by intros (? & [= <-] & ? & _). }
  destruct (includes (toLowerCase url) "localhost") eqn:Hl; cbn.
  { split; [done|]. intros (? & [= <-] & _ & Hno & _).
    apply includes_spec in Hl as (a & b & Hl). by destruct (Hno a b). }
  destruct (includes (toLowerCase url) "127.0.0.1") eqn:Hi; cbn.
  { split; [done|]. intros (? & [= <-] & _ & _ & Hno).
    apply includes_spec in Hi as (a & b & Hi). by destruct (Hno a b). }
  split; [intros _|done]. exists url. split; [done|]. split; [done|].
  split; intros a b Heq.
  - assert (includes (toLowerCase url) "localhost" = true) as Hc
      by (apply includes_spec; by exists a, b).
    congruence.
  - assert (includes (toLowerCase url) "127.0.0.1" = true) as Hc
      by (apply includes_spec; by exists a, b).
    congruence.
Qed.

(** X9: A URL that names the local host, however its letters are cased, never
    selects the durable backend. *)
Theorem shouldUseRedis_local (pre host post : string) :
  toLowerCase host = "localhost" ∨ host = "127.0.0.1" →
  shouldUseRedis (Some (pre +:+ host +:+ post)) = false.
Proof.
  intros Hhost. unfold shouldUseRedis.
  destruct (String.eqb _ _); [done|].
  rewrite !toLowerCase_app.
  destruct Hhost as [Hh| ->].
  - rewrite Hh.
    assert (includes (toLowerCase pre +:+ "localhost" +:+ toLowerCase post)
              "localhost" = true) as ->; [|done].
    apply includes_spec. by exists (toLowerCase pre), (toLowerCase post).
  - assert (includes (toLowerCase pre +:+ toLowerCase "127.0.0.1"
                      +:+ toLowerCase post) "127.0.0.1" = true) as ->.
    { apply includes_spec. by exists (toLowerCase pre), (toLowerCase post). }
    by rewrite orb_true_r.
Qed.

Lemma shouldUseRedis_local_witness :
  shouldUseRedis (Some ("redis://" +:+ "LocalHost" +:+ ":6379")) = false.
Proof. apply shouldUseRedis_local. left. reflexivity. Defined.

End ServiceFacts.

(** * Further properties of the webhook route *)

Module RoutesMore.
Import Js Routes RoutesFacts JsFacts RoutesViews.

Lemma silent_read (r : Thrown + JValue) : silent (read r).
Proof. done. Qed.

Lemma silent_ret {A} (a : A) : silent (mret a : Eff A).
Proof. done. Qed.

Lemma silent_throw {A} t : silent (throw t : Eff A).
Proof. done. Qed.

Lemma silent_bind {A B} (m : Eff A) (f : A → Eff B) :
  silent m → (∀ a, silent (f a)) → silent (m ≫= f).
Proof. apply bind_silent. Qed.

Lemma silent_payload_object event : silent (payload_object event).
Proof. apply silent_bind; [done|]. by intros. Qed.

Lemma silent_logged (v : JValue) : silent (logged v).
Proof. apply logged_silent. Qed.

Lemma at_most_silent {A} e (m : Eff A) : silent m → at_most e m.
Proof. by left. Qed.

Lemma at_most_bind {A B} e (m : Eff A) (f : A → Eff B) :
  silent m → (∀ a, at_most e (f a)) → at_most e (m ≫= f).
Proof.
  unfold silent, at_most. destruct m as [es [t|a]]; cbn; intros -> Hf.
  { by left. }
  specialize (Hf a). destruct (f a) as [es' r]. cbn in *. exact Hf.
Qed.

Lemma at_most_enqueue e : at_most e (enqueue e).
Proof. by right. Qed.

Lemma at_most_enqueue_bind {B} e (f : unit → Eff B) :
  (∀ a, silent (f a)) → at_most e (enqueue e ≫= f).
Proof.
  intros Hf. right. unfold enqueue. cbn. specialize (Hf tt).
  destruct (f tt) as [es r]. unfold silent in Hf. cbn in *. by subst.
Qed.

Ltac quiet_steps :=
  repeat first
    [ apply silent_read | apply silent_ret | apply silent_throw
    | apply silent_payload_object | apply silent_logged
    | apply silent_bind; [|intros ?]
    | case_match ].

Ltac send_steps :=
  repeat first
    [ apply at_most_enqueue
    | apply at_most_enqueue_bind; intros ?; solve [quiet_steps]
    | solve [apply at_most_silent; quiet_steps]
    | apply at_most_bind; [solve [quiet_steps]|intros ?]
    | case_match ].

Lemma silent_first_call_log event : silent (first_call_log event).
Proof. unfold first_call_log. quiet_steps. Qed.

Lemma case_ended_sends event :
  at_most (addMissedCall (mkQueueJob missed_call event)) (case_ended event).
Proof. unfold case_ended. send_steps. Qed.

Lemma case_missed_sends event :
  at_most (addMissedCall (mkQueueJob missed_call event)) (case_missed event).
Proof. unfold case_missed. send_steps. Qed.

Lemma case_voicemail_received_sends event :
  at_most (addVoicemail (mkQueueJob voicemail event))
    (case_voicemail_received event).
Proof. unfold case_voicemail_received. send_steps. Qed.

Lemma case_log_call_id_silent event : silent (case_log_call_id event).
Proof. unfold case_log_call_id. quiet_steps. Qed.

Lemma case_recording_sends event :
  at_most (addSalesCall (mkQueueJob sales_call event)) (case_recording event).
Proof. unfold case_recording. send_steps. Qed.

Lemma case_ai_summary_sends event :
  at_most (addSalesCall (mkQueueJob sales_call event)) (case_ai_summary event).
Proof. unfold case_ai_summary. send_steps. Qed.

Lemma case_voicemail_transcript_sends event :
  at_most (addVoicemail (mkQueueJob voicemail event))
    (case_voicemail_transcript event).
Proof. unfold case_voicemail_transcript. send_steps. Qed.

Lemma case_missed_call_sends event :
  at_most (addMissedCall (mkQueueJob missed_call event))
    (case_missed_call event).
Proof. unfold case_missed_call. send_steps. Qed.

Ltac here := repeat first [apply list_elem_of_here | apply list_elem_of_further].

Ltac sent H :=
  destruct H as [H|H];
  [by left
  |right; eexists _, _; split; [exact H|]; split; [done|]; split; [done|];
   cbn [tags_of queue_type]; here].

(** What a dispatch enqueues: nothing, or one job that carries the event,
    has the type of its queue, and belongs to a tag of that queue. *)
Lemma dispatch_sends event :
  (dispatch event).1 = []
  ∨ ∃ e tag, (dispatch event).1 = [e]
      ∧ prop event "event" = inr (JStr tag)
      ∧ job_of e = mkQueueJob (queue_type e) event
      ∧ tag ∈ tags_of (queue_type e).
Proof.
  unfold dispatch. destruct (prop event "event") as [t|tag] eqn:Hev; [by left|].
  rewrite bind_read.
  assert (silent (case_default event)) as Hdflt.
  { unfold case_default. quiet_steps. }
  destruct tag as [| | | |s| |];
    try (left; apply bind_silent; [apply logged_silent|];
         intros _; rewrite bind_read; exact Hdflt).
  rewrite logged_str, bind_ret, bind_read.
  unfold clauses. cbn [switch existsb is_str].
  destruct (String.eqb_spec s "phone.callee_ended") as [->|?]; cbn [orb].
  { pose proof (case_ended_sends event) as Hs. sent Hs. }
  destruct (String.eqb_spec s "phone.caller_ended") as [->|?]; cbn [orb].
  { pose proof (case_ended_sends event) as Hs. sent Hs. }
  destruct (String.eqb_spec s "phone.callee_missed") as [->|?]; cbn [orb].
  { pose proof (case_missed_sends event) as Hs. sent Hs. }
  destruct (String.eqb_spec s "phone.voicemail_received") as [->|?]; cbn [orb].
  { pose proof (case_voicemail_received_sends event) as Hs. sent Hs. }
  destruct (String.eqb_spec s "phone.callee_call_log_completed") as [->|?];
    cbn [orb].
  { left. apply case_call_log_completed_silent. }
  destruct (String.eqb_spec s "phone.callee_ringing") as [->|?]; cbn [orb].
  { left. apply case_log_call_id_silent. }
  destruct (String.eqb_spec s "phone.callee_answered") as [->|?]; cbn [orb].
  { left. apply case_log_call_id_silent. }
  destruct (String.eqb_spec s "phone.recording_started") as [->|?]; cbn [orb].
  { left. apply case_log_call_id_silent. }
  destruct (String.eqb_spec s "phone.recording_completed") as [->|?]; cbn [orb].
  { pose proof (case_recording_sends event) as Hs. sent Hs. }
  destruct (String.eqb_spec s "phone.recording_transcript_completed")
    as [->|?]; cbn [orb].
  { pose proof (case_recording_sends event) as Hs. sent Hs. }
  destruct (String.eqb_spec s "phone.ai_call_summary_changed") as [->|?];
    cbn [orb].
  { pose proof (case_ai_summary_sends event) as Hs. sent Hs. }
  destruct (String.eqb_spec s "phone.voicemail_transcript_completed")
    as [->|?]; cbn [orb].
  { pose proof (case_voicemail_transcript_sends event) as Hs. sent Hs. }
  destruct (String.eqb_spec s "phone.callee_missed_call") as [->|?]; cbn [orb].
  { pose proof (case_missed_call_sends event) as Hs. sent Hs. }
  by left.
Qed.

(** The 'ended' block, once the hang-up result is known to be a string. *)
Lemma case_ended_string (event payload : JValue)
    (props : list (string * JValue)) (s : string) :
  prop event "payload" = inr payload →
  prop payload "object" = inr (JObj props) →
  or (or (prop_opt (JObj props) "handup_result")
         (prop_opt (JObj props) "result")) (JStr "") = JStr s →
  case_ended event
  = ((if (String.eqb s "Call Canceled" || String.eqb s "Voicemail"
          || String.eqb s "No Answer" || includes (toLowerCase s) "missed")
      then [addMissedCall (mkQueueJob missed_call event)]
      else []),
     if unprintable (prop_opt (JObj props) "call_id")
     then inl (TypeError "Cannot convert object to primitive value")
     else inr tt).
Proof.
  intros Hpl Hobj Hres.
  unfold case_ended, payload_object.
  rewrite Hpl, bind_read, Hobj, bind_read.
  change (prop (JObj props) "handup_result")
    with (inr (B:=JValue) (A:=Thrown) (prop_opt (JObj props) "handup_result")).
  change (prop (JObj props) "result")
    with (inr (B:=JValue) (A:=Thrown) (prop_opt (JObj props) "result")).
  change (prop (JObj props) "call_id")
    with (inr (B:=JValue) (A:=Thrown) (prop_opt (JObj props) "call_id")).
  rewrite !bind_read, Hres. cbn [is_str].
  rewrite logged_str.
  destruct (unprintable (prop_opt (JObj props) "call_id")) eqn:Hp.
  - rewrite (logged_unprintable _ Hp).
    destruct (_ || _ || _) eqn:E; cbn; [done|]. by destruct (includes _ _).
  - rewrite (logged_printable _ Hp).
    destruct (_ || _ || _) eqn:E; cbn; [done|]. by destruct (includes _ _).
Qed.

Lemma dispatch_ended (event : JValue) (tag : string) :
  prop event "event" = inr (JStr tag) →
  tag = "phone.callee_ended" ∨ tag = "phone.caller_ended" →
  dispatch event = case_ended event.
Proof.
  intros Hev Htag. unfold dispatch.
  rewrite Hev, bind_read, logged_str, bind_ret, bind_read.
  by destruct Htag as [-> | ->].
Qed.

Section Webhook.
Variable JSON_stringify : JValue → string.
Variable validateZoomWebhook : string → string → string → string → bool.
Variable zoomWebhookSecretToken : string.

Abbreviation webhook :=
  (webhook_zoom JSON_stringify validateZoomWebhook zoomWebhookSecretToken).
Abbreviation accepted :=
  (RoutesViews.accepted JSON_stringify validateZoomWebhook
     zoomWebhookSecretToken).

Lemma webhook_accepted (req : Request) :
  accepted req →
  webhook req
  = match dispatch (body req) with
    | (es, inr _) => mkResponse 200 es
    | (es, inl _) => mkResponse 500 es
    end.
Proof.
  intros (ts & sig & Hts & Hne & Hsig & Hne' & Hv).
  unfold webhook_zoom, missing. rewrite Hts, Hsig.
  destruct (String.eqb_spec ts ""); [done|].
  destruct (String.eqb_spec sig ""); [done|]. cbn [orb from_option id].
  by rewrite Hv.
Qed.

Lemma webhook_accepted_enqueued (req : Request) :
  accepted req → enqueued (webhook req) = (dispatch (body req)).1.
Proof.
  intros Ha. rewrite webhook_accepted by done.
  by destruct (dispatch (body req)) as [es [t|[]]].
Qed.

(** X10: One request enqueues at most one job; the job carries the request body
    as its event, unchanged, and has the type of the queue it is added
    to. *)
Theorem webhook_enqueues_at_most_one_job (req : Request) :
  (length (enqueued (webhook req)) ≤ 1)%nat
  ∧ ∀ e, e ∈ enqueued (webhook req) →
         job_of e = mkQueueJob (queue_type e) (body req).
Proof.
  destruct (webhook_enqueued JSON_stringify validateZoomWebhook
              zoomWebhookSecretToken req) as [->| ->].
  { split; [cbn; lia|]. by intros e ?%elem_of_nil. }
  destruct (dispatch_sends (body req)) as [->|(e & tag & -> & _ & He & _)].
  { split; [cbn; lia|]. by intros e ?%elem_of_nil. }
  split; [cbn; lia|]. by intros e' ->%list_elem_of_singleton.
Qed.

(** X11: The queue a job goes to is fixed by the event tag: missed-call jobs
    come from the two 'ended' tags, 'phone.callee_missed' and
    'phone.callee_missed_call' only, voicemail jobs from the two voicemail
    tags only, and sales-call jobs from the two recording tags and
    'phone.ai_call_summary_changed' only; no other tag enqueues a job. *)
Theorem job_type_follows_event_tag (req : Request) (e : Enqueue) :
  e ∈ enqueued (webhook req) →
  ∃ tag, prop (body req) "event" = inr (JStr tag)
         ∧ tag ∈ tags_of (queue_type e).
Proof.
  destruct (webhook_enqueued JSON_stringify validateZoomWebhook
              zoomWebhookSecretToken req) as [->| ->].
  { by intros ?%elem_of_nil. }
  destruct (dispatch_sends (body req)) as [->|(e' & tag & -> & Hev & _ & Ht)].
  { by intros ?%elem_of_nil. }
  intros ->%list_elem_of_singleton. by exists tag.
Qed.

(** X12: Jobs are enqueued for validated requests only: a response with a job
    belongs to a request that carried both headers, non-empty, and whose
    body, timestamp and signature passed the validation. *)
Theorem jobs_only_for_validated_requests (req : Request) :
  enqueued (webhook req) ≠ [] → accepted req ∧ status (webhook req) ≠ 400
                                 ∧ status (webhook req) ≠ 401.
Proof.
  unfold webhook_zoom, RoutesViews.accepted, missing.
  destruct (x_zm_request_timestamp req) as [ts|]; [|done].
  destruct (x_zm_signature req) as [sig|]; [|by rewrite orb_true_r].
  destruct (String.eqb_spec ts ""); [done|].
  destruct (String.eqb_spec sig ""); [done|]. cbn [orb from_option id].
  destruct (validateZoomWebhook _ _ _ _) eqn:Hv; [|done]. cbn [negb].
  intros _. split; [by exists ts, sig|].
  destruct (dispatch (body req)) as [es [t|[]]]; by split.
Qed.

(** X13: For the two 'ended' tags the hang-up result is [handup_result], or
    [result] when that is missing or empty.  When it is a string, the call
    is queued as a missed call exactly if the string is 'Call Canceled',
    'Voicemail' or 'No Answer', or contains 'missed' in any mix of upper
    and lower case; otherwise nothing is queued.  The log line that follows
    prints [call_id]: the request is answered 200 when that value can be
    converted to a string, and 500 when it cannot (an object with an own
    [toString] property), a missed call having been queued by then. *)
Theorem ended_call_missed_iff (req : Request) (tag : string)
    (payload : JValue) (props : list (string * JValue)) (s : string) :
  accepted req →
  prop (body req) "event" = inr (JStr tag) →
  tag = "phone.callee_ended" ∨ tag = "phone.caller_ended" →
  prop (body req) "payload" = inr payload →
  prop payload "object" = inr (JObj props) →
  or (or (prop_opt (JObj props) "handup_result")
         (prop_opt (JObj props) "result")) (JStr "") = JStr s →
  (missed_result s →
   enqueued (webhook req)
   = [addMissedCall (mkQueueJob missed_call (body req))])
  ∧ (¬ missed_result s → enqueued (webhook req) = [])
  ∧ (unprintable (prop_opt (JObj props) "call_id") = false →
     status (webhook req) = 200)
  ∧ (unprintable (prop_opt (JObj props) "call_id") = true →
     status (webhook req) = 500).
Proof.
  intros Ha Hev Htag Hpl Hobj Hres. rewrite webhook_accepted by done.
  rewrite (dispatch_ended _ tag), (case_ended_string _ payload props s)
    by done.
  assert (missed_result s
          ↔ (String.eqb s "Call Canceled" || String.eqb s "Voicemail"
             || String.eqb s "No Answer"
             || includes (toLowerCase s) "missed") = true) as Hiff.
  { unfold missed_result.
    rewrite !orb_true_iff, includes_spec, !String.eqb_eq, !elem_of_cons,
      elem_of_nil. tauto. }
  split; [|split; [|split]].
  - intros Hm. apply Hiff in Hm. rewrite Hm.
    by destruct (unprintable _).
  - intros Hm. destruct (_ || _ || _ || _).
    + by destruct Hm; apply Hiff.
    + by destruct (unprintable _).
  - by intros ->.
  - by intros ->.
Qed.

(** X14: A hang-up result that is truthy and not a string (a number, say) is
    compared with the three literals and then asked for [toLowerCase],
    which throws: the request is answered 500 and nothing is queued. *)
Theorem ended_call_non_string_result_fails (req : Request) (tag : string)
    (payload : JValue) (props : list (string * JValue)) :
  accepted req →
  prop (body req) "event" = inr (JStr tag) →
  tag = "phone.callee_ended" ∨ tag = "phone.caller_ended" →
  prop (body req) "payload" = inr payload →
  prop payload "object" = inr (JObj props) →
  (∀ s, or (or (prop_opt (JObj props) "handup_result")
               (prop_opt (JObj props) "result")) (JStr "") ≠ JStr s) →
  webhook req = mkResponse 500 [].
Proof.
  intros Ha Hev Htag Hpl Hobj Hres. rewrite webhook_accepted by done.
  rewrite (dispatch_ended _ tag) by done.
  unfold case_ended, payload_object.
  rewrite Hpl, bind_read, Hobj, bind_read.
  change (prop (JObj props) "handup_result")
    with (inr (B:=JValue) (A:=Thrown) (prop_opt (JObj props) "handup_result")).
  change (prop (JObj props) "result")
    with (inr (B:=JValue) (A:=Thrown) (prop_opt (JObj props) "result")).
  rewrite !bind_read.
  destruct (or _ _) as [| | | |s| |]; try done. by destruct (Hres s).
Qed.

(** X15: The blocks of 'phone.voicemail_received' and 'phone.callee_missed_call'
    enqueue before they read the payload: the job is queued whatever the
    body holds, and when the payload is missing the request is answered 500
    although the job has been queued. *)
Theorem enqueue_precedes_payload_read (req : Request) (tag : string) :
  accepted req →
  prop (body req) "event" = inr (JStr tag) →
  tag = "phone.voicemail_received" ∨ tag = "phone.callee_missed_call" →
  enqueued (webhook req)
  = [if String.eqb tag "phone.voicemail_received"
     then addVoicemail (mkQueueJob voicemail (body req))
     else addMissedCall (mkQueueJob missed_call (body req))]
  ∧ (prop (body req) "payload" = inr JUndefined →
     status (webhook req) = 500).
Proof.
  intros Ha Hev Htag. rewrite webhook_accepted by done.
  unfold dispatch. rewrite Hev, bind_read, logged_str, bind_ret, bind_read.
  destruct Htag as [-> | ->].
  - change (switch _ _ _ _) with (case_voicemail_received (body req)).
    unfold case_voicemail_received, payload_object.
    destruct (prop (body req) "payload") as [t|pl]; [done|].
    rewrite bind_read. split.
    + destruct (prop pl "object") as [t|obj]; [done|].
      rewrite bind_read. destruct (prop obj "id") as [t|id]; [done|].
      rewrite bind_read. unfold logged, printed. by destruct (unprintable id).
    + by intros [= ->].
  - change (switch _ _ _ _) with (case_missed_call (body req)).
    unfold case_missed_call, payload_object.
    destruct (prop (body req) "payload") as [t|pl]; [done|].
    rewrite bind_read. split.
    + destruct (prop pl "object") as [t|obj]; [done|].
      rewrite bind_read. destruct (prop obj "call_id") as [t|id]; [done|].
      rewrite bind_read. unfold logged, printed. by destruct (unprintable id).
    + by intros [= ->].
Qed.

End Webhook.

Section Examples.
Import Fixtures MoreFixtures.

Lemma signed_accepted (b : JValue) :
  accepted stringify_stub accept_all "secret" (signed b).
Proof. exists "1700000000", "v0=abc". by repeat split. Defined.

Lemma webhook_enqueues_at_most_one_job_witness :
  job_of (addMissedCall (mkQueueJob missed_call rang_out_event))
  = mkQueueJob missed_call rang_out_event.
Proof.
  apply (proj2 (webhook_enqueues_at_most_one_job stringify_stub accept_all
                  "secret" (signed rang_out_event))).
  vm_compute. apply list_elem_of_here.
Defined.

Lemma job_type_follows_event_tag_witness :
  ∃ tag, prop rang_out_event "event" = inr (JStr tag)
         ∧ tag ∈ tags_of missed_call.
Proof.
  apply (job_type_follows_event_tag stringify_stub accept_all "secret"
           (signed rang_out_event)
           (addMissedCall (mkQueueJob missed_call rang_out_event))).
  vm_compute. apply list_elem_of_here.
Defined.

Lemma jobs_only_for_validated_requests_witness :
  accepted stringify_stub accept_all "secret" (signed rang_out_event)
  ∧ status (webhook_zoom stringify_stub accept_all "secret"
              (signed rang_out_event)) ≠ 400
  ∧ status (webhook_zoom stringify_stub accept_all "secret"
              (signed rang_out_event)) ≠ 401.
Proof.
  apply jobs_only_for_validated_requests. vm_compute. discriminate.
Defined.

Lemma ended_call_missed_iff_witness :
  enqueued (webhook_zoom stringify_stub accept_all "secret"
              (signed rang_out_event))
  = [addMissedCall (mkQueueJob missed_call rang_out_event)]
  ∧ status (webhook_zoom stringify_stub accept_all "secret"
              (signed rang_out_event)) = 200.
Proof.
  destruct (ended_call_missed_iff stringify_stub accept_all "secret"
              (signed rang_out_event) "phone.callee_ended"
              (JObj [("object",
                 JObj [("call_id", JStr "c3"); ("handup_result", JStr "");
                       ("result", JStr "Call MISSED by callee")])])
              [("call_id", JStr "c3"); ("handup_result", JStr "");
               ("result", JStr "Call MISSED by callee")]
              "Call MISSED by callee")
    as (Hm & _ & Hs & _); try reflexivity.
  - apply signed_accepted.
  - left. reflexivity.
  - split; [|apply Hs; reflexivity]. apply Hm. right.
    exists "call ", " by callee". reflexivity.
Defined.

(** A missed call whose [call_id] is an object with an own [toString]
    property: the job is queued, the log line throws, the answer is 500. *)
Example ended_call_unprintable_id :
  webhook_zoom stringify_stub accept_all "secret"
    (signed (JObj [("event", JStr "phone.callee_ended");
       ("payload", JObj [("object",
          JObj [("call_id", JObj [("toString", JNum 1)]);
                ("handup_result", JStr "No Answer")])])]))
  = mkResponse 500
      [addMissedCall (mkQueueJob missed_call
         (JObj [("event", JStr "phone.callee_ended");
            ("payload", JObj [("object",
               JObj [("call_id", JObj [("toString", JNum 1)]);
                     ("handup_result", JStr "No Answer")])])]))].
Proof. reflexivity. Qed.

Lemma ended_call_non_string_result_fails_witness :
  webhook_zoom stringify_stub accept_all "secret" (signed coded_event)
  = mkResponse 500 [].
Proof.
  apply (ended_call_non_string_result_fails stringify_stub accept_all
           "secret" (signed coded_event) "phone.caller_ended"
           (JObj [("object",
              JObj [("call_id", JStr "c4"); ("handup_result", JNum 7)])])
           [("call_id", JStr "c4"); ("handup_result", JNum 7)]);
    try reflexivity.
  - apply signed_accepted.
  - right. reflexivity.
  - intros s. vm_compute. discriminate.
Defined.

Lemma enqueue_precedes_payload_read_witness :
  enqueued (webhook_zoom stringify_stub accept_all "secret"
              (signed bare_voicemail_event))
  = [addVoicemail (mkQueueJob voicemail bare_voicemail_event)]
  ∧ status (webhook_zoom stringify_stub accept_all "secret"
              (signed bare_voicemail_event)) = 500.
Proof.
  destruct (enqueue_precedes_payload_read stringify_stub accept_all "secret"
              (signed bare_voicemail_event) "phone.voicemail_received")
    as [He Hs].
  - apply signed_accepted.
  - reflexivity.
  - left. reflexivity.
  - split; [exact He|]. apply Hs. reflexivity.
Defined.

End Examples.

End RoutesMore.

(** * Further properties of the Graph client *)

Module GraphMore.
Import Js Graph GraphFacts GraphViews.

(** ** The Planner task in an undisturbed store *)

Section Planner.
Variable plannerPlanId : string.

Lemma edit_task_other (taskId description : string) (ts : list Task) :
  taskId ∉ map task_id ts → map (edit_task taskId description) ts = ts.
Proof.
  induction ts as [|t ts IH]; [done|]. cbn. intros Hn.
  apply not_elem_of_cons in Hn as [Hne Hn]. rewrite IH by done.
  unfold edit_task. destruct (String.eqb_spec (task_id t) taskId); by subst.
Qed.

Lemma find_new_task (t : Task) (ts : list Task) :
  task_id t ∉ map task_id ts →
  List.find (λ t', String.eqb (task_id t') (task_id t)) (ts ++ [t]) = Some t.
Proof.
  induction ts as [|t' ts IH]; cbn.
  - by rewrite String.eqb_refl.
  - intros Hn. apply not_elem_of_cons in Hn as [Hne Hn].
    destruct (String.eqb_spec (task_id t') (task_id t)); [by subst|by apply IH].
Qed.

(** An undisturbed pass of the [try] block patches the description. *)
Lemma attempt_calm (taskId details : string) (existing : option string)
    (w : World) (t : Task) :
  find_task taskId w = Some t → script w = [] →
  ∃ w',
    patch_description taskId details existing w = (w', inr tt)
    ∧ tasks w'
      = map (edit_task taskId
               (new_description existing (task_description t) details))
          (tasks w)
    ∧ salesLeads w' = salesLeads w ∧ salesCalls w' = salesCalls w
    ∧ counter w' = counter w ∧ script w' = []
    ∧ journal w'
      = journal w ++
        [Sent (GetDetails taskId) true;
         Sent (PatchDetails taskId (task_etag t)
                 (new_description existing (task_description t) details)) true].
Proof.
  intros Ht Hs. unfold patch_description, mbind, M_bind, get_details.
  rewrite request_calm by done. rewrite Ht. cbn [fst snd succeeded].
  unfold patch_details. rewrite request_calm by done.
  match goal with |- context [find_task taskId ?w'] =>
    change (find_task taskId w') with (find_task taskId w) end.
  rewrite Ht, N.eqb_refl. cbn.
  eexists. split; [done|]. cbn. repeat split; try done.
  by rewrite <- app_assoc.
Qed.

(** The loop ends after the first pass that succeeds. *)
Lemma update_details_calm (taskId details : string) (existing : option string)
    (w : World) (t : Task) :
  find_task taskId w = Some t → script w = [] →
  update_details 3 taskId details existing w
  = patch_description taskId details existing w.
Proof.
  intros Ht Hs. destruct (attempt_calm taskId details existing w t Ht Hs)
    as (w' & Hrun & _).
  cbn [update_details]. unfold try_catch. by rewrite Hrun.
Qed.

(** X16: In an undisturbed store [createPlannerTask] for an existing task
    creates nothing and leaves the title and the due date of the task as
    they are, whatever title and date it is given: the details are appended
    to the description the task has, after the separator, and become the
    description when the task has none. *)
Theorem createPlannerTask_appends_to_existing
    (title details taskId : string) (dueDate : option string)
    (w : World) (t : Task) :
  script w = [] →
  nonempty details = true → nonempty taskId = true →
  find_task taskId w = Some t →
  ∃ w',
    createPlannerTask plannerPlanId title details dueDate (Some taskId) w
    = (w', inr taskId)
    ∧ find_task taskId w'
      = Some (mkTask (task_id t) (task_planId t) (task_title t)
                (task_dueDateTime t)
                (if nonempty (task_description t)
                 then task_description t +:+ separator +:+ details
                 else details)
                (task_etag t + 1))
    ∧ length (tasks w') = length (tasks w)
    ∧ (∀ r ok, Sent r ok ∈ drop (length (journal w)) (journal w') →
               ok = true
               ∧ ∀ p ti d, r ≠ PostTask p ti d).
Proof.
  intros Hs Hd Hid Ht.
  rewrite createPlannerTask_existing by done.
  rewrite (update_details_calm _ _ _ _ t) by done.
  destruct (attempt_calm taskId details (Some taskId) w t Ht Hs)
    as (w' & -> & Hts & _ & _ & _ & _ & Hj).
  exists w'. split; [done|]. split; [|split].
  - assert (w' = set_tasks (tasks w') w') as -> by by destruct w'.
    cbn [tasks set_tasks] in Hts. unfold find_task. cbn [tasks set_tasks].
    rewrite Hts.
    pose proof (find_task_edit taskId
      (new_description (Some taskId) (task_description t) details) w t Ht)
      as Hf.
    unfold find_task in Hf. cbn [tasks set_tasks] in Hf. rewrite Hf.
    unfold rewritten, new_description. cbn [present]. by rewrite Hid.
  - by rewrite Hts, length_map.
  - intros r ok. rewrite Hj, drop_app_length.
    rewrite !elem_of_cons, elem_of_nil.
    intros [[= -> ->]|[[= -> ->]|[]]]; by split.
Qed.

Lemma createPlannerTask_new_calm
    (title details : string) (dueDate existing : option string) (w : World) :
  script w = [] →
  present existing = false →
  nonempty details = true →
  "task-" +:+ pretty (counter w) ∉ map task_id (tasks w) →
  ∃ w',
    createPlannerTask plannerPlanId title details dueDate existing w
    = (w', inr ("task-" +:+ pretty (counter w)))
    ∧ tasks w'
      = tasks w ++ [mkTask ("task-" +:+ pretty (counter w)) plannerPlanId
                      title dueDate details 1]
    ∧ journal w'
      = journal w ++
        [Sent (PostTask plannerPlanId title dueDate) true;
         Sent (GetDetails ("task-" +:+ pretty (counter w))) true;
         Sent (PatchDetails ("task-" +:+ pretty (counter w)) 0 details) true]
    ∧ salesLeads w' = salesLeads w ∧ salesCalls w' = salesCalls w
    ∧ counter w' = (counter w + 1)%N ∧ script w' = [].
Proof.
  intros Hs He Hd Hfresh.
  unfold createPlannerTask, try_catch, mbind, M_bind. rewrite He.
  cbn [negb]. unfold post_task. rewrite request_calm by done.
  cbn [fst snd succeeded]. rewrite Hd.
  change (nonempty ("task-" +:+ pretty (counter w))) with true.
  cbn [andb].
  set (id := "task-" +:+ pretty (counter w)) in *.
  set (t := mkTask id plannerPlanId title dueDate "" 0).
  match goal with |- context [update_details 3 id details existing ?w0] =>
    set (w1 := w0) end.
  assert (find_task id w1 = Some t) as Ht.
  { unfold find_task, w1. cbn [tasks record set_counter set_tasks].
    by apply (find_new_task t). }
  assert (script w1 = []) as Hs1 by done.
  rewrite (update_details_calm _ _ _ _ t) by done.
  destruct (attempt_calm id details existing w1 t Ht Hs1)
    as (w' & -> & Hts & Hl & Hc & Hn & Hs' & Hj).
  exists w'. split; [done|]. rewrite Hts, Hj, Hl, Hc, Hn.
  unfold w1. cbn [tasks record set_counter set_tasks journal salesLeads
    salesCalls counter task_description task_etag t].
  unfold new_description. rewrite andb_false_r.
  rewrite map_app, edit_task_other by done. cbn [map].
  unfold edit_task. cbn [task_id]. rewrite String.eqb_refl.
  rewrite <- app_assoc. by repeat split.
Qed.

(** X17: In an undisturbed store [createPlannerTask] without an existing task
    creates one task with the given plan, title and due date, and makes the
    details its description, in three requests and without a pause. *)
Theorem createPlannerTask_creates_task
    (title details : string) (dueDate existing : option string) (w : World) :
  script w = [] →
  present existing = false →
  nonempty details = true →
  "task-" +:+ pretty (counter w) ∉ map task_id (tasks w) →
  ∃ w',
    createPlannerTask plannerPlanId title details dueDate existing w
    = (w', inr ("task-" +:+ pretty (counter w)))
    ∧ tasks w'
      = tasks w ++ [mkTask ("task-" +:+ pretty (counter w)) plannerPlanId
                      title dueDate details 1]
    ∧ journal w'
      = journal w ++
        [Sent (PostTask plannerPlanId title dueDate) true;
         Sent (GetDetails ("task-" +:+ pretty (counter w))) true;
         Sent (PatchDetails ("task-" +:+ pretty (counter w)) 0 details) true]
    ∧ salesLeads w' = salesLeads w ∧ salesCalls w' = salesCalls w
    ∧ counter w' = (counter w + 1)%N ∧ script w' = [].
Proof. apply createPlannerTask_new_calm. Qed.

(** X18: Without details there is nothing to patch: for an existing task
    [createPlannerTask] sends no request at all and returns its id, in any
    store; without an existing task it sends the one request that creates
    the task. *)
Theorem createPlannerTask_without_details
    (title : string) (dueDate existing : option string) (w : World) :
  (present existing = true →
   createPlannerTask plannerPlanId title "" dueDate existing w
   = (w, inr (or_empty existing)))
  ∧ (present existing = false →
     ∃ ok, journal (createPlannerTask plannerPlanId title "" dueDate
                      existing w).1
           = journal w ++ [Sent (PostTask plannerPlanId title dueDate) ok]).
Proof.
  unfold createPlannerTask, try_catch, mbind, M_bind. split; intros ->.
  - done.
  - cbn [negb nonempty andb String.eqb].
    destruct (request_journal (PostTask plannerPlanId title dueDate)
      (λ w, let id := "task-" +:+ pretty (counter w) in
            (set_counter (counter w + 1)
               (set_tasks (tasks w ++ [mkTask id plannerPlanId title dueDate
                                         "" 0]) w),
             inr id)) w) as (ok & Hj & _); [done|].
    exists ok. unfold post_task.
    by destruct (request _ _ w) as [w' [e|id]].
Qed.

End Planner.

(** ** What a run adds to the journal *)

Section Only.
Context (P : Request → Prop).

Lemma only_ret {A} (a : A) : only P (mret a).
Proof. intros w. exists []. by rewrite app_nil_r. Qed.

Lemma only_throw {A} (t : Thrown) : only P (throw t : M A).
Proof. intros w. exists []. by rewrite app_nil_r. Qed.

Lemma only_lift {A} (r : Thrown + A) : only P (lift r).
Proof. intros w. exists []. by rewrite app_nil_r. Qed.

Lemma only_sleep (ms : Z) : only P (sleep ms).
Proof. intros w. exists [Slept ms]. split; [done|]. by repeat constructor. Qed.

Lemma only_request {A} (r : Request) (serve : World → World * (JsError + A)) :
  P r → off_the_record serve → only P (request r serve).
Proof.
  intros Hr Hserve w.
  destruct (request_journal r serve w Hserve) as (ok & Hj & _).
  exists [Sent r ok]. split; [done|]. by repeat constructor.
Qed.

Lemma only_bind {A B} (m : M A) (f : A → M B) :
  only P m → (∀ a, only P (f a)) → only P (m ≫= f).
Proof.
  intros Hm Hf w. destruct (Hm w) as (es & Hj & Hes).
  unfold mbind, M_bind. destruct (m w) as [w1 [t|a]]; cbn [fst snd] in *.
  - by exists es.
  - destruct (Hf a w1) as (es' & Hj' & Hes'). exists (es ++ es').
    split; [by rewrite Hj', Hj, <- app_assoc|]. by apply Forall_app.
Qed.

Lemma only_try_catch {A} (m : M A) (h : Thrown → M A) :
  only P m → (∀ t, only P (h t)) → only P (try_catch m h).
Proof.
  intros Hm Hh w. destruct (Hm w) as (es & Hj & Hes).
  unfold try_catch. destruct (m w) as [w1 [t|a]]; cbn [fst snd] in *.
  - destruct (Hh t w1) as (es' & Hj' & Hes'). exists (es ++ es').
    split; [by rewrite Hj', Hj, <- app_assoc|]. by apply Forall_app.
  - by exists es.
Qed.

End Only.

Lemma only_mono {A} (P P' : Request → Prop) (m : M A) :
  (∀ r, P r → P' r) → only P m → only P' m.
Proof.
  intros HP Hm w. destruct (Hm w) as (es & Hj & Hes). exists es.
  split; [done|]. eapply Forall_impl; [exact Hes|].
  intros [r ok|ms]; cbn; [apply HP|done].
Qed.

Ltac off_record :=
  intros ?; cbn;
  repeat (case_match; cbn); try done.

Ltac only_steps :=
  repeat first
    [ apply only_ret | apply only_throw | apply only_lift | apply only_sleep
    | apply only_request; [done|off_record]
    | apply only_bind; [|intros ?]
    | apply only_try_catch; [|intros ?]
    | case_match ].

Section Footprints.
Variable plannerPlanId : string.

Lemma only_createSalesLeadItem (x : SalesLeadItem.t) :
  only (list_requests SalesLeads) (createSalesLeadItem x).
Proof.
  unfold createSalesLeadItem, find_items, post_item, patch_fields. only_steps.
Qed.

Lemma only_createSalesCallItem (a : SalesCallItem.t) :
  only (list_requests SalesCalls) (createSalesCallItem a).
Proof.
  unfold createSalesCallItem, find_items, post_item, patch_fields. only_steps.
Qed.

Lemma only_updateSalesLeadPlannerTaskId (itemId taskId : string) :
  only (list_requests SalesLeads) (updateSalesLeadPlannerTaskId itemId taskId).
Proof. unfold updateSalesLeadPlannerTaskId, patch_fields. only_steps. Qed.

Lemma only_update_details (n : nat) (taskId details : string)
    (existing : option string) :
  only planner_requests (update_details n taskId details existing).
Proof.
  induction n as [|n IH]; cbn [update_details]; [apply only_ret|].
  apply only_try_catch.
  - unfold patch_description, get_details, patch_details. only_steps.
  - intros t. destruct n; [apply only_throw|].
    apply only_bind; [apply only_sleep|]. by intros.
Qed.

Lemma only_createPlannerTask (title details : string)
    (dueDate existing : option string) :
  only planner_requests
    (createPlannerTask plannerPlanId title details dueDate existing).
Proof.
  unfold createPlannerTask. apply only_try_catch; [|intros; apply only_throw].
  apply only_bind.
  { case_match; [|apply only_ret]. unfold post_task. only_steps. }
  intros taskId. apply only_bind; [|intros; apply only_ret].
  case_match; [apply only_update_details|apply only_ret].
Qed.

End Footprints.

(** ** Errors of the upserts *)

Lemma strict_ret {A} (a : A) : strict (mret a).
Proof. intros w. exists []. rewrite app_nil_r. split; [done|]. constructor. Qed.

Lemma strict_request {A} (r : Request) (serve : World → World * (JsError + A)) :
  off_the_record serve → strict (request r serve).
Proof.
  intros Hserve w.
  destruct (request_journal r serve w Hserve) as (ok & Hj & Hok).
  exists [Sent r ok]. split; [done|].
  destruct (request r serve w) as [w1 [t|a]]; cbn [fst snd] in *.
  - exists [], r. split; [|constructor].
    destruct ok; [|done]. by destruct (proj1 Hok eq_refl).
  - repeat constructor. apply Hok. by exists a.
Qed.

Lemma strict_bind {A B} (m : M A) (f : A → M B) :
  strict m → (∀ a, strict (f a)) → strict (m ≫= f).
Proof.
  intros Hm Hf w. destruct (Hm w) as (es & Hj & Hes).
  unfold mbind, M_bind. destruct (m w) as [w1 [t|a]]; cbn [fst snd] in *.
  - by exists es.
  - destruct (Hf a w1) as (es' & Hj' & Hes'). exists (es ++ es').
    split; [by rewrite Hj', Hj, <- app_assoc|].
    destruct (f a w1) as [w2 [t|b]]; cbn [fst snd] in *.
    + destruct Hes' as (es0 & rq & -> & Hes0). exists (es ++ es0), rq.
      split; [by rewrite <- app_assoc|]. by apply Forall_app.
    + by apply Forall_app.
Qed.

Lemma strict_rethrow {A} (m : M A) :
  strict m → strict (try_catch m (λ error, throw error)).
Proof.
  intros Hm w. destruct (Hm w) as (es & Hj & Hes). exists es.
  unfold try_catch. by destruct (m w) as [w1 [t|a]].
Qed.

Ltac strict_steps :=
  repeat first
    [ apply strict_ret
    | apply strict_request; off_record
    | apply strict_rethrow
    | apply strict_bind; [|intros ?]
    | case_match ].

Lemma strict_createSalesCallItem (a : SalesCallItem.t) :
  strict (createSalesCallItem a).
Proof.
  unfold createSalesCallItem, find_items, post_item, patch_fields.
  strict_steps.
Qed.

Lemma strict_createSalesLeadItem (x : SalesLeadItem.t) :
  strict (createSalesLeadItem x).
Proof.
  unfold createSalesLeadItem, find_items, post_item, patch_fields.
  strict_steps.
Qed.

(** X19: An upsert stops at the first request that fails and throws: when it
    returns an id, every request it sent has succeeded; when it throws, the
    request it sent last is the one that failed (so a failed lookup is
    never followed by a create).  The requests go to the method's own list
    only. *)
Theorem upsert_stops_at_first_failure
    (a : SalesCallItem.t) (x : SalesLeadItem.t) (w : World) :
  (∃ es, journal (createSalesCallItem a w).1 = journal w ++ es
         ∧ stops_at_failure es (createSalesCallItem a w).2
         ∧ Forall (within (list_requests SalesCalls)) es)
  ∧ (∃ es, journal (createSalesLeadItem x w).1 = journal w ++ es
           ∧ stops_at_failure es (createSalesLeadItem x w).2
           ∧ Forall (within (list_requests SalesLeads)) es).
Proof.
  split.
  - destruct (strict_createSalesCallItem a w) as (es & Hj & Hes).
    destruct (only_createSalesCallItem a w) as (es' & Hj' & Hes').
    rewrite Hj in Hj'. apply app_inv_head in Hj' as <-. by exists es.
  - destruct (strict_createSalesLeadItem x w) as (es & Hj & Hes).
    destruct (only_createSalesLeadItem x w) as (es' & Hj' & Hes').
    rewrite Hj in Hj'. apply app_inv_head in Hj' as <-. by exists es.
Qed.

Section Examples.
Import Fixtures MoreFixtures.

Lemma createPlannerTask_appends_to_existing_witness :
  ∃ w',
    createPlannerTask plan "ignored" "Voicemail ID: vm-2" None
      (Some "task-7") w_task = (w', inr "task-7")
    ∧ find_task "task-7" w'
      = Some (mkTask "task-7" plan "Follow up: Missed call from Bob" None
                ("Call ID: call-2" +:+ separator +:+ "Voicemail ID: vm-2") 5).
Proof.
  destruct (createPlannerTask_appends_to_existing plan "ignored"
              "Voicemail ID: vm-2" "task-7" None w_task task1)
    as (w' & Hrun & Hfind & _); try reflexivity.
  exists w'. split; [exact Hrun|exact Hfind].
Defined.

Lemma createPlannerTask_creates_task_witness :
  ∃ w',
    createPlannerTask plan "Follow up" "Call ID: call-9" (Some tomorrow) None
      w_task = (w', inr "task-8")
    ∧ tasks w'
      = [task1; mkTask "task-8" plan "Follow up" (Some tomorrow)
                  "Call ID: call-9" 1].
Proof.
  destruct (createPlannerTask_creates_task plan "Follow up" "Call ID: call-9"
              (Some tomorrow) None w_task)
    as (w' & Hrun & Hts & _); try reflexivity.
  - vm_compute. intros Hin. apply list_elem_of_singleton in Hin. discriminate.
  - exists w'. split; [exact Hrun|exact Hts].
Defined.

Lemma createPlannerTask_without_details_witness :
  createPlannerTask plan "Follow up" "" None (Some "task-7") w_hopeless
  = (w_hopeless, inr "task-7").
Proof.
  apply (createPlannerTask_without_details plan "Follow up" None
           (Some "task-7") w_hopeless).
  reflexivity.
Defined.

End Examples.

End GraphMore.

(** * Further properties of the job handlers *)

Module ProcessorMore.
Import Js Graph GraphFacts GraphViews GraphMore QueueProcessor HandlerFacts.

Section Handlers.

Variable plannerPlanId : string.
Variable teamsWebhookUrl : option string.
Variable html_to_text : string → string.
Variable toISOString : JValue → Thrown + string.
Variable toLocaleString : JValue → string.
Variable now : string.
Variable tomorrow : string.

Abbreviation follow_up' :=
  (follow_up plannerPlanId teamsWebhookUrl html_to_text tomorrow).
Abbreviation processMissedCall' :=
  (processMissedCall plannerPlanId teamsWebhookUrl html_to_text
     toISOString toLocaleString now tomorrow).
Abbreviation processVoicemail' :=
  (processVoicemail plannerPlanId teamsWebhookUrl html_to_text
     toISOString toLocaleString now tomorrow).
Abbreviation handler_requests :=
  (ProcessorViews.handler_requests teamsWebhookUrl html_to_text).
Abbreviation missed_call_message :=
  (ProcessorViews.missed_call_message toLocaleString now).
Abbreviation voicemail_message :=
  (ProcessorViews.voicemail_message toLocaleString now).

Lemma lead_requests_handler (message : option string) (r : Request) :
  list_requests SalesLeads r → handler_requests message r.
Proof. destruct r; cbn; try done; by left. Qed.

Lemma planner_requests_handler (message : option string) (r : Request) :
  planner_requests r → handler_requests message r.
Proof. destruct r; cbn; try done; by right. Qed.

Lemma present_some (o : option string) :
  present o = true → ∃ s, o = Some s ∧ s ≠ "" ∧ or_empty o = s.
Proof.
  destruct o as [s|]; [|done]. cbn. unfold nonempty.
  destruct (String.eqb_spec s ""); [done|]. intros _. by exists s.
Qed.

Lemma only_postToTeamsChannel (message : string) :
  only (handler_requests (Some message))
    (postToTeamsChannel teamsWebhookUrl html_to_text message).
Proof.
  unfold postToTeamsChannel.
  destruct (present teamsWebhookUrl) eqn:Hp; cbn [negb]; [|apply only_ret].
  destruct (present_some _ Hp) as (url & Hurl & Hne & ->).
  apply only_try_catch; [|intros; apply only_ret].
  unfold post_teams. apply only_request; [|done].
  cbn. split; [done|]. split; [done|]. by exists message.
Qed.

Lemma only_follow_up (listItemId : string) (existing : option string)
    (title details : string) (notify : bool) (message : string) :
  only (handler_requests (if notify then Some message else None))
    (follow_up' listItemId existing title details notify message).
Proof.
  unfold follow_up. apply only_bind.
  { eapply only_mono; [|apply only_createPlannerTask].
    apply planner_requests_handler. }
  intros taskId. apply only_bind.
  { destruct (negb (present existing) && nonempty taskId); [|apply only_ret].
    eapply only_mono; [|apply only_updateSalesLeadPlannerTaskId].
    apply lead_requests_handler. }
  intros _. destruct notify; [|apply only_ret].
  apply only_try_catch; [|intros; apply only_ret].
  apply only_postToTeamsChannel.
Qed.

Lemma quiet_read_missed_call (event : JValue) (w : World) :
  (read_missed_call now event w).1 = w.
Proof.
  unfold read_missed_call.
  repeat (rewrite lift_bind; case_match; [done|]). done.
Qed.

Lemma quiet_read_voicemail (event : JValue) (w : World) :
  (read_voicemail now event w).1 = w.
Proof.
  unfold read_voicemail.
  repeat (rewrite lift_bind; case_match; [done|]). done.
Qed.

(** X20: The two lead handlers talk to the sales-lead list and to Planner only,
    never to the sales-call list, and to Teams only when a webhook URL is
    configured: [processMissedCall] with the message of the missed call,
    [processVoicemail] with that of the voicemail and only when the
    voicemail has a transcript.  This holds in every store, whatever
    requests fail. *)
Theorem lead_handlers_request_footprint (job : ProcessJob) (w : World) :
  (∃ es, journal (processMissedCall' job w).1 = journal w ++ es
         ∧ Forall (within (handler_requests
                             (missed_call_message (event (data job)) w))) es)
  ∧ (∃ es, journal (processVoicemail' job w).1 = journal w ++ es
           ∧ Forall (within (handler_requests
                               (voicemail_message (event (data job)) w))) es).
Proof.
  split.
  - unfold processMissedCall, ProcessorViews.missed_call_message, try_catch.
    unfold mbind at 1, M_bind at 1.
    pose proof (quiet_read_missed_call (event (data job)) w) as Hq.
    destruct (read_missed_call now (event (data job)) w) as [w0 [t|c]];
      cbn [fst snd] in *; subst w0.
    { exists []. by rewrite app_nil_r. }
    match goal with |- context [(lift ?r ≫= ?f) w] =>
      assert (only (handler_requests
                      (Some (missed_call_teams_message toLocaleString c)))
                (lift r ≫= f)) as Ho end.
    { apply only_bind; [apply only_lift|]. intros ts. apply only_bind.
      { eapply only_mono; [|apply only_createSalesLeadItem].
        apply lead_requests_handler. }
      intros r. apply (only_follow_up _ _ _ _ true). }
    destruct (Ho w) as (es & Hj & Hes). exists es.
    match goal with |- context [(lift ?r ≫= ?f) w] =>
      destruct ((lift r ≫= f) w) as [w1 [t|[]]] end; by split.
  - unfold processVoicemail, ProcessorViews.voicemail_message, try_catch.
    unfold mbind at 1, M_bind at 1.
    pose proof (quiet_read_voicemail (event (data job)) w) as Hq.
    destruct (read_voicemail now (event (data job)) w) as [w0 [t|v]];
      cbn [fst snd] in *; subst w0.
    { exists []. by rewrite app_nil_r. }
    match goal with |- context [(lift ?r ≫= ?f) w] =>
      assert (only (handler_requests
                      (if truthy (vm_transcript v)
                       then Some (voicemail_teams_message toLocaleString v)
                       else None))
                (lift r ≫= f)) as Ho end.
    { apply only_bind; [apply only_lift|]. intros ts. apply only_bind.
      { eapply only_mono; [|apply only_createSalesLeadItem].
        apply lead_requests_handler. }
      intros r.
      pose proof (only_follow_up r.1 r.2 (voicemail_task_title v)
        (voicemail_task_details toLocaleString v)
        (truthy (vm_transcript v) && length_positive (vm_transcript v))
        (voicemail_teams_message toLocaleString v)) as Hf.
      eapply only_mono; [|exact Hf].
      intros rq.
      destruct (truthy (vm_transcript v)), (length_positive (vm_transcript v));
        cbn [andb]; try done.
      destruct rq; cbn; try done. by intros (_ & _ & m & [=] & _). }
    destruct (Ho w) as (es & Hj & Hes). exists es.
    match goal with |- context [(lift ?r ≫= ?f) w] =>
      destruct ((lift r ≫= f) w) as [w1 [t|[]]] end; by split.
Qed.

(** ** Two events of one call, in an undisturbed store *)








End Handlers.

Section Examples.
Import Fixtures MoreFixtures.


End Examples.

End ProcessorMore.

(** * Properties of the Zoom client *)

Module ZoomFacts.
Import Js JsFacts Zoom ZoomViews.

Lemma getAccessToken_valid (s : State) :
  token_valid s = true →
  getAccessToken s = (s, inr (default "" (accessToken s))).
Proof. intros Hv. unfold getAccessToken. by rewrite Hv. Qed.

Lemma getAccessToken_granted (s : State) (ms : Z) (g : Grant)
    (rest : list (Z * (JsError + Grant))) :
  token_valid s = false → grants s = (ms, inr g) :: rest →
  getAccessToken s
  = (set_token (Some (access_token g)) (clock s + ms + expires_in g * 1000)
       (after ms PostToken true (set_grants rest s)),
     inr (access_token g)).
Proof.
  intros Hv Hg. unfold getAccessToken. rewrite Hv.
  unfold mbind, M_bind, post_token. by rewrite Hg.
Qed.

Lemma getAccessToken_refused (s : State) (ms : Z) (e : JsError)
    (rest : list (Z * (JsError + Grant))) :
  token_valid s = false → grants s = (ms, inl e) :: rest →
  getAccessToken s
  = (after ms PostToken false (set_grants rest s), inl (ThrownError e)).
Proof.
  intros Hv Hg. unfold getAccessToken. rewrite Hv.
  unfold mbind, M_bind, post_token. by rewrite Hg.
Qed.

Lemma app_singleton_neq {A} (l : list A) (x : A) : l ++ [x] ≠ l.
Proof.
  intros Heq. apply (f_equal length) in Heq.
  rewrite length_app in Heq. cbn in Heq. lia.
Qed.

(** A call of [getAccessToken] that sends a request changes the state. *)
Lemma getAccessToken_invalid (s : State) (token : string) :
  token_valid s = false → getAccessToken s ≠ (s, inr token).
Proof.
  intros Hv. unfold getAccessToken. rewrite Hv.
  unfold mbind, M_bind, post_token.
  destruct (grants s) as [|[ms [e|g]] rest]; [done|done|].
  cbn. intros [= Hs _]. apply (f_equal log) in Hs. cbn in Hs.
  by apply app_singleton_neq in Hs.
Qed.

(** X22: A granted token is kept and reused, without a request, by every call
    made more than five minutes before it expires, and by no other call: a
    call made later, or any call when the grant is empty or lasts five
    minutes or less, asks for a new token. *)
Theorem token_reuse_window (s : State) (ms : Z) (g : Grant)
    (rest : list (Z * (JsError + Grant))) :
  token_valid s = false → grants s = (ms, inr g) :: rest →
  ∃ s1,
    getAccessToken s = (s1, inr (access_token g))
    ∧ log s1 = log s ++ [Called PostToken true]
    ∧ clock s1 = clock s + ms
    ∧ ∀ s2, accessToken s2 = accessToken s1 →
            tokenExpiry s2 = tokenExpiry s1 →
            (getAccessToken s2 = (s2, inr (access_token g))
             ↔ access_token g ≠ ""
               ∧ clock s2 < clock s1 + expires_in g * 1000 - 300000).
Proof.
  intros Hv Hg. rewrite (getAccessToken_granted s ms g rest) by done.
  eexists. split; [done|]. cbn. split; [done|]. split; [done|].
  intros s2 Ht He.
  assert (token_valid s2 = true
          ↔ access_token g ≠ ""
            ∧ clock s2 < clock s + ms + expires_in g * 1000 - 300000) as Hiff.
  { unfold token_valid. rewrite Ht, He, andb_true_iff, negb_true_iff.
    rewrite Z.ltb_lt.
    destruct (String.eqb_spec (access_token g) "") as [E|E].
    - split; by intros [? _].
    - split; intros [_ ?]; by split. }
  rewrite <- Hiff. split.
  - intros Hrun. destruct (token_valid s2) eqn:Hv2; [done|].
    by apply getAccessToken_invalid in Hrun.
  - intros Hv2. rewrite getAccessToken_valid by done. by rewrite Ht.
Qed.

Section Text.
Variable JSON_stringify : JValue → string.
Variable JSON_parse : string → Thrown + JValue.
Variable trim : string → string.

(** X23: When a token is needed and the token endpoint refuses, every method
    that goes to the API throws the endpoint's error, also [getRecording]
    and [downloadFile], which swallow the errors of their own request; no
    request is sent to the API, and the token fields stay as they are. *)
Theorem token_failure_fails_every_method (s : State) (ms : Z) (e : JsError)
    (rest : list (Z * (JsError + Grant))) (id url : string) :
  token_valid s = false → grants s = (ms, inl e) :: rest →
  includes id "TEST" = false →
  includes url "example.com" = false → includes url "mock-transcript" = false →
  let s' := after ms PostToken false (set_grants rest s) in
  getCallDetails id s = (s', inl (ThrownError e))
  ∧ getVoicemail id s = (s', inl (ThrownError e))
  ∧ getRecording id s = (s', inl (ThrownError e))
  ∧ downloadFile JSON_stringify url s = (s', inl (ThrownError e))
  ∧ getCallSummary id s = (s', inl (ThrownError e))
  ∧ accessToken s' = accessToken s ∧ tokenExpiry s' = tokenExpiry s
  ∧ log s' = log s ++ [Called PostToken false].
Proof.
  intros Hv Hg Hid Hu1 Hu2 s'.
  pose proof (getAccessToken_refused s ms e rest Hv Hg) as Htok.
  assert (startsWith id "TEST-" = false) as Hst.
  { destruct (startsWith id "TEST-") eqn:E; [|done].
    apply startsWith_spec in E as [b ->].
    assert (includes ("TEST-" +:+ b) "TEST" = true) as Hin; [|congruence].
    apply includes_spec. by exists "", ("-" +:+ b). }
  unfold getCallDetails, getVoicemail, getRecording, downloadFile,
    getCallSummary.
  rewrite Hu1, Hu2, Hid, Hst. cbn [orb].
  unfold mbind, M_bind. rewrite Htok. by repeat split.
Qed.

(** X24: With a valid token at hand, a failing request to the API is rethrown
    by [getCallDetails] and [getVoicemail] and swallowed by [getRecording],
    which returns an empty URL and no transcript, and by [downloadFile],
    which returns the empty string.  Each sends its one request with the
    token as bearer. *)
Theorem api_failure_rethrown_or_swallowed (s : State) (ms : Z) (e : JsError)
    (rest : list (Z * (JsError + JValue))) (token id url : string) :
  token_valid s = true → accessToken s = Some token →
  answers s = (ms, inl e) :: rest →
  includes url "example.com" = false → includes url "mock-transcript" = false →
  let s' path := after ms (Get path token) false (set_answers rest s) in
  getCallDetails id s
  = (s' ("/phone/call_history/" +:+ id), inl (ThrownError e))
  ∧ getVoicemail id s
    = (s' ("/phone/voice_mails/" +:+ id), inl (ThrownError e))
  ∧ getRecording id s
    = (s' ("/phone/recording/" +:+ id), inr (mkRecording (JStr "") JUndefined))
  ∧ downloadFile JSON_stringify url s = (s' url, inr (JStr "")).
Proof.
  intros Hv Ht Ha Hu1 Hu2 s'.
  pose proof (getAccessToken_valid s Hv) as Htok. rewrite Ht in Htok.
  change (default "" (Some token)) with token in Htok.
  unfold getCallDetails, getVoicemail, getRecording, downloadFile.
  rewrite Hu1, Hu2. cbn [orb].
  unfold mbind, M_bind, try_catch. rewrite Htok.
  unfold get. by rewrite Ha.
Qed.

End Text.

(** ** The AI summary *)

Lemma not_mock_id (id : string) :
  includes id "TEST" = false →
  startsWith id "TEST-" || includes id "TEST" = false.
Proof.
  intros Hid. rewrite Hid, orb_false_r.
  destruct (startsWith id "TEST-") eqn:E; [|done].
  apply startsWith_spec in E as [b ->].
  assert (includes ("TEST-" +:+ b) "TEST" = true) as Hin; [|congruence].
  apply includes_spec. by exists "", ("-" +:+ b).
Qed.

(** [fetchDetails] sends one request and never throws. *)
Lemma fetchDetails_run (token id : string) (s : State) :
  ∃ ok details,
    (fetchDetails token id s).2 = inr details
    ∧ log (fetchDetails token id s).1
      = log s ++ [Called (Get ("/phone/call_history/" +:+ id) token) ok]
    ∧ accessToken (fetchDetails token id s).1 = accessToken s
    ∧ tokenExpiry (fetchDetails token id s).1 = tokenExpiry s.
Proof.
  unfold fetchDetails, try_catch, mbind, M_bind, get.
  destruct (answers s) as [|[ms [e|data]] rest]; cbn.
  - by exists false, None.
  - by exists false, None.
  - by exists true, (Some data).
Qed.

Lemma fetchDetails_failed (token id : string) (s : State) (ms : Z)
    (e : JsError) (rest : list (Z * (JsError + JValue))) :
  answers s = (ms, inl e) :: rest →
  fetchDetails token id s
  = (after ms (Get ("/phone/call_history/" +:+ id) token) false
       (set_answers rest s), inr None).
Proof.
  intros Ha. unfold fetchDetails, try_catch, mbind, M_bind, get.
  by rewrite Ha.
Qed.

Lemma fetchDetails_answered (token id : string) (s : State) (ms : Z)
    (data : JValue) (rest : list (Z * (JsError + JValue))) :
  answers s = (ms, inr data) :: rest →
  fetchDetails token id s
  = (after ms (Get ("/phone/call_history/" +:+ id) token) true
       (set_answers rest s), inr (Some data)).
Proof.
  intros Ha. unfold fetchDetails, try_catch, mbind, M_bind, get.
  by rewrite Ha.
Qed.

Lemma getCallSummary_unfold (id token : string) (s : State) :
  token_valid s = true → accessToken s = Some token →
  includes id "TEST" = false →
  getCallSummary id s
  = match fetchDetails token id s with
    | (s1, inl t) => (s1, inl t)
    | (s1, inr details) =>
        match lacks_summary details with
        | inl t => (s1, inl t)
        | inr false => (s1, summary_or_empty details)
        | inr true =>
            match fetchDetails token id
                    (record (Paused 2000) (advance 2000 s1)) with
            | (s2, inl t) => (s2, inl t)
            | (s2, inr details') => (s2, summary_or_empty details')
            end
        end
    end.
Proof.
  intros Hv Ht Hid. unfold getCallSummary. rewrite (not_mock_id id Hid).
  unfold mbind at 1, M_bind at 1. rewrite getAccessToken_valid by done.
  rewrite Ht. change (default "" (Some token)) with token.
  unfold mbind at 1, M_bind at 1.
  destruct (fetchDetails token id s) as [s1 [t|details]]; [done|].
  unfold mbind at 1, M_bind at 1, lift at 1.
  destruct (lacks_summary details) as [t|[]]; [done| |].
  - unfold mbind, M_bind, sleep.
    destruct (fetchDetails token id _) as [s2 [t|details']]; [done|].
    destruct details' as [data|]; [|done]. cbn. by destruct (truthy data).
  - unfold mbind, M_bind. cbn [mret M_ret].
    destruct details as [data|]; [|done]. cbn. by destruct (truthy data).
Qed.

(** X25: With a valid token, [getCallSummary] asks the API once, or twice with
    one pause of two seconds in between, and never more.  When the first
    answer has a summary, that answer decides and nothing else is sent;
    when the first request fails, or its answer has neither a summary nor
    an AI summary, the second request decides alone.  Failing requests
    never make it throw: when both fail it returns the empty string. *)
Theorem getCallSummary_asks_at_most_twice (s : State) (token id : string) :
  token_valid s = true → accessToken s = Some token →
  includes id "TEST" = false →
  let call := Called (Get ("/phone/call_history/" +:+ id) token) in
  (∃ ok1 ok2,
     log (getCallSummary id s).1 = log s ++ [call ok1]
     ∨ log (getCallSummary id s).1
       = log s ++ [call ok1; Paused 2000; call ok2])
  ∧ (∀ ms data rest,
       answers s = (ms, inr data) :: rest →
       lacks_summary (Some data) = inr false →
       getCallSummary id s
       = (after ms (Get ("/phone/call_history/" +:+ id) token) true
            (set_answers rest s),
          summary_of data))
  ∧ (∀ ms1 reply ms2 data rest,
       answers s = (ms1, reply) :: (ms2, inr data) :: rest →
       match reply with
       | inl _ => True
       | inr data1 => lacks_summary (Some data1) = inr true
       end →
       (getCallSummary id s).2 = summary_or_empty (Some data)
       ∧ clock (getCallSummary id s).1 = clock s + ms1 + 2000 + ms2)
  ∧ (∀ ms1 e1 ms2 e2 rest,
       answers s = (ms1, inl e1) :: (ms2, inl e2) :: rest →
       (getCallSummary id s).2 = inr (JStr "")).
Proof.
  intros Hv Ht Hid call. rewrite (getCallSummary_unfold id token s) by done.
  split; [|split; [|split]].
  - destruct (fetchDetails_run token id s) as (ok1 & d1 & Hr1 & Hl1 & _).
    destruct (fetchDetails token id s) as [s1 r1]. cbn [fst snd] in *.
    subst r1. exists ok1.
    destruct (lacks_summary d1) as [t|[]]; try (exists false; by left).
    destruct (fetchDetails_run token id (record (Paused 2000) (advance 2000 s1)))
      as (ok2 & d2 & Hr2 & Hl2 & _).
    destruct (fetchDetails token id _) as [s2 r2]. cbn [fst snd] in *.
    subst r2. exists ok2. right. cbn [fst].
    rewrite Hl2. cbn [log record advance]. by rewrite Hl1, <- !app_assoc.
  - intros ms data rest Ha Hl.
    rewrite (fetchDetails_answered token id s ms data rest Ha), Hl.
    cbn [summary_or_empty].
    destruct (truthy data) eqn:Hd; [done|].
    unfold lacks_summary in Hl. unfold summary_of.
    destruct data; cbn in *; try done.
    all: by destruct (own "summary" _) as [[]|].
  - intros ms1 reply ms2 data rest Ha Hl.
    destruct reply as [e1|data1].
    + rewrite (fetchDetails_failed token id s ms1 e1 _ Ha).
      cbn [lacks_summary].
      rewrite (fetchDetails_answered token id _ ms2 data rest) by done.
      cbn. split; [done|lia].
    + rewrite (fetchDetails_answered token id s ms1 data1 _ Ha), Hl.
      rewrite (fetchDetails_answered token id _ ms2 data rest) by done.
      cbn. split; [done|lia].
  - intros ms1 e1 ms2 e2 rest Ha.
    rewrite (fetchDetails_failed token id s ms1 e1 _ Ha).
    cbn [lacks_summary].
    by rewrite (fetchDetails_failed token id _ ms2 e2 rest) by done.
Qed.

(** ** Inputs that are answered without the API *)

Lemma getCallSummary_real (id : string) (s : State) :
  includes id "TEST" = false →
  getCallSummary id s = (token ← getAccessToken; summarize token id) s.
Proof. intros Hid. unfold getCallSummary. by rewrite (not_mock_id id Hid). Qed.

Lemma get_logs (path token : string) : logs_a_call (get path token).
Proof.
  intros s. unfold get.
  destruct (answers s) as [|[ms [e|data]] rest]; by eexists _, [].
Qed.

Lemma getAccessToken_log (s : State) :
  ∃ es, log (getAccessToken s).1 = log s ++ es
        ∧ (token_valid s = false → es ≠ []).
Proof.
  unfold getAccessToken. destruct (token_valid s).
  - exists []. by rewrite app_nil_r.
  - unfold mbind, M_bind, post_token.
    destruct (grants s) as [|[ms [e|g]] rest]; by eexists [_].
Qed.

Lemma summarize_logs (token id : string) : logs_a_call (summarize token id).
Proof.
  intros s. unfold summarize. unfold mbind at 1, M_bind at 1.
  destruct (fetchDetails_run token id s) as (ok & d & Hr & Hl & _).
  destruct (fetchDetails token id s) as [s1 r]. cbn [fst snd] in *. subst r.
  unfold mbind at 1, M_bind at 1, lift at 1.
  destruct (lacks_summary d) as [t|[]]; cbn [fst].
  - by eexists _, [].
  - unfold mbind, M_bind, sleep.
    destruct (fetchDetails_run token id (record (Paused 2000) (advance 2000 s1)))
      as (ok2 & d2 & Hr2 & Hl2 & _).
    destruct (fetchDetails token id _) as [s2 r2]. cbn [fst snd] in *.
    subst r2. eexists _, [_; _].
    assert (∀ s', log (match d2 with
                       | Some data => if truthy data then lift (summary_of data)
                                      else mret (JStr "")
                       | None => mret (JStr "")
                       end s').1 = log s') as ->.
    { intros s'. destruct d2 as [data|]; [|done]. by destruct (truthy data). }
    rewrite Hl2. cbn [log record advance]. by rewrite Hl, <- !app_assoc.
  - unfold mbind, M_bind. cbn [mret M_ret]. eexists _, [].
    rewrite <- Hl. destruct d as [data|]; [|done]. by destruct (truthy data).
Qed.

Lemma token_then_logs {A} (f : string → M A) :
  (∀ token, logs_a_call (f token)) → logs_a_call (getAccessToken ≫= f).
Proof.
  intros Hf s. unfold mbind, M_bind. destruct (token_valid s) eqn:Hv.
  - rewrite getAccessToken_valid by done. apply Hf.
  - destruct (getAccessToken_log s) as (es & Hl & Hne).
    destruct es as [|e0 es]; [by destruct Hne|].
    destruct (getAccessToken s) as [s1 [t|token]]; cbn [fst] in *.
    + by exists e0, es.
    + destruct (Hf token s1) as (e & es' & Hl').
      exists e0, (es ++ e :: es'). rewrite Hl', Hl. by rewrite <- app_assoc.
Qed.

Lemma logs_changes {A} (m : M A) (s : State) :
  logs_a_call m → log (m s).1 ≠ log s.
Proof.
  intros Hm Heq. destruct (Hm s) as (e & es & Hl). rewrite Hl in Heq.
  apply (f_equal length) in Heq. rewrite length_app in Heq. cbn in Heq. lia.
Qed.

Lemma swallowed_get_logs (url token : string) :
  logs_a_call (try_catch (get url token) (λ error, mret (JStr ""))).
Proof.
  intros s. unfold try_catch. destruct (get_logs url token s) as (e & es & Hl).
  destruct (get url token s) as [s1 [t|data]]; by exists e, es.
Qed.

Section Transcript.
Variable JSON_stringify : JValue → string.
Variable JSON_parse : string → Thrown + JValue.
Variable trim : string → string.
Variable Number_toString : Z → string.

Abbreviation downloadFile' := (downloadFile JSON_stringify).
Abbreviation parseTranscript' :=
  (parseTranscript JSON_parse trim Number_toString).
Abbreviation transcript_line' := (transcript_line Number_toString).
Abbreviation map_lines' := (map_lines Number_toString).

(** X26: A call id that contains "TEST" and a URL that contains "example.com"
    or "mock-transcript" are answered with the built-in summary and
    transcript, in any state and without a call, not even for a token; for
    every other id and URL at least one call is made. *)
Theorem mock_inputs_bypass_the_api (s : State) (id url : string) :
  (includes id "TEST" = true →
   getCallSummary id s = (s, inr (JStr mock_summary)))
  ∧ (log (getCallSummary id s).1 = log s ↔ includes id "TEST" = true)
  ∧ (includes url "example.com" || includes url "mock-transcript" = true →
     downloadFile' url s = (s, inr (JStr (JSON_stringify mock_transcript))))
  ∧ (log (downloadFile' url s).1 = log s
     ↔ includes url "example.com" || includes url "mock-transcript" = true).
Proof.
  assert (includes id "TEST" = true →
          getCallSummary id s = (s, inr (JStr mock_summary))) as Hid.
  { intros Hid. unfold getCallSummary. by rewrite Hid, orb_true_r. }
  assert (includes url "example.com" || includes url "mock-transcript" = true →
          downloadFile' url s
          = (s, inr (JStr (JSON_stringify mock_transcript)))) as Hurl.
  { intros Hu. unfold downloadFile. by rewrite Hu. }
  split; [done|]. split; [|split; [done|]].
  - split; [|by intros ->%Hid].
    destruct (includes id "TEST") eqn:E; [done|]. intros Hlog.
    rewrite getCallSummary_real in Hlog by done.
    apply logs_changes in Hlog; [done|].
    apply token_then_logs. intros token. apply summarize_logs.
  - split; [|by intros ->%Hurl].
    destruct (_ || _) eqn:E; [done|]. intros Hlog.
    unfold downloadFile in Hlog. rewrite E in Hlog.
    apply logs_changes in Hlog; [done|].
    apply token_then_logs. intros token. apply swallowed_get_logs.
Qed.

Lemma map_lines_spec (items : list JValue) (lines : list string) :
  map_lines' items = inr lines ↔
  Forall2 (λ item line, transcript_line' item = inr line) items lines.
Proof.
  revert lines. induction items as [|item items IH]; intros lines; cbn.
  - split; [intros [= <-]; constructor|by intros ->%Forall2_nil_inv_l].
  - split.
    + destruct (transcript_line' item) as [t|line] eqn:Hline; [done|].
      destruct (map_lines' items) as [t|lines'] eqn:Hl; [done|].
      intros [= <-]. constructor; [done|]. by apply IH.
    + intros (line & lines' & Hline & Hrest & ->)%Forall2_cons_inv_l.
      apply IH in Hrest. by rewrite Hline, Hrest.
Qed.

Lemma map_lines_throws (items : list JValue) (item : JValue) (t : Thrown) :
  item ∈ items → transcript_line' item = inl t →
  ∃ t', map_lines' items = inl t'.
Proof.
  induction items as [|x items IH]; [by intros ?%elem_of_nil|].
  intros [->|Hin]%elem_of_cons Ht; cbn.
  - rewrite Ht. by eexists.
  - destruct (transcript_line' x) as [t1|line]; [by eexists|].
    destruct (IH Hin Ht) as [t' ->]. by eexists.
Qed.

(** A line names the first user of the item by [username], and gives the
    text of the item after a colon. *)
Lemma transcript_line_named (props uprops : list (string * JValue))
    (others : list JValue) (name said : string) :
  own "users" props = Some (JArr (JObj uprops :: others)) →
  own "username" uprops = Some (JStr name) → name ≠ "" →
  own "text" props = Some (JStr said) →
  transcript_line' (JObj props) = inr (name +:+ ": " +:+ said).
Proof.
  intros Hu Hn Hne Ht. unfold transcript_line, first_opt, prop_opt.
  change (prop (JObj props) "users")
    with (inr (A:=Thrown) (default JUndefined (own "users" props))).
  change (prop (JObj props) "text")
    with (inr (A:=Thrown) (default JUndefined (own "text" props))).
  rewrite Hu, Ht. cbn [default from_option id first head prop].
  rewrite Hn. cbn [default from_option id].
  assert (truthy (JStr name) = true) as Htr.
  { cbn. by destruct (String.eqb_spec name ""). }
  unfold or. rewrite Htr. cbn iota. by rewrite Htr.
Qed.

(** X27: [parseTranscript] never fails.  When the trimmed content starts with a
    brace or a bracket, [JSON.parse] accepts it, the parsed value has an
    array as its [timeline] and a line can be made of every item of the
    array, it returns one line per item, in order, joined by newlines.  In
    every other case it returns the content as it is: when the content does
    not start that way, when [JSON.parse] throws, when there is no such
    array, and when the callback throws on an item, as it does on a speaker
    or a text that cannot be converted to a string. *)
Theorem parseTranscript_lines_or_content (content : string) :
  (startsWith (trim content) "{" = false →
   startsWith (trim content) "[" = false →
   parseTranscript' content = content)
  ∧ (∀ parsed items lines,
       startsWith (trim content) "{" = true
       ∨ startsWith (trim content) "[" = true →
       JSON_parse content = inr parsed →
       prop parsed "timeline" = inr (JArr items) →
       Forall2 (λ item line, transcript_line' item = inr line) items lines →
       parseTranscript' content = String.concat (String "010" "") lines)
  ∧ (∀ t, JSON_parse content = inl t → parseTranscript' content = content)
  ∧ (∀ parsed items item t,
       JSON_parse content = inr parsed →
       prop parsed "timeline" = inr (JArr items) →
       item ∈ items → transcript_line' item = inl t →
       parseTranscript' content = content)
  ∧ (parseTranscript' content ≠ content →
     (startsWith (trim content) "{" = true
      ∨ startsWith (trim content) "[" = true)
     ∧ ∃ parsed items lines,
         JSON_parse content = inr parsed
         ∧ prop parsed "timeline" = inr (JArr items)
         ∧ Forall2 (λ item line, transcript_line' item = inr line) items lines
         ∧ parseTranscript' content = String.concat (String "010" "") lines).
Proof.
  unfold parseTranscript, parse_timeline.
  split; [by intros -> ->|]. split; [|split; [|split]].
  - intros parsed items lines Hlooks Hp Ht Hl.
    apply map_lines_spec in Hl.
    assert (negb (startsWith (trim content) "{")
            && negb (startsWith (trim content) "[") = false) as ->.
    { destruct Hlooks as [-> | ->]; [done|]. by rewrite andb_false_r. }
    by rewrite Hp, Ht, Hl.
  - intros t Hp. rewrite Hp. by destruct (_ && _).
  - intros parsed items item t Hp Ht Hin Hline.
    rewrite Hp, Ht.
    destruct (map_lines_throws items item t Hin Hline) as [t' ->].
    by destruct (_ && _).
  - destruct (startsWith (trim content) "{") eqn:Hb;
      destruct (startsWith (trim content) "[") eqn:Hk; cbn [negb andb];
      try done.
    all: destruct (JSON_parse content) as [t|parsed] eqn:Hp; [done|].
    all: destruct (prop parsed "timeline") as [t|[| | | | |items|]] eqn:Ht;
      try done.
    all: destruct (map_lines' items) as [t|lines] eqn:Hl; [done|].
    all: intros _; split; [by auto|].
    all: exists parsed, items, lines; split; [done|]; split; [done|].
    all: split; [by apply map_lines_spec|done].
Qed.

End Transcript.

Section Examples.
Import MoreFixtures.

Lemma token_reuse_window_witness :
  ∃ s1,
    getAccessToken s_new = (s1, inr "tok-1")
    ∧ log s1 = [Called PostToken true]
    ∧ clock s1 = 1200.
Proof.
  destruct (token_reuse_window s_new 200 (mkGrant "tok-1" 3600) []
              eq_refl eq_refl)
    as (s1 & Hrun & Hlog & Hclock & _).
  exists s1. split; [exact Hrun|]. split; [exact Hlog|exact Hclock].
Defined.

Lemma token_failure_fails_every_method_witness :
  getRecording "c1" s_refused
  = (after 200 PostToken false (set_grants [] s_refused),
     inl (ThrownError (mkError "invalid_client"))).
Proof.
  exact (proj1 (proj2 (proj2
    (token_failure_fails_every_method (λ _, "") s_refused 200
       (mkError "invalid_client") [] "c1" "https://zoom.us/rec/1"
       eq_refl eq_refl eq_refl eq_refl eq_refl)))).
Defined.

Lemma api_failure_rethrown_or_swallowed_witness :
  getRecording "c1" s_ready
  = (after 40 (Get "/phone/recording/c1" "tok-1") false
       (set_answers [] s_ready),
     inr (mkRecording (JStr "") JUndefined)).
Proof.
  exact (proj1 (proj2 (proj2
    (api_failure_rethrown_or_swallowed (λ _, "") s_ready 40
       (mkError "Request failed with status code 404") [] "tok-1"
       "c1" "https://zoom.us/rec/1"
       eq_refl eq_refl eq_refl eq_refl eq_refl)))).
Defined.

Lemma getCallSummary_asks_at_most_twice_witness :
  (getCallSummary "c1" s_late).2 = inr (JStr "Asked for a quote.")
  ∧ clock (getCallSummary "c1" s_late).1 = 2090.
Proof.
  destruct (getCallSummary_asks_at_most_twice s_late "tok-1" "c1"
              eq_refl eq_refl eq_refl)
    as (_ & _ & Hlate & _).
  apply (Hlate 40 (inr (JObj [("call_id", JStr "c1")])) 50
           (JObj [("call_id", JStr "c1");
                  ("ai_call_summary",
                   JObj [("summary", JStr "Asked for a quote.")])]) []);
    reflexivity.
Defined.

Lemma mock_inputs_bypass_the_api_witness :
  getCallSummary "TEST-42" s_refused = (s_refused, inr (JStr mock_summary)).
Proof.
  apply (mock_inputs_bypass_the_api (λ _, "") s_refused "TEST-42" "").
  reflexivity.
Defined.

Lemma parseTranscript_lines_or_content_witness :
  parseTranscript (λ _, inr mock_transcript) (λ x, x) pretty "{ ... }"
  = "Test User: Hello, this is a test call."
    +:+ String "010" "Ross: I am verifying the transcript format.".
Proof.
  refine (proj1 (proj2 (parseTranscript_lines_or_content
            (λ _, inr mock_transcript) (λ x, x) pretty "{ ... }"))
          mock_transcript _
          ["Test User: Hello, this is a test call.";
           "Ross: I am verifying the transcript format."]
          (or_introl eq_refl) eq_refl eq_refl _).
  repeat constructor.
Defined.

(** What is not a JSON document comes back as it is, and so does a timeline
    with a speaker that cannot be converted to a string. *)
Example parseTranscript_plain_text :
  parseTranscript no_json (λ x, x) pretty "WEBVTT" = "WEBVTT".
Proof. reflexivity. Qed.

Example parseTranscript_unprintable_speaker :
  parseTranscript
    (λ _, inr (JObj [("timeline", JArr [
       JObj [("text", JStr "Hello");
             ("users", JArr [JObj [("username",
                                    JObj [("toString", JNum 1)])]])]])]))
    (λ x, x) pretty "{ ... }"
  = "{ ... }".
Proof. reflexivity. Qed.

End Examples.

End ZoomFacts.

(** * Properties of the configuration *)

Module ConfigFacts.
Import Config ConfigViews.

Lemma unset_false (env : Env) (envVar : string) :
  unset env envVar = false ↔ is_set env envVar.
Proof.
  unfold unset, is_set. destruct (env !! envVar) as [v|].
  - destruct (String.eqb_spec v "") as [->|Hne].
    + split; [done|]. by intros (? & [= <-] & ?).
    + split; [by exists v|done].
  - split; [done|]. by intros (? & ? & _).
Qed.

Lemma validate_spec (env : Env) (vars : list string) :
  match validate env vars with
  | inr _ => Forall (is_set env) vars
  | inl t =>
      ∃ pre envVar post,
        vars = pre ++ envVar :: post
        ∧ Forall (is_set env) pre
        ∧ ¬ is_set env envVar
        ∧ t = missing envVar
  end.
Proof.
  induction vars as [|v vars IH]; cbn; [constructor|].
  destruct (unset env v) eqn:Hu.
  - exists [], v, vars. repeat split; [constructor|].
    intros Hs. apply unset_false in Hs. congruence.
  - apply unset_false in Hu. destruct (validate env vars) as [t|[]].
    + destruct IH as (pre & x & post & -> & Hpre & Hx & ->).
      exists (v :: pre), x, post. repeat split; [by constructor|done].
    + by constructor.
Qed.

Lemma load_spec (env : Env) :
  match load env with
  | inr c => Forall (is_set env) requiredEnvVars ∧ c = config env
  | inl t =>
      ∃ pre envVar post,
        requiredEnvVars = pre ++ envVar :: post
        ∧ Forall (is_set env) pre
        ∧ ¬ is_set env envVar
        ∧ t = missing envVar
  end.
Proof.
  unfold load. pose proof (validate_spec env requiredEnvVars) as Hv.
  by destruct (validate env requiredEnvVars) as [t|[]].
Qed.

(** X28: The configuration loads exactly when each of the eleven required
    variables has a non-empty value, and is then the [config] object read
    from the environment; otherwise loading throws, and the message names
    the first variable of the list, in its order, that is missing. *)
Theorem load_checks_required_variables (env : Env) :
  match load env with
  | inr c => Forall (is_set env) requiredEnvVars ∧ c = config env
  | inl t =>
      ∃ pre envVar post,
        requiredEnvVars = pre ++ envVar :: post
        ∧ Forall (is_set env) pre
        ∧ ¬ is_set env envVar
        ∧ t = missing envVar
  end.
Proof.
  unfold load. pose proof (validate_spec env requiredEnvVars) as Hv.
  by destruct (validate env requiredEnvVars) as [t|[]].
Qed.

Lemma unset_delete (env : Env) (k envVar : string) :
  k ≠ envVar → unset (delete k env) envVar = unset env envVar.
Proof. intros Hne. unfold unset. by rewrite lookup_delete_ne. Qed.

(** X29: The check and the reads do not match.  An environment that loads
    still loads without PLANNER_PLAN_ID and SALES_CALLS_LIST_ID, which the
    [config] object reads, and their fields are then undefined; it does not
    load without TEAMS_CHANNEL_ID, which the object never reads: the channel
    id is a constant. *)
Theorem validation_differs_from_use (env : Env) (c : t) :
  load env = inr c →
  (∃ c', load (delete "PLANNER_PLAN_ID" (delete "SALES_CALLS_LIST_ID" env))
         = inr c'
         ∧ plannerPlanId c' = None ∧ salesCallsListId c' = None)
  ∧ load (delete "TEAMS_CHANNEL_ID" env) = inl (missing "TEAMS_CHANNEL_ID")
  ∧ teamsChannelId c = teamsChannelId (config ∅).
Proof.
  intros Hload.
  pose proof (load_spec env) as Hok. rewrite Hload in Hok.
  destruct Hok as [Hall ->].
  assert (∀ v, v ∈ requiredEnvVars → unset env v = false) as Hset.
  { intros v Hv. apply unset_false. by eapply Forall_forall in Hall. }
  assert (∀ v, In v requiredEnvVars → unset env v = false) as Hin.
  { intros v Hv. apply Hset. by apply list_elem_of_In. }
  cbn [requiredEnvVars In] in Hin.
  split; [|split; [|done]].
  - eexists. split.
    + unfold load, requiredEnvVars. cbn [validate].
      rewrite !unset_delete by done.
      repeat (rewrite Hin by tauto). done.
    + unfold config. cbn [plannerPlanId salesCallsListId]. split.
      * apply lookup_delete_eq.
      * rewrite lookup_delete_ne by done. apply lookup_delete_eq.
  - unfold load, requiredEnvVars. cbn [validate].
    rewrite !(unset_delete env "TEAMS_CHANNEL_ID") by done.
    repeat (rewrite Hin by tauto).
    unfold unset at 1. by rewrite lookup_delete_eq.
Qed.

Section Examples.
Import MoreFixtures.

Lemma validation_differs_from_use_witness :
  load (delete "TEAMS_CHANNEL_ID" env_ok) = inl (missing "TEAMS_CHANNEL_ID").
Proof.
  exact (proj1 (proj2 (validation_differs_from_use env_ok (config env_ok)
                         eq_refl))).
Defined.

End Examples.

End ConfigFacts.
